(** * circuits.core.manager: the event manager and its dispatch/task engine

    A shallow embedding of [Manager] (src/circuits/core/manager.py): the
    object heap of events, values and managers is explicit state, the
    opaque Python callables (handlers, tick functions, generators) are
    section variables acting on that state, and every method of the class
    is a computation in a small state-and-exception monad. *)

From stdpp Require Import base gmap sets list strings sorting.

Set Default Proof Using "Type".

Open Scope string_scope.
Open Scope list_scope.
Open Scope nat_scope.

(** ** Object identities *)

Abbreviation eid := nat (only parsing).   (* an Event object *)
Abbreviation vid := nat (only parsing).   (* a Value object *)
Abbreviation gid := nat (only parsing).   (* a generator object *)
Abbreviation hid := nat (only parsing).   (* a handler (bound method) *)
Abbreviation mid := nat (only parsing).   (* a Manager / Component *)
Abbreviation tickid := nat (only parsing). (* a tick callable *)

(** ** Exceptions

    [ExcClass] is the class an [except] clause matches on: an instance of a
    subclass of KeyboardInterrupt counts as [KeyboardInterrupt]. *)

Inductive ExcClass :=
| KeyboardInterrupt
| SystemExit
| StopIteration
| OtherExc (name : string).

Record Exc := mkExc {
  exc_type : ExcClass;
  exc_value : nat;
  exc_traceback : list string
}.

(** [except (KeyboardInterrupt, SystemExit): raise] *)
Definition host_fatal (x : Exc) : bool :=
  match exc_type x with
  | KeyboardInterrupt | SystemExit => true
  | _ => false
  end.

(** ** Channels: a string tag, a manager instance, or [None] *)

Inductive Channel :=
| CStr (s : string)
| CMgr (m : mid)
| CNone.

#[global] Instance Channel_eq_dec : EqDecision Channel.
Proof. solve_decision. Defined.

#[global] Instance Channel_countable : Countable Channel.
Proof.
  refine (inj_countable'
    (λ c, match c with
          | CStr s => inl s
          | CMgr m => inr (Some m)
          | CNone => inr None
          end)
    (λ x : string + option nat, match x with
          | inl s => CStr s
          | inr (Some m) => CMgr m
          | inr None => CNone
          end) _).
  by intros [].
Defined.

(** ** Python values that flow through the manager *)

#[warnings="-register-all"]
Inductive PyVal :=
| PNone
| PBool (b : bool)
| PInt (n : Z)
| PStr (s : string)
| PTuple (xs : list PyVal)
| PList (xs : list PyVal)
| PGen (g : gid)
| PEvent (e : eid)
| PValue (v : vid)
| PMgr (m : mid)
| PHandler (h : hid)
| PExcType (c : ExcClass)
| PObj (o : nat).

(** [type(value) is GeneratorType] *)
Definition as_generator (v : PyVal) : option gid :=
  match v with PGen g => Some g | _ => None end.

(** [value is not None] *)
Definition is_not_None (v : PyVal) : bool :=
  match v with PNone => false | _ => true end.

(** [etype, evalue, etraceback = _exc_info(); traceback = format_tb(etraceback)]
    and the triple [(etype, evalue, traceback)]. *)
Definition error_triple (x : Exc) : PyVal :=
  PTuple [PExcType (exc_type x); PObj (exc_value x);
          PList (PStr <$> exc_traceback x)].

(** ** Events, values, handlers *)

(** Modelled from the spec: the Event class (circuits/core/events.py is not
    among the sources).  The fields are those of the spec's data model;
    [e_class] is [event.__class__.__name__]. *)
Record Event := mkEvent {
  e_class : string;
  e_name : string;
  e_channels : list Channel;
  e_args : list PyVal;
  e_kwargs : list (string * PyVal);
  e_value : option vid;
  e_handler : option hid;
  waitingHandlers : Z;
  e_success : bool;
  e_failure : bool;
  e_alert_done : bool;
  e_notify : bool
}.

(** Modelled from the spec: the Value class (circuits/core/values.py is not
    among the sources): result cell, [errors] and [promise] flags, and the
    number of [inform(True)] calls it has received. *)
Record Value := mkValue {
  v_event : eid;
  v_manager : mid;
  v_notify : bool;
  v_value : PyVal;
  v_errors : bool;
  v_promise : bool;
  v_informed : nat
}.

(** The attributes the [handler] decorator puts on a handler; [h_self] is
    [handler.__self__] when the handler is a bound method. *)
Record Handler := mkHandler {
  h_names : list string;
  h_channel : Channel;
  h_priority : Z;
  h_filter : bool;
  h_event : bool;
  h_self : option mid
}.

(** A task: [(event, generator)] or [(event, generator, parent)]. *)
Abbreviation Task := (eid * gid * option gid)%type (only parsing).

Definition task_event (t : Task) : eid := t.1.1.

(** ** Managers *)

Record Manager := mkManager {
  _tasks : gset Task;
  _ticks : gset tickid;
  _cache : gmap (string * list Channel) (list hid);
  _queue : list (eid * list Channel);
  _globals : gset hid;
  _handlers : gmap string (gset hid);
  _task : option nat;
  _running : bool;
  root : mid;
  parent : mid;
  components : gset mid;
  (* [None]: the object has no [channel] attribute (a bare Manager) *)
  channel : option Channel;
  (* the members [getmembers] finds with [tick is True], and [__tick__] *)
  own_ticks : gset tickid
}.

Definition set_tasks (x : gset Task) (m : Manager) : Manager :=
  mkManager x (_ticks m) (_cache m) (_queue m) (_globals m) (_handlers m)
    (_task m) (_running m) (root m) (parent m) (components m) (channel m)
    (own_ticks m).

Definition set_ticks (x : gset tickid) (m : Manager) : Manager :=
  mkManager (_tasks m) x (_cache m) (_queue m) (_globals m) (_handlers m)
    (_task m) (_running m) (root m) (parent m) (components m) (channel m)
    (own_ticks m).

Definition set_cache (x : gmap (string * list Channel) (list hid))
    (m : Manager) : Manager :=
  mkManager (_tasks m) (_ticks m) x (_queue m) (_globals m) (_handlers m)
    (_task m) (_running m) (root m) (parent m) (components m) (channel m)
    (own_ticks m).

Definition set_queue (x : list (eid * list Channel)) (m : Manager) : Manager :=
  mkManager (_tasks m) (_ticks m) (_cache m) x (_globals m) (_handlers m)
    (_task m) (_running m) (root m) (parent m) (components m) (channel m)
    (own_ticks m).

Definition set_globals (x : gset hid) (m : Manager) : Manager :=
  mkManager (_tasks m) (_ticks m) (_cache m) (_queue m) x (_handlers m)
    (_task m) (_running m) (root m) (parent m) (components m) (channel m)
    (own_ticks m).

Definition set_handlers (x : gmap string (gset hid)) (m : Manager) : Manager :=
  mkManager (_tasks m) (_ticks m) (_cache m) (_queue m) (_globals m) x
    (_task m) (_running m) (root m) (parent m) (components m) (channel m)
    (own_ticks m).

Definition set_task (x : option nat) (m : Manager) : Manager :=
  mkManager (_tasks m) (_ticks m) (_cache m) (_queue m) (_globals m)
    (_handlers m) x (_running m) (root m) (parent m) (components m)
    (channel m) (own_ticks m).

Definition set_running (x : bool) (m : Manager) : Manager :=
  mkManager (_tasks m) (_ticks m) (_cache m) (_queue m) (_globals m)
    (_handlers m) (_task m) x (root m) (parent m) (components m)
    (channel m) (own_ticks m).

Definition set_components (x : gset mid) (m : Manager) : Manager :=
  mkManager (_tasks m) (_ticks m) (_cache m) (_queue m) (_globals m)
    (_handlers m) (_task m) (_running m) (root m) (parent m) x
    (channel m) (own_ticks m).

Definition set_channels (x : list Channel) (e : Event) : Event :=
  mkEvent (e_class e) (e_name e) x (e_args e) (e_kwargs e) (e_value e)
    (e_handler e) (waitingHandlers e) (e_success e) (e_failure e)
    (e_alert_done e) (e_notify e).

Definition set_value (x : option vid) (e : Event) : Event :=
  mkEvent (e_class e) (e_name e) (e_channels e) (e_args e) (e_kwargs e) x
    (e_handler e) (waitingHandlers e) (e_success e) (e_failure e)
    (e_alert_done e) (e_notify e).

Definition set_handler (x : option hid) (e : Event) : Event :=
  mkEvent (e_class e) (e_name e) (e_channels e) (e_args e) (e_kwargs e)
    (e_value e) x (waitingHandlers e) (e_success e) (e_failure e)
    (e_alert_done e) (e_notify e).

Definition set_waitingHandlers (x : Z) (e : Event) : Event :=
  mkEvent (e_class e) (e_name e) (e_channels e) (e_args e) (e_kwargs e)
    (e_value e) (e_handler e) x (e_success e) (e_failure e)
    (e_alert_done e) (e_notify e).

Definition set_v_value (x : PyVal) (v : Value) : Value :=
  mkValue (v_event v) (v_manager v) (v_notify v) x (v_errors v)
    (v_promise v) (v_informed v).

Definition set_v_errors (x : bool) (v : Value) : Value :=
  mkValue (v_event v) (v_manager v) (v_notify v) (v_value v) x
    (v_promise v) (v_informed v).

Definition set_v_promise (x : bool) (v : Value) : Value :=
  mkValue (v_event v) (v_manager v) (v_notify v) (v_value v) (v_errors v)
    x (v_informed v).

(** Modelled from the spec: [Value.inform(True)] notifies the observers that
    the value is final; the model counts the calls. *)
Definition inform (v : Value) : Value :=
  mkValue (v_event v) (v_manager v) (v_notify v) (v_value v) (v_errors v)
    (v_promise v) (S (v_informed v)).

(** ** Observable actions

    The order in which the manager calls into opaque code, recorded as a
    ghost log next to the state.  [TIMEOUT] is the idle quantum in
    milliseconds ([TIMEOUT = 0.01] seconds in the source). *)

Definition TIMEOUT : nat := 10.

Inductive Action :=
| CallTick (f : tickid)                       (* [f()] in [tick] *)
| Advance (e : eid) (g : gid)                 (* [task.next()] *)
| Dispatch (e : eid) (chs : list Channel)     (* entry of [_dispatcher] *)
| Invoke (h : hid) (e : eid) (args : list PyVal)  (* a handler call *)
| EventDone (e : eid) (err : bool)            (* entry of [_eventDone] *)
| Sleep (ms : nat).                           (* [sleep(TIMEOUT)] *)

(** What an opaque callable does to its caller. *)
Inductive Outcome :=
| Returns (v : PyVal)
| Raises (x : Exc).

(** What [task.next()] does: yield a value, or raise (StopIteration on
    exhaustion). *)
Inductive GenOutcome :=
| Yields (v : PyVal)
| Throws (x : Exc).

Section Engine.

(** [U] is the part of the Python heap the manager never looks at: the
    frames of the generators, the state the handlers close over. *)
Context {U : Type}.

Record State := mkState {
  st_events : list Event;
  st_values : list Value;
  st_mgrs : list Manager;
  st_user : U
}.

Record World := mkWorld {
  w_state : State;
  w_log : list Action
}.

(** ** Heap access.  An identity always resolves in Python; the defaults
    below only make the functions total on identities outside the heap. *)

Definition upd_event (e : eid) (f : Event → Event) (st : State) : State :=
  mkState (alter f e (st_events st)) (st_values st) (st_mgrs st) (st_user st).

Definition upd_value (v : vid) (f : Value → Value) (st : State) : State :=
  mkState (st_events st) (alter f v (st_values st)) (st_mgrs st) (st_user st).

Definition upd_mgr (m : mid) (f : Manager → Manager) (st : State) : State :=
  mkState (st_events st) (st_values st) (alter f m (st_mgrs st)) (st_user st).

Definition event_get {A} (f : Event → A) (d : A) (e : eid) (st : State) : A :=
  from_option f d (st_events st !! e).

Definition mgr_get {A} (f : Manager → A) (d : A) (m : mid) (st : State) : A :=
  from_option f d (st_mgrs st !! m).

(** [event.value.<field> = ...] *)
Definition upd_event_value (e : eid) (f : Value → Value) (st : State) : State :=
  match event_get e_value None e st with
  | Some v => upd_value v f st
  | None => st
  end.

Definition alloc_event (ev : Event) (st : State) : State :=
  mkState (st_events st ++ [ev]) (st_values st) (st_mgrs st) (st_user st).

Definition alloc_value (v : Value) (st : State) : State :=
  mkState (st_events st) (st_values st ++ [v]) (st_mgrs st) (st_user st).

(** [self.root] *)
Definition root_of (self : mid) (st : State) : mid := mgr_get root self self st.

(** ** The monad: state, ghost log, Python exceptions, and fuel for the one
    unbounded recursion ([processTask] priming nested generators). *)

Inductive Res (A : Type) :=
| Ret (a : A) (w : World)
| Raise (x : Exc) (w : World)
| OutOfFuel.
Arguments Ret {A} a w.
Arguments Raise {A} x w.
Arguments OutOfFuel {A}.

Definition M (A : Type) : Type := World → Res A.

Definition ret {A} (a : A) : M A := λ w, Ret a w.

Definition bind {A B} (c : M A) (k : A → M B) : M B :=
  λ w, match c w with
       | Ret a w' => k a w'
       | Raise x w' => Raise x w'
       | OutOfFuel => OutOfFuel
       end.

Definition raise {A} (x : Exc) : M A := λ w, Raise x w.

Definition gets {A} (f : State → A) : M A := λ w, Ret (f (w_state w)) w.

Definition modify (f : State → State) : M unit :=
  λ w, Ret tt (mkWorld (f (w_state w)) (w_log w)).

Definition emit (a : Action) : M unit :=
  λ w, Ret tt (mkWorld (w_state w) (w_log w ++ [a])).

(** Run opaque code: it sees and changes the state, never the log. *)
Definition opaque {A} (f : State → A * State) : M A :=
  λ w, let '(a, st) := f (w_state w) in Ret a (mkWorld st (w_log w)).

Notation "'let*' x ':=' c 'in' k" := (bind c (λ x, k))
  (at level 10, x binder, c at level 100, k at level 200, only parsing).
Notation "c '>>' k" := (bind c (λ _, k))
  (at level 100, k at level 200, right associativity, only parsing).

(** ** The opaque code *)

(** The metadata of every handler object. *)
Variable hinfo : hid → Handler.

(** Modelled from the spec: [Event.name] is derived from the class name by a
    convention of circuits/core/events.py, which is not among the sources. *)
Variable event_name : string → string.

(** A handler call with its positional and keyword arguments, [f()] for a
    tick callable, [task.next()]. *)
Variable call_handler :
  hid → list PyVal → list (string * PyVal) → State → Outcome * State.
Variable call_tick : tickid → State → Outcome * State.
Variable gen_next : gid → State → GenOutcome * State.

(** Iteration over a Python [set] visits its members in an order the
    language leaves unspecified (it follows the hashes, hence the addresses,
    of the members). *)
Variable handler_order : gset hid → list hid.
Variable tick_order : gset tickid → list tickid.
Variable task_order : gset Task → list Task.

(** ** Truth values *)

Definition nonempty {A} (l : list A) : bool :=
  match l with [] => false | _ => true end.

(** [bool(v)]; a Manager has [__len__], the length of its queue. *)
Definition truthy (st : State) (v : PyVal) : bool :=
  match v with
  | PNone => false
  | PBool b => b
  | PInt n => negb (n =? 0)%Z
  | PStr s => negb (String.eqb s "")
  | PTuple xs | PList xs => nonempty xs
  | PMgr m => nonempty (mgr_get _queue [] m st)
  | _ => true
  end.

Definition chan_truthy (st : State) (c : Channel) : bool :=
  match c with
  | CStr s => negb (String.eqb s "")
  | CMgr m => nonempty (mgr_get _queue [] m st)
  | CNone => false
  end.

(** [a or b] on tuples *)
Definition tuple_or {A} (a b : list A) : list A :=
  if nonempty a then a else b.

(** ** Firing *)

(** [_fire]: [self._queue.append((event, channel))] *)
Definition _fire (self : mid) (event : eid) (channel : list Channel) : M unit :=
  modify (upd_mgr self (λ m, set_queue (_queue m ++ [(event, channel)]) m)).

(** [getattr(self, "channel", "*")] *)
Definition getattr_channel (self : mid) (default : Channel) (st : State)
    : Channel :=
  mgr_get (λ m, from_option id default (channel m)) default self st.

Definition fireEvent (self : mid) (event : eid) (channels : list Channel)
    : M vid :=
  let* channels :=
    if nonempty channels then ret channels
    else
      let* own := gets (event_get e_channels [] event) in
      let* mine := gets (getattr_channel self (CStr "*")) in
      ret (tuple_or (tuple_or own [mine]) [CStr "*"]) in
  modify (upd_event event (set_channels channels)) >>
  let* notify := gets (event_get e_notify false event) in
  let* v := gets (λ st, length (st_values st)) in
  modify (alloc_value (mkValue event self notify PNone false false 0)) >>
  modify (upd_event event (set_value (Some v))) >>
  let* r := gets (root_of self) in
  _fire r event channels >>
  gets (λ st, default v (event_get e_value None event st)).

Definition fire := fireEvent.

(** Modelled from the spec: [Event.create(cls_name, args...)] and the plain
    constructors [Error(...)], [Stopped(...)] mint a new event object of the
    named class, its opt-in flags unset, no channels, no value yet. *)
Definition create (cls : string) (args : list PyVal) : M eid :=
  let* e := gets (λ st, length (st_events st)) in
  modify (alloc_event (mkEvent cls (event_name cls) [] args [] None None
                         0%Z false false false false)) >>
  ret e.

(** ** Tasks *)

Definition registerTask (self : mid) (g : Task) : M unit :=
  modify (upd_mgr self (λ m, set_tasks (_tasks m ∪ {[g]}) m)).

Definition unregisterTask (self : mid) (g : Task) : M unit :=
  modify (upd_mgr self (λ m, set_tasks (_tasks m ∖ {[g]}) m)).

(** ** Completion gate *)

Definition value_ref (v : option vid) : PyVal :=
  match v with Some v => PValue v | None => PNone end.

(** [self.fire(K.create("%sK" % event.__class__.__name__, event, x),
    *event.channels)] for K among Done, Success, Failure. *)
Definition fire_lifecycle (self : mid) (event : eid) (kind : string)
    (x : State → PyVal) : M unit :=
  let* cls := gets (event_get e_class "" event) in
  let* arg := gets x in
  let* new := create (cls +:+ kind) [PEvent event; arg] in
  let* chs := gets (event_get e_channels [] event) in
  fire self new chs >> ret tt.

Definition event_value (event : eid) (st : State) : PyVal :=
  value_ref (event_get e_value None event st).

Definition _eventDone (self : mid) (event : eid) (error : option Exc)
    : M unit :=
  emit (EventDone event (bool_decide (error ≠ None))) >>
  let* waiting := gets (event_get waitingHandlers 0%Z event) in
  if negb (waiting =? 0)%Z then ret tt
  else
    let* alert_done := gets (event_get e_alert_done false event) in
    (if alert_done
     then fire_lifecycle self event "Done" (event_value event)
     else ret tt) >>
    let* success := gets (event_get e_success false event) in
    if bool_decide (error = None) && success
    then fire_lifecycle self event "Success" (event_value event)
    else ret tt.

(** ** Handler resolution *)

(** The handler's effective channel: its own, else that of the component
    it is bound to, else [None]. *)
Definition handler_channel (st : State) (h : hid) : Channel :=
  if chan_truthy st (h_channel (hinfo h)) then h_channel (hinfo h)
  else match h_self (hinfo h) with
       | Some c => mgr_get (λ m, from_option id CNone (channel m)) CNone c st
       | None => CNone
       end.

Definition channel_is_instance (ch : Channel) : bool :=
  match ch with CMgr _ => true | _ => false end.

(** [channel == "*" or handler_channel in ("*", channel,) or
    channel_is_instance] *)
Definition accepts (st : State) (ch : Channel) (h : hid) : bool :=
  bool_decide (ch = CStr "*")
  || bool_decide (handler_channel st h = CStr "*")
  || bool_decide (handler_channel st h = ch)
  || channel_is_instance ch.

(** The part of [getHandlers] that looks at [self] only: the "*" bucket and
    the bucket of [name], filtered by channel, and all the globals. *)
Definition own_handlers (st : State) (self : mid) (name : string)
    (ch : Channel) : gset hid :=
  let buckets := mgr_get _handlers ∅ self st in
  let handlers_chain :=
    default ∅ (buckets !! "*") ∪ default ∅ (buckets !! name) in
  filter (λ h, accepts st ch h) handlers_chain ∪ mgr_get _globals ∅ self st.

(** [getHandlers] recurses through [self.components]; [depth] bounds the
    recursion by the height of the component tree. *)
Fixpoint getHandlers_at (depth : nat) (st : State) (self : mid)
    (name : string) (ch : Channel) : gset hid :=
  match ch with
  | CMgr c =>
      if bool_decide (c ≠ self) then own_handlers st c name ch
      else own_handlers st self name ch
  | _ =>
      own_handlers st self name ch ∪
      match depth with
      | 0 => ∅
      | S d =>
          ⋃ ((λ c, getHandlers_at d st c name ch)
               <$> elements (mgr_get components ∅ self st))
      end
  end.

(** A tree of managers in the heap is no higher than the heap is long. *)
Definition getHandlers (st : State) (self : mid) (name : string)
    (ch : Channel) : gset hid :=
  getHandlers_at (length (st_mgrs st)) st self name ch.

(** ** Sorting: [sorted(..., key=_sortkey, reverse=True)] *)

Definition _sortkey (h : Handler) : Z * bool := (h_priority h, h_filter h).

(** Tuple comparison, with [False < True]. *)
Definition key_lt (a b : Z * bool) : bool :=
  (a.1 <? b.1)%Z || ((a.1 =? b.1)%Z && negb a.2 && b.2).

Definition hkey (h : hid) : Z * bool := _sortkey (hinfo h).

(** Python's sort is stable, also with [reverse=True]: among equal keys the
    input order is kept.  Any stable sort computes the same list; this one
    inserts each element before the first one whose key is not greater. *)
Fixpoint insert_desc (x : hid) (l : list hid) : list hid :=
  match l with
  | [] => [x]
  | y :: l' =>
      if key_lt (hkey x) (hkey y) then y :: insert_desc x l' else x :: l
  end.

Definition sorted_reverse (l : list hid) : list hid := foldr insert_desc [] l.

(** [h = (self.getHandlers(event, channel) for channel in channels)] and
    [sorted(chain( *h ), key=_sortkey, reverse=True)] *)
Definition resolve (st : State) (self : mid) (name : string)
    (channels : list Channel) : list hid :=
  sorted_reverse
    (concat ((λ ch, handler_order (getHandlers st self name ch)) <$> channels)).

(** ** The dispatcher *)

(** The [except:] clause of [_dispatcher]; returns the new [value]. *)
Definition handler_failed (self : mid) (event : eid) (handler : hid)
    (x : Exc) : M PyVal :=
  let error := error_triple x in
  modify (upd_event_value event (set_v_errors true)) >>
  let* failure := gets (event_get e_failure false event) in
  (if failure
   then fire_lifecycle self event "Failure" (λ _, error)
   else ret tt) >>
  let* err := create "Error" [PExcType (exc_type x); PObj (exc_value x);
                              PList (PStr <$> exc_traceback x);
                              PHandler handler] in
  fire self err [] >>
  ret error.

(** What the loop does with [value] after the [try] statement. *)
Definition handler_returned (self : mid) (event : eid) (value : PyVal)
    : M unit :=
  match as_generator value with
  | Some g =>
      modify (upd_event event
                (λ e, set_waitingHandlers (waitingHandlers e + 1)%Z e)) >>
      modify (upd_event_value event (set_v_promise true)) >>
      registerTask self (event, g, None)
  | None =>
      if is_not_None value
      then modify (upd_event_value event (set_v_value value))
      else ret tt
  end.

(** The body of [for handler in handlers:].  It returns the local [error]
    and whether the [break] was taken. *)
Definition dispatch_step (self : mid) (event : eid) (eargs : list PyVal)
    (ekwargs : list (string * PyVal)) (handler : hid) (error : option Exc)
    : M (option Exc * bool) :=
  modify (upd_event event (set_handler (Some handler))) >>
  let args :=
    if h_event (hinfo handler) then PEvent event :: eargs else eargs in
  emit (Invoke handler event args) >>
  let* outcome := opaque (call_handler handler args ekwargs) in
  let* ve :=
    match outcome with
    | Returns value => ret (value, error)
    | Raises x =>
        if host_fatal x then raise x
        else
          let* value := handler_failed self event handler x in
          ret (value, Some x)
    end in
  let value := ve.1 in
  let error := ve.2 in
  handler_returned self event value >>
  let* stop := gets (λ st, truthy st value && h_filter (hinfo handler)) in
  ret (error, stop).

(** [for handler in handlers: ...]; the result is the local [error]. *)
Fixpoint dispatch_loop (self : mid) (event : eid) (eargs : list PyVal)
    (ekwargs : list (string * PyVal)) (handlers : list hid)
    (error : option Exc) : M (option Exc) :=
  match handlers with
  | [] => ret error
  | handler :: rest =>
      let* r := dispatch_step self event eargs ekwargs handler error in
      if (r.2 : bool) then ret r.1
      else dispatch_loop self event eargs ekwargs rest r.1
  end.

Definition _dispatcher (self : mid) (event : eid) (channels : list Channel)
    : M unit :=
  emit (Dispatch event channels) >>
  let* eargs := gets (event_get e_args [] event) in
  let* ekwargs := gets (event_get e_kwargs [] event) in
  let* name := gets (event_get e_name "" event) in
  let* cached := gets (λ st, mgr_get _cache ∅ self st !! (name, channels)) in
  let* handlers :=
    match cached with
    | Some handlers => ret handlers
    | None =>
        let* handlers := gets (λ st, resolve st self name channels) in
        modify (upd_mgr self
                  (λ m, set_cache (<[(name, channels) := handlers]> (_cache m)) m)) >>
        ret handlers
    end in
  let* error := dispatch_loop self event eargs ekwargs handlers None in
  _eventDone self event error.

(** [_flush]: swap the queue for an empty one, dispatch the old entries. *)
Fixpoint dispatch_all (self : mid) (q : list (eid * list Channel)) : M unit :=
  match q with
  | [] => ret tt
  | (event, channels) :: q' =>
      _dispatcher self event channels >> dispatch_all self q'
  end.

Definition _flush (self : mid) : M unit :=
  let* q := gets (mgr_get _queue [] self) in
  modify (upd_mgr self (set_queue [])) >>
  dispatch_all self q.

Definition flushEvents (self : mid) : M unit :=
  let* r := gets (root_of self) in
  _flush r.

Definition flush := flushEvents.

(** ** The task scheduler *)

(** The [except StopIteration:] clause. *)
Definition task_exhausted (self : mid) (event : eid) (task : gid)
    (parent : option gid) : M unit :=
  unregisterTask self (event, task, None) >>
  (match parent with
   | Some p => registerTask self (event, p, None)
   | None => ret tt
   end) >>
  modify (upd_event event
            (λ e, set_waitingHandlers (waitingHandlers e - 1)%Z e)) >>
  let* waiting := gets (event_get waitingHandlers 0%Z event) in
  if (waiting =? 0)%Z
  then modify (upd_event_value event inform) >> _eventDone self event None
  else ret tt.

(** The bare [except:] clause.  [value] is still [None] there: only
    [task.next()] raises inside the [try].  The last argument of [Error] is
    the module-level name [handler], the decorator function. *)
Definition task_failed (self : mid) (event : eid) (task : gid) (x : Exc)
    : M unit :=
  unregisterTask self (event, task, None) >>
  let error := error_triple x in
  modify (upd_event_value event (set_v_value PNone)) >>
  modify (upd_event_value event (set_v_errors true)) >>
  modify (upd_event_value event inform) >>
  let* failure := gets (event_get e_failure false event) in
  (if failure
   then fire_lifecycle self event "Failure" (λ _, error)
   else ret tt) >>
  let* err := create "Error" [PExcType (exc_type x); PObj (exc_value x);
                              PList (PStr <$> exc_traceback x); PObj 0] in
  fire self err [] >> ret tt.

(** The nested-generator branch, up to the recursive call. *)
Definition task_spawned (self : mid) (event : eid) (task : gid) (value : gid)
    : M unit :=
  modify (upd_event event
            (λ e, set_waitingHandlers (waitingHandlers e + 1)%Z e)) >>
  registerTask self (event, value, Some task) >>
  unregisterTask self (event, task, None).

Fixpoint processTask (fuel : nat) (self : mid) (event : eid) (task : gid)
    (parent : option gid) : M unit :=
  match fuel with
  | 0 => λ _, OutOfFuel
  | S fuel =>
      emit (Advance event task) >>
      let* out := opaque (gen_next task) in
      match out with
      | Yields value =>
          match as_generator value with
          | Some g =>
              task_spawned self event task g >>
              processTask fuel self event g None
          | None =>
              if is_not_None value
              then modify (upd_event_value event (set_v_value value))
              else ret tt
          end
      | Throws x =>
          match exc_type x with
          | StopIteration => task_exhausted self event task parent
          | _ => task_failed self event task x
          end
      end
  end.

(** ** The tick *)

Fixpoint run_ticks (self : mid) (fs : list tickid) : M unit :=
  match fs with
  | [] => ret tt
  | f :: fs' =>
      emit (CallTick f) >>
      let* outcome := opaque (call_tick f) in
      (match outcome with
       | Returns _ => ret tt
       | Raises x =>
           if host_fatal x then raise x
           else
             let* err := create "Error" [PExcType (exc_type x);
                                         PObj (exc_value x);
                                         PList (PStr <$> exc_traceback x)] in
             fire self err [] >> ret tt
       end) >>
      run_ticks self fs'
  end.

Fixpoint run_tasks (fuel : nat) (self : mid) (ts : list Task) : M unit :=
  match ts with
  | [] => ret tt
  | (event, task, parent) :: ts' =>
      processTask fuel self event task parent >> run_tasks fuel self ts'
  end.

Definition tick (fuel : nat) (self : mid) : M unit :=
  let* fs := gets (λ st, tick_order (mgr_get _ticks ∅ self st)) in
  run_ticks self fs >>
  let* ts := gets (λ st, task_order (mgr_get _tasks ∅ self st)) in
  run_tasks fuel self ts >>
  let* q := gets (mgr_get _queue [] self) in
  if nonempty q then flush self else emit (Sleep TIMEOUT).

(** ** Stopping *)

Definition stop (fuel : nat) (self : mid) : M unit :=
  let* running := gets (mgr_get _running false self) in
  if negb running then ret tt
  else
    modify (upd_mgr self (set_running false)) >>
    let* ev := create "Stopped" [PMgr self] in
    fire self ev [] >>
    tick fuel self >> tick fuel self >> tick fuel self >>
    modify (upd_mgr self (set_task None)).

(** ** The handler registry and the component tree *)

(** [self.root._cache.clear()] *)
Definition clear_root_cache (self : mid) : M unit :=
  let* r := gets (root_of self) in
  modify (upd_mgr r (set_cache ∅)).

(** [self._handlers.setdefault(name, set()).add(method)] *)
Definition bucket_add (name : string) (method : hid) (m : Manager) : Manager :=
  set_handlers
    (<[name := default ∅ (_handlers m !! name) ∪ {[method]}]> (_handlers m)) m.

(** [addHandler]; [method] is the handler after binding ([f] itself unless
    [f] is a plain function).  The [setattr] on [self] is not modelled. *)
Definition addHandler (self : mid) (method : hid) : M unit :=
  let names := h_names (hinfo method) in
  (if negb (nonempty names) && bool_decide (h_channel (hinfo method) = CStr "*")
   then modify (upd_mgr self (λ m, set_globals (_globals m ∪ {[method]}) m))
   else if negb (nonempty names)
   then modify (upd_mgr self (bucket_add "*" method))
   else modify (upd_mgr self (λ m, foldl (λ m name, bucket_add name method m) m names))) >>
  clear_root_cache self.

Definition KeyError : Exc := mkExc (OtherExc "KeyError") 0 [].

(** One round of the loop of [removeHandler]:
    [self._handlers[name].remove(method)], then [del self._handlers[name]]
    when the bucket has become empty.  Both subscripts and [remove] raise
    KeyError on a missing key or member. *)
Definition bucket_remove (self : mid) (name : string) (method : hid) : M unit :=
  let* buckets := gets (mgr_get _handlers ∅ self) in
  match buckets !! name with
  | None => raise KeyError
  | Some bucket =>
      if bool_decide (method ∈ bucket) then
        let bucket' := bucket ∖ {[method]} in
        if bool_decide (bucket' = ∅)
        then modify (upd_mgr self (λ m, set_handlers (delete name (_handlers m)) m))
        else modify (upd_mgr self (λ m, set_handlers (<[name := bucket']> (_handlers m)) m))
      else raise KeyError
  end.

Fixpoint remove_each (self : mid) (names : list string) (method : hid)
    : M unit :=
  match names with
  | [] => ret tt
  | name :: names' =>
      bucket_remove self name method >> remove_each self names' method
  end.

Definition removeHandler (self : mid) (method : hid) (event : option string)
    : M unit :=
  let names :=
    match event with
    | None => h_names (hinfo method)
    | Some name => [name]
    end in
  remove_each self names method >>
  clear_root_cache self.

(** [getTicks]: the tick callables of [self] and of its whole subtree. *)
Fixpoint getTicks_at (depth : nat) (st : State) (self : mid) : gset tickid :=
  mgr_get own_ticks ∅ self st ∪
  match depth with
  | 0 => ∅
  | S d =>
      ⋃ ((λ c, getTicks_at d st c) <$> elements (mgr_get components ∅ self st))
  end.

Definition getTicks (st : State) (self : mid) : gset tickid :=
  getTicks_at (length (st_mgrs st)) st self.

(** [self.root._ticks = self.root.getTicks()] *)
Definition refresh_root_ticks (self : mid) : M unit :=
  let* r := gets (root_of self) in
  let* ticks := gets (λ st, getTicks st r) in
  modify (upd_mgr r (set_ticks ticks)).

Definition registerChild (self : mid) (component : mid) : M unit :=
  modify (upd_mgr self (λ m, set_components (components m ∪ {[component]}) m)) >>
  let* moved := gets (mgr_get _queue [] component) in
  let* r := gets (root_of self) in
  modify (upd_mgr r (λ m, set_queue (_queue m ++ moved) m)) >>
  modify (upd_mgr component (set_queue [])) >>
  clear_root_cache self >>
  refresh_root_ticks self.

(** [self.components.remove(component)] raises KeyError on a non-member. *)
Definition unregisterChild (self : mid) (component : mid) : M unit :=
  let* children := gets (mgr_get components ∅ self) in
  (if bool_decide (component ∈ children)
   then modify (upd_mgr self (λ m, set_components (components m ∖ {[component]}) m))
   else raise KeyError) >>
  clear_root_cache self >>
  refresh_root_ticks self.

(** ** Derived notions used in the statements *)

(** The channel tuple as the documentation of [fireEvent] orders it. *)
Definition effective_channels (st : State) (self : mid) (event : eid)
    (channels : list Channel) : list Channel :=
  match channels with
  | _ :: _ => channels
  | [] =>
      match event_get e_channels [] event st with
      | (_ :: _) as own => own
      | [] =>
          match mgr_get channel None self st with
          | Some c => [c]
          | None => [CStr "*"]
          end
      end
  end.

(** The state [fire] leaves behind, in closed form. *)
Definition fired (self : mid) (event : eid) (channels : list Channel)
    (st : State) : State :=
  let chs := effective_channels st self event channels in
  let v := length (st_values st) in
  upd_mgr (root_of self st) (λ m, set_queue (_queue m ++ [(event, chs)]) m)
    (upd_event event (λ e, set_value (Some v) (set_channels chs e))
       (alloc_value (mkValue event self (event_get e_notify false event st)
                       PNone false false 0) st)).

Definition new_event (cls : string) (args : list PyVal) : Event :=
  mkEvent cls (event_name cls) [] args [] None None 0%Z false false false false.

(** The state after [self.fire(K(args...), *chs)] for a newly made event of
    class [cls]. *)
Definition created_fired (self : mid) (cls : string) (args : list PyVal)
    (chs : list Channel) (st : State) : State :=
  fired self (length (st_events st)) chs (alloc_event (new_event cls args) st).

(** The channels such a new event is fired on: [chs], with the fall-backs
    of [fire] when [chs] is empty (the new event has no channels yet). *)
Definition created_channels (self : mid) (chs : list Channel) (st : State)
    : list Channel :=
  match chs with
  | _ :: _ => chs
  | [] => match mgr_get channel None self st with
          | Some c => [c]
          | None => [CStr "*"]
          end
  end.

(** The state after [fire_lifecycle]: a new event of class
    [<class of event><kind>] carrying [(event, x)], fired on the channels
    of [event]. *)
Definition lifecycle_fired (self : mid) (event : eid) (kind : string)
    (x : State → PyVal) (st : State) : State :=
  created_fired self (event_get e_class "" event st +:+ kind)
    [PEvent event; x st] (event_get e_channels [] event st) st.

Definition lifecycle_channels (self : mid) (event : eid) (st : State)
    : list Channel :=
  created_channels self (event_get e_channels [] event st) st.

Definition enqueue (entry : eid * list Channel) (m : Manager) : Manager :=
  set_queue (_queue m ++ [entry]) m.

(** The state [_eventDone] leaves behind. *)
Definition eventDone_state (self : mid) (event : eid) (error : option Exc)
    (st : State) : State :=
  if negb (event_get waitingHandlers 0%Z event st =? 0)%Z then st
  else
    let st1 :=
      if event_get e_alert_done false event st
      then lifecycle_fired self event "Done" (event_value event) st
      else st in
    if bool_decide (error = None) && event_get e_success false event st
    then lifecycle_fired self event "Success" (event_value event) st1
    else st1.

Definition queue_of (m : mid) (st : State) : list (eid * list Channel) :=
  mgr_get _queue [] m st.

(** The class names of queue entries, read in state [st]. *)
Definition entry_classes (st : State) (entries : list (eid * list Channel))
    : list string :=
  (λ entry, event_get e_class "" entry.1 st) <$> entries.

Definition bump (d : Z) (e : Event) : Event :=
  set_waitingHandlers (waitingHandlers e + d)%Z e.

Definition add_task (t : Task) (m : Manager) : Manager :=
  set_tasks (_tasks m ∪ {[t]}) m.

Definition del_task (t : Task) (m : Manager) : Manager :=
  set_tasks (_tasks m ∖ {[t]}) m.

Definition handler_returned_state (self : mid) (event : eid) (value : PyVal)
    (st : State) : State :=
  match as_generator value with
  | Some g =>
      upd_mgr self (add_task (event, g, None))
        (upd_event_value event (set_v_promise true)
           (upd_event event (bump 1) st))
  | None =>
      if is_not_None value
      then upd_event_value event (set_v_value value) st
      else st
  end.

Definition error_args (x : Exc) (extra : list PyVal) : list PyVal :=
  [PExcType (exc_type x); PObj (exc_value x);
   PList (PStr <$> exc_traceback x)] ++ extra.

Definition handler_failed_state (self : mid) (event : eid) (handler : hid)
    (x : Exc) (st : State) : State :=
  let st1 := upd_event_value event (set_v_errors true) st in
  let st2 :=
    if event_get e_failure false event st1
    then lifecycle_fired self event "Failure" (λ _, error_triple x) st1
    else st1 in
  created_fired self "Error" (error_args x [PHandler handler]) [] st2.

(** The arguments a handler is called with. *)
Definition call_args (event : eid) (eargs : list PyVal) (handler : hid)
    : list PyVal :=
  if h_event (hinfo handler) then PEvent event :: eargs else eargs.

(** The state in which a handler body starts, and what it does there. *)
Definition before_call (event : eid) (handler : hid) (st : State) : State :=
  upd_event event (set_handler (Some handler)) st.

Definition handler_run (event : eid) (eargs : list PyVal)
    (ekwargs : list (string * PyVal)) (handler : hid) (st : State)
    : Outcome * State :=
  call_handler handler (call_args event eargs handler) ekwargs
    (before_call event handler st).

Definition total {A} (c : M A) : Prop := ∀ w, ∃ a w', c w = Ret a w'.

Definition raises_only_fatal {A} (c : M A) : Prop :=
  ∀ w x w', c w = Raise x w' → host_fatal x = true.

Definition quiet {A} (c : M A) : Prop :=
  ∀ w, ∃ a st', c w = Ret a (mkWorld st' (w_log w)).

(** The ordered handler list [_dispatcher] works with: the cached one if
    there is one, else the one it resolves. *)
Definition handlers_for (self : mid) (event : eid) (channels : list Channel)
    (st : State) : list hid :=
  let name := event_get e_name "" event st in
  match mgr_get _cache ∅ self st !! (name, channels) with
  | Some handlers => handlers
  | None => resolve st self name channels
  end.

(** The state after the cache lookup: a miss stores the resolved list. *)
Definition cache_filled (self : mid) (event : eid) (channels : list Channel)
    (st : State) : State :=
  let name := event_get e_name "" event st in
  match mgr_get _cache ∅ self st !! (name, channels) with
  | Some _ => st
  | None =>
      upd_mgr self
        (λ m, set_cache (<[(name, channels) := resolve st self name channels]>
                           (_cache m)) m) st
  end.

(** The world in which the loop of [_dispatcher] starts. *)
Definition loop_start (self : mid) (event : eid) (channels : list Channel)
    (w : World) : World :=
  mkWorld (cache_filled self event channels (w_state w))
    (w_log w ++ [Dispatch event channels]).

(** [reaches handlers error w rest error' w']: the loop started on
    [handlers] with the local [error] in world [w] comes to the top of the
    loop with [rest] still ahead, the local [error'] and the world [w']. *)
Inductive reaches (self : mid) (event : eid) (eargs : list PyVal)
    (ekwargs : list (string * PyVal))
    : list hid → option Exc → World → list hid → option Exc → World → Prop :=
| reaches_here handlers error w :
    reaches self event eargs ekwargs handlers error w handlers error w
| reaches_next handler handlers error w error1 w1 rest error' w' :
    dispatch_step self event eargs ekwargs handler error w
      = Ret (error1, false) w1 →
    reaches self event eargs ekwargs handlers error1 w1 rest error' w' →
    reaches self event eargs ekwargs (handler :: handlers) error w
      rest error' w'.

Definition invocations (event : eid) (eargs : list PyVal) (hs : list hid)
    : list Action :=
  (λ h, Invoke h event (call_args event eargs h)) <$> hs.

(** [key_ge a b]: the sort key of [a] is not below that of [b]. *)
Definition key_ge (a b : hid) : Prop := key_lt (hkey a) (hkey b) = false.

(** Every list in the cache of [self] is in descending key order. *)
Definition cache_sorted (self : mid) (st : State) : Prop :=
  ∀ key hs, mgr_get _cache ∅ self st !! key = Some hs →
            StronglySorted key_ge hs.

(** The sets the dispatcher resolves for the channels of an event, each
    iterated in the order the interpreter gives. *)
Definition resolved_chain (st : State) (self : mid) (name : string)
    (channels : list Channel) : list hid :=
  concat ((λ ch, handler_order (getHandlers st self name ch)) <$> channels).

Inductive TreeOp :=
| AddHandler (self : mid) (method : hid)
| RemoveHandler (self : mid) (method : hid) (event : option string)
| RegisterChild (self : mid) (component : mid)
| UnregisterChild (self : mid) (component : mid).

Definition run_op (op : TreeOp) : M unit :=
  match op with
  | AddHandler self method => addHandler self method
  | RemoveHandler self method event => removeHandler self method event
  | RegisterChild self component => registerChild self component
  | UnregisterChild self component => unregisterChild self component
  end.


(** The component tree below [self] is no higher than [d]. *)
Fixpoint within (d : nat) (st : State) (self : mid) : Prop :=
  match d with
  | 0 => mgr_get components ∅ self st = ∅
  | S d' => ∀ c, c ∈ mgr_get components ∅ self st → within d' st c
  end.

(** The relation between the states before and after: the links to the
    root are as they were. *)
Definition same_roots (st st' : State) : Prop :=
  ∀ m, root_of m st' = root_of m st.

(** [method] sits in the bucket of every one of [names], each name once:
    what the loop of [removeHandler] needs to run through. *)
Definition registered_under (self : mid) (method : hid) (names : list string)
    (st : State) : Prop :=
  NoDup names
  ∧ ∀ name, name ∈ names →
      ∃ bucket, mgr_get _handlers ∅ self st !! name = Some bucket
                ∧ method ∈ bucket.


Definition tasks_of (self : mid) (st : State) : gset Task :=
  mgr_get _tasks ∅ self st.

Definition waiting (event : eid) (st : State) : Z :=
  event_get waitingHandlers 0%Z event st.



(** The state after the [except StopIteration:] clause, before and after
    the test of the counter. *)
Definition task_exhausted_pre (self : mid) (event : eid) (task : gid)
    (parent : option gid) (st : State) : State :=
  let st1 := upd_mgr self (del_task (event, task, None)) st in
  let st2 := match parent with
             | Some p => upd_mgr self (add_task (event, p, None)) st1
             | None => st1
             end in
  upd_event event (bump (-1)) st2.

Definition task_exhausted_state (self : mid) (event : eid) (task : gid)
    (parent : option gid) (st : State) : State :=
  let st3 := task_exhausted_pre self event task parent st in
  if (waiting event st3 =? 0)%Z
  then eventDone_state self event None (upd_event_value event inform st3)
  else st3.

Definition not_running (self : mid) (st : State) : Prop :=
  mgr_get _running false self st = false.

(** A computation that leaves a stopped manager stopped. *)
Definition keeps_stopped (self : mid) {A} (c : M A) : Prop :=
  ∀ w, not_running self (w_state w) →
       match c w with
       | Ret _ w' | Raise _ w' => not_running self (w_state w')
       | OutOfFuel => True
       end.

(** A state change that touches no [_running] flag. *)
Definition flag_safe (f : State → State) : Prop :=
  ∀ self st, not_running self st → not_running self (f st).

(** The world in which the three ticks of [stop] start: the flag is down
    and Stopped(self) is in the queue of the root. *)
Definition stopping (self : mid) (w : World) : World :=
  mkWorld (created_fired self "Stopped" [PMgr self] []
             (upd_mgr self (set_running false) (w_state w)))
    (w_log w).

(** The buckets after [method] has been put under each of [names], as the
    loop of [addHandler] does it. *)
Definition buckets_with (method : hid) (names : list string)
    (buckets : gmap string (gset hid)) : gmap string (gset hid) :=
  foldl (λ b name, <[name := default ∅ (b !! name) ∪ {[method]}]> b)
    buckets names.

(** The entries whose dispatch a log records, in the order of the log. *)
Definition dispatched (log : list Action) : list (eid * list Channel) :=
  omap (λ a, match a with Dispatch e chs => Some (e, chs) | _ => None end) log.

(** What [addHandler] does to [self]: the handler goes to the globals, to
    the "*" bucket, or to the bucket of each of its names. *)
Definition with_handler (method : hid) (m : Manager) : Manager :=
  let names := h_names (hinfo method) in
  if negb (nonempty names) && bool_decide (h_channel (hinfo method) = CStr "*")
  then set_globals (_globals m ∪ {[method]}) m
  else if negb (nonempty names) then bucket_add "*" method m
  else set_handlers (buckets_with method names (_handlers m)) m.

(** The state [registerChild] leaves behind. *)
Definition child_registered (self component : mid) (st : State) : State :=
  let r := root_of self st in
  let moved := mgr_get _queue [] component st in
  let st3 :=
    upd_mgr component (set_queue [])
      (upd_mgr r (λ m, set_queue (_queue m ++ moved) m)
         (upd_mgr self
            (λ m, set_components (components m ∪ {[component]}) m) st)) in
  let st4 := upd_mgr r (set_cache ∅) st3 in
  upd_mgr r (set_ticks (getTicks st4 r)) st4.

(** The state [unregisterChild] leaves behind when it returns. *)
Definition child_unregistered (self component : mid) (st : State) : State :=
  let r := root_of self st in
  let st2 :=
    upd_mgr r (set_cache ∅)
      (upd_mgr self
         (λ m, set_components (components m ∖ {[component]}) m) st) in
  upd_mgr r (set_ticks (getTicks st2 r)) st2.

(** [leads_to st self p c]: going down from [self] through [components],
    by the nodes of [p] in turn, one arrives at [c]. *)
Fixpoint leads_to (st : State) (self : mid) (p : list mid) (c : mid) : Prop :=
  match p with
  | [] => c = self
  | k :: p' => k ∈ mgr_get components ∅ self st ∧ leads_to st k p' c
  end.

(** [c] is [self] or a component somewhere below it. *)
Definition in_subtree (st : State) (self c : mid) : Prop :=
  ∃ p, leads_to st self p c.

(** The recursion that [getHandlers] and [getTicks] share: what [own] gives
    at [self] and at the components below it, [depth] levels down. *)
Fixpoint collect {A} `{Countable A} (own : mid → gset A) (depth : nat)
    (st : State) (self : mid) : gset A :=
  own self ∪
  match depth with
  | 0 => ∅
  | S d => ⋃ ((λ c, collect own d st c) <$> elements (mgr_get components ∅ self st))
  end.

(** The state after the bare [except:] clause of [processTask]. *)
Definition task_failed_state (self : mid) (event : eid) (task : gid) (x : Exc)
    (st : State) : State :=
  let st1 :=
    upd_event_value event inform
      (upd_event_value event (set_v_errors true)
         (upd_event_value event (set_v_value PNone)
            (upd_mgr self (del_task (event, task, None)) st))) in
  let st2 :=
    if event_get e_failure false event st1
    then lifecycle_fired self event "Failure" (λ _, error_triple x) st1
    else st1 in
  created_fired self "Error" (error_args x [PObj 0]) [] st2.

(** No bucket of [m] is stored empty. *)
Definition buckets_nonempty (m : mid) (st : State) : Prop :=
  ∀ name bucket, mgr_get _handlers ∅ m st !! name = Some bucket → bucket ≠ ∅.

(** A computation that dispatches nothing: it adds no [Dispatch] to the
    log, however it ends. *)
Definition dispatches_nothing {A} (c : M A) : Prop :=
  ∀ w, match c w with
       | Ret _ w' | Raise _ w' => dispatched (w_log w') = dispatched (w_log w)
       | OutOfFuel => True
       end.

(** A computation that only adds to what the log records as dispatched. *)
Definition dispatches_more {A} (c : M A) : Prop :=
  ∀ w, match c w with
       | Ret _ w' | Raise _ w' =>
           ∃ more, dispatched (w_log w') = dispatched (w_log w) ++ more
       | OutOfFuel => True
       end.

(** ** Signals and the run loop *)

(** The numbers of the interrupt and termination signals, which the
    [signal] module of the platform defines. *)
Variable SIGINT SIGTERM : Z.


(** [try: body finally: final]: [final] runs however [body] has ended, and
    an exception of [final] replaces the one of [body]. *)
Definition try_finally {A} (body : M A) (final : M unit) : M A :=
  λ w, match body w with
       | Ret a w1 =>
           match final w1 with
           | Ret _ w2 => Ret a w2
           | Raise y w2 => Raise y w2
           | OutOfFuel => OutOfFuel
           end
       | Raise x w1 =>
           match final w1 with
           | Ret _ w2 => Raise x w2
           | Raise y w2 => Raise y w2
           | OutOfFuel => OutOfFuel
           end
       | OutOfFuel => OutOfFuel
       end.

(** [while self or self.running: self.tick()]; [rounds] bounds the number
    of rounds of the loop, which the source does not. *)
Fixpoint run_loop (rounds fuel : nat) (self : mid) : M unit :=
  match rounds with
  | 0 => λ _, OutOfFuel
  | S rounds =>
      let* q := gets (mgr_get _queue [] self) in
      let* running := gets (mgr_get _running false self) in
      if nonempty q || running
      then tick fuel self >> run_loop rounds fuel self
      else ret tt
  end.

(** [run].  The registrations with [atexit] and [signal] act on the
    interpreter, not on the manager, and are not modelled. *)
Definition run (rounds fuel : nat) (self : mid) : M unit :=
  modify (upd_mgr self (set_running true)) >>
  let* ev := create "Started" [PMgr self] in
  fire self ev [] >>
  try_finally (run_loop rounds fuel self) (tick fuel self).

(** The world in which the loop of [run] starts: the flag is up and
    Started(self) is in the queue of the root. *)
Definition starting (self : mid) (w : World) : World :=
  mkWorld (created_fired self "Started" [PMgr self] []
             (upd_mgr self (set_running true) (w_state w)))
    (w_log w).

(** * Properties *)

(** ** Evaluation of the monad *)

Ltac mred :=
  cbv beta iota delta [bind ret gets modify emit raise opaque] in *.

Lemma bind_ret_l {A B} (a : A) (k : A → M B) w : bind (ret a) k w = k a w.
Proof. reflexivity. Qed.

Lemma bind_assoc {A B C} (c : M A) (k : A → M B) (k' : B → M C) w :
  bind (bind c k) k' w = bind c (λ a, bind (k a) k') w.
Proof. unfold bind. by destruct (c w). Qed.

(** ** C4: [fire] *)

Lemma fireEvent_channels st self event channels :
  (if nonempty channels then channels
   else tuple_or (tuple_or (event_get e_channels [] event st)
                    [getattr_channel self (CStr "*") st]) [CStr "*"])
  = effective_channels st self event channels.
Proof.
  unfold effective_channels, tuple_or, getattr_channel, mgr_get.
  destruct channels as [|c cs]; simpl; [|done].
  destruct (event_get e_channels [] event st) as [|c cs]; simpl; [|done].
  destruct (st_mgrs st !! self) as [m|]; simpl; [|done].
  by destruct (channel m).
Qed.

Ltac heap_unfold :=
  unfold upd_mgr, upd_event, upd_value, alloc_value, alloc_event, root_of,
    event_get, mgr_get in *; simpl in *.

Lemma fire_run (self : mid) (event : eid) (channels : list Channel) (w : World) :
  fire self event channels w
  = Ret (length (st_values (w_state w)))
      (mkWorld (fired self event channels (w_state w)) (w_log w)).
Proof.
  destruct w as [st log]. unfold fire, fireEvent, fired, _fire. simpl.
  rewrite <- (fireEvent_channels st self event channels).
  assert (Hret : ∀ st0 : State,
    default (length (st_values st))
      (event_get e_value None event
         (upd_event event (set_value (Some (length (st_values st)))) st0))
    = length (st_values st)).
  { intros st0. heap_unfold. rewrite list_lookup_alter_eq.
    by destruct (st_events st0 !! event). }
  assert (Hnotify : ∀ c, event_get e_notify false event
            (upd_event event (set_channels c) st)
          = event_get e_notify false event st).
  { intros c. heap_unfold. rewrite list_lookup_alter_eq.
    by destruct (st_events st !! event). }
  destruct (nonempty channels) eqn:Hne; mred; simpl in *.
  - rewrite Hnotify. f_equal.
    + heap_unfold. rewrite !list_lookup_alter_eq.
      by destruct (st_events st !! event).
    + f_equal. heap_unfold. by rewrite list_alter_alter_eq.
  - rewrite Hnotify. f_equal.
    + heap_unfold. rewrite !list_lookup_alter_eq.
      by destruct (st_events st !! event).
    + f_equal. heap_unfold. by rewrite list_alter_alter_eq.
Qed.

(** C4. [fire(event, *channels)] resolves the channels as explicit argument,
    else the event's own, else the firing component's, else ("*",); it
    allocates a fresh Value bound to the event, appends exactly one
    [(event, channels)] entry to the queue of the root and leaves every
    other manager (the caller included, when it is not the root) as it was,
    returns that Value, and calls no opaque code: the log is unchanged. *)
Theorem fire_enqueues_on_root (self : mid) (event : eid)
    (channels : list Channel) (w : World) :
  let st := w_state w in
  let r := root_of self st in
  let chs := effective_channels st self event channels in
  let v := length (st_values st) in
  is_Some (st_mgrs st !! r) →
  ∃ st',
    fire self event channels w = Ret v (mkWorld st' (w_log w))
    ∧ st_values st !! v = None
    ∧ st_values st' = st_values st
        ++ [mkValue event self (event_get e_notify false event st)
              PNone false false 0]
    ∧ mgr_get _queue [] r st' = mgr_get _queue [] r st ++ [(event, chs)]
    ∧ (∀ m, m ≠ r → st_mgrs st' !! m = st_mgrs st !! m)
    ∧ st_events st' !! event
        = (λ e, set_value (Some v) (set_channels chs e)) <$> st_events st !! event
    ∧ (∀ e, e ≠ event → st_events st' !! e = st_events st !! e)
    ∧ st_user st' = st_user st.
Proof.
  intros st r chs v [mr Hr].
  exists (fired self event channels st). rewrite fire_run.
  split; [done|]. unfold fired. fold r chs v.
  split; [by apply lookup_ge_None_2|].
  split; [done|].
  split.
  { unfold mgr_get, upd_mgr; simpl.
    by rewrite list_lookup_alter_eq, Hr. }
  split.
  { intros m Hm. unfold upd_mgr; simpl. by rewrite list_lookup_alter_ne. }
  split.
  { unfold upd_mgr, upd_event; simpl. by rewrite list_lookup_alter_eq. }
  split; [|done].
  intros e He. unfold upd_mgr, upd_event; simpl.
  by rewrite list_lookup_alter_ne.
Qed.

(** ** Closed forms of the small steps *)

Lemma create_run cls args w :
  create cls args w
  = Ret (length (st_events (w_state w)))
      (mkWorld (alloc_event (new_event cls args) (w_state w)) (w_log w)).
Proof. reflexivity. Qed.

Lemma event_get_alloc_event {A} (f : Event → A) d e ev st :
  is_Some (st_events st !! e) →
  event_get f d e (alloc_event ev st) = event_get f d e st.
Proof.
  intros [x Hx]. unfold event_get, alloc_event; simpl.
  by rewrite (lookup_app_l_Some _ _ _ _ Hx), Hx.
Qed.

Lemma fire_lifecycle_run self event kind x w :
  is_Some (st_events (w_state w) !! event) →
  fire_lifecycle self event kind x w
  = Ret tt (mkWorld (lifecycle_fired self event kind x (w_state w)) (w_log w)).
Proof.
  intros He. unfold fire_lifecycle, lifecycle_fired, created_fired.
  unfold bind at 1. unfold gets at 1. unfold bind at 1. unfold gets at 1.
  unfold bind at 1. rewrite create_run. unfold bind at 1. unfold gets at 1.
  unfold bind at 1. rewrite fire_run. simpl.
  by rewrite event_get_alloc_event.
Qed.

Lemma fired_mgrs self e chs st m :
  st_mgrs (fired self e chs st) !! m
  = if decide (root_of self st = m)
    then enqueue (e, effective_channels st self e chs) <$> st_mgrs st !! m
    else st_mgrs st !! m.
Proof.
  unfold fired, upd_mgr; simpl. case_decide as Hm.
  - subst m. by rewrite list_lookup_alter_eq.
  - by rewrite list_lookup_alter_ne.
Qed.

Lemma fired_events self e chs st e' :
  st_events (fired self e chs st) !! e'
  = if decide (e = e')
    then (λ ev, set_value (Some (length (st_values st)))
                  (set_channels (effective_channels st self e chs) ev))
           <$> st_events st !! e'
    else st_events st !! e'.
Proof.
  unfold fired, upd_mgr, upd_event; simpl. case_decide as He.
  - subst e'. by rewrite list_lookup_alter_eq.
  - by rewrite list_lookup_alter_ne.
Qed.

Lemma fired_values self e chs st :
  st_values (fired self e chs st)
  = st_values st
      ++ [mkValue e self (event_get e_notify false e st) PNone false false 0].
Proof. reflexivity. Qed.

Lemma fired_user self e chs st : st_user (fired self e chs st) = st_user st.
Proof. reflexivity. Qed.

Lemma root_of_fired self e chs st m :
  root_of m (fired self e chs st) = root_of m st.
Proof.
  unfold root_of, mgr_get. rewrite fired_mgrs.
  case_decide; [|done]. by destruct (st_mgrs st !! m).
Qed.

Lemma created_effective_channels self cls args chs st :
  effective_channels (alloc_event (new_event cls args) st) self
    (length (st_events st)) chs
  = created_channels self chs st.
Proof.
  unfold effective_channels, created_channels.
  destruct chs; [|done].
  unfold event_get, alloc_event; simpl.
  by rewrite lookup_app_r, Nat.sub_diag by lia.
Qed.

Lemma created_fired_mgrs self cls args chs st m :
  st_mgrs (created_fired self cls args chs st) !! m
  = if decide (root_of self st = m)
    then enqueue (length (st_events st), created_channels self chs st)
           <$> st_mgrs st !! m
    else st_mgrs st !! m.
Proof.
  unfold created_fired. rewrite fired_mgrs.
  change (root_of self (alloc_event _ st)) with (root_of self st).
  change (st_mgrs (alloc_event _ st)) with (st_mgrs st).
  case_decide; [|done]. by rewrite created_effective_channels.
Qed.

Lemma created_fired_events_old self cls args chs st e :
  e < length (st_events st) →
  st_events (created_fired self cls args chs st) !! e = st_events st !! e.
Proof.
  intros He. unfold created_fired. rewrite fired_events.
  case_decide; [lia|]. unfold alloc_event; simpl.
  by rewrite lookup_app_l.
Qed.

Lemma created_fired_events_new self cls args chs st :
  st_events (created_fired self cls args chs st) !! length (st_events st)
  = Some (set_value (Some (length (st_values st)))
            (set_channels (created_channels self chs st) (new_event cls args))).
Proof.
  unfold created_fired. rewrite fired_events.
  case_decide; [|done]. rewrite created_effective_channels.
  unfold alloc_event; simpl.
  by rewrite lookup_app_r, Nat.sub_diag by lia.
Qed.

Lemma created_fired_events_length self cls args chs st :
  length (st_events (created_fired self cls args chs st))
  = S (length (st_events st)).
Proof.
  unfold created_fired, fired, upd_mgr, upd_event, alloc_value, alloc_event.
  simpl. rewrite length_alter, length_app. simpl. lia.
Qed.

Lemma created_fired_values self cls args chs st :
  st_values (created_fired self cls args chs st)
  = st_values st ++ [mkValue (length (st_events st)) self false PNone false false 0].
Proof.
  unfold created_fired. rewrite fired_values. do 3 f_equal.
  unfold event_get, alloc_event; simpl.
  by rewrite lookup_app_r, Nat.sub_diag by lia.
Qed.

Lemma created_fired_user self cls args chs st :
  st_user (created_fired self cls args chs st) = st_user st.
Proof. reflexivity. Qed.

Lemma event_get_created_fired {A} (f : Event → A) d self cls args chs st e :
  is_Some (st_events st !! e) →
  event_get f d e (created_fired self cls args chs st) = event_get f d e st.
Proof.
  intros He. unfold event_get.
  by rewrite created_fired_events_old by by apply lookup_lt_is_Some.
Qed.

Lemma root_of_created_fired self cls args chs st m :
  root_of m (created_fired self cls args chs st) = root_of m st.
Proof. unfold created_fired. by rewrite root_of_fired. Qed.

Lemma mgr_get_created_fired {A} (f : Manager → A) d self cls args chs st m :
  (∀ entry mm, f (enqueue entry mm) = f mm) →
  mgr_get f d m (created_fired self cls args chs st) = mgr_get f d m st.
Proof.
  intros Hf. unfold mgr_get. rewrite created_fired_mgrs.
  case_decide; [|done]. destruct (st_mgrs st !! m); simpl; [|done].
  apply Hf.
Qed.

Lemma lifecycle_fired_mgrs self event kind x st m :
  st_mgrs (lifecycle_fired self event kind x st) !! m
  = if decide (root_of self st = m)
    then enqueue (length (st_events st), lifecycle_channels self event st)
           <$> st_mgrs st !! m
    else st_mgrs st !! m.
Proof. apply created_fired_mgrs. Qed.

Lemma lifecycle_fired_events_old self event kind x st e :
  e < length (st_events st) →
  st_events (lifecycle_fired self event kind x st) !! e = st_events st !! e.
Proof. apply created_fired_events_old. Qed.

Lemma lifecycle_fired_events_new self event kind x st :
  st_events (lifecycle_fired self event kind x st) !! length (st_events st)
  = Some (set_value (Some (length (st_values st)))
            (set_channels (lifecycle_channels self event st)
               (new_event (event_get e_class "" event st +:+ kind)
                  [PEvent event; x st]))).
Proof. apply created_fired_events_new. Qed.

Lemma lifecycle_fired_events_length self event kind x st :
  length (st_events (lifecycle_fired self event kind x st))
  = S (length (st_events st)).
Proof. apply created_fired_events_length. Qed.

Lemma event_get_lifecycle_fired {A} (f : Event → A) d self event kind x st e :
  is_Some (st_events st !! e) →
  event_get f d e (lifecycle_fired self event kind x st) = event_get f d e st.
Proof. apply event_get_created_fired. Qed.

Lemma root_of_lifecycle_fired self event kind x st m :
  root_of m (lifecycle_fired self event kind x st) = root_of m st.
Proof. apply root_of_created_fired. Qed.

Lemma _eventDone_run self event error w :
  is_Some (st_events (w_state w) !! event) →
  _eventDone self event error w
  = Ret tt (mkWorld (eventDone_state self event error (w_state w))
              (w_log w ++ [EventDone event (bool_decide (error ≠ None))])).
Proof.
  intros He. destruct w as [st log]. cbn [w_state w_log] in *.
  unfold _eventDone, eventDone_state.
  unfold bind at 1, emit at 1. unfold bind at 1, gets at 1.
  cbn [w_state w_log].
  destruct (negb _); [done|].
  unfold bind at 1, gets at 1. cbn [w_state w_log]. unfold bind at 1.
  destruct (event_get e_alert_done false event st).
  - rewrite fire_lifecycle_run by done. cbn [w_state w_log].
    unfold bind at 1, gets at 1. cbn [w_state w_log].
    rewrite event_get_lifecycle_fired by done.
    destruct (_ && _); [|done].
    rewrite fire_lifecycle_run; [done|]. cbn [w_state w_log].
    rewrite lifecycle_fired_events_old; [done|by apply lookup_lt_is_Some].
  - unfold ret at 1. unfold bind at 1, gets at 1. cbn [w_state w_log].
    destruct (_ && _); [|done].
    by rewrite fire_lifecycle_run.
Qed.

(** ** C2: the completion gate *)

Lemma queue_of_lifecycle_fired self event kind x st :
  is_Some (st_mgrs st !! root_of self st) →
  queue_of (root_of self st) (lifecycle_fired self event kind x st)
  = queue_of (root_of self st) st
      ++ [(length (st_events st), lifecycle_channels self event st)].
Proof.
  intros [m Hm]. unfold queue_of, mgr_get.
  rewrite lifecycle_fired_mgrs. case_decide; [|done]. by rewrite Hm.
Qed.

Lemma class_of_lifecycle_fired self event kind x st :
  event_get e_class "" (length (st_events st))
    (lifecycle_fired self event kind x st)
  = event_get e_class "" event st +:+ kind.
Proof. unfold event_get at 1. by rewrite lifecycle_fired_events_new. Qed.

(** What [_eventDone] does, as the gate it is: nothing while handlers are
    still waiting; else one Done event when [alert_done] is set, followed by
    one Success event when the caller passed no error and [success] is set. *)
Lemma eventDone_gate (self : mid) (event : eid) (error : option Exc)
    (w : World) :
  let st := w_state w in
  let r := root_of self st in
  let cls := event_get e_class "" event st in
  is_Some (st_events st !! event) →
  is_Some (st_mgrs st !! r) →
  ∃ st',
    _eventDone self event error w
    = Ret tt (mkWorld st'
                (w_log w ++ [EventDone event (bool_decide (error ≠ None))]))
    ∧ (event_get waitingHandlers 0%Z event st ≠ 0%Z → st' = st)
    ∧ (event_get waitingHandlers 0%Z event st = 0%Z →
       ∃ new,
         queue_of r st' = queue_of r st ++ new
         ∧ entry_classes st' new
           = (if event_get e_alert_done false event st
              then [cls +:+ "Done"] else [])
             ++ (if bool_decide (error = None)
                    && event_get e_success false event st
                 then [cls +:+ "Success"] else [])).
Proof.
  intros st r cls He Hr. subst r.
  eexists. split; [by apply _eventDone_run|].
  fold st. unfold eventDone_state. split.
  - intros Hw. by rewrite (proj2 (Z.eqb_neq _ _) Hw).
  - intros Hw. rewrite Hw. cbn [Z.eqb negb].
    destruct (event_get e_alert_done false event st) eqn:Ha;
      destruct (bool_decide (error = None) && event_get e_success false event st)
        eqn:Hs.
    + eexists [_; _]. split.
      * rewrite <- (root_of_lifecycle_fired self event "Done"
                      (event_value event) st self) at 1.
        rewrite queue_of_lifecycle_fired.
        2:{ rewrite root_of_lifecycle_fired, lifecycle_fired_mgrs.
            case_decide; [by apply fmap_is_Some|done]. }
        rewrite root_of_lifecycle_fired.
        rewrite queue_of_lifecycle_fired by done.
        by rewrite <- app_assoc.
      * unfold entry_classes. cbn [fmap list_fmap fst app]. f_equal; [|f_equal].
        -- rewrite event_get_lifecycle_fired.
           ++ by rewrite class_of_lifecycle_fired.
           ++ apply lookup_lt_is_Some. rewrite lifecycle_fired_events_length. lia.
        -- rewrite class_of_lifecycle_fired.
           by rewrite event_get_lifecycle_fired.
    + eexists [_]. split.
      * by rewrite queue_of_lifecycle_fired.
      * unfold entry_classes. cbn [fmap list_fmap fst app]. by rewrite class_of_lifecycle_fired.
    + eexists [_]. split.
      * by rewrite queue_of_lifecycle_fired.
      * unfold entry_classes. cbn [fmap list_fmap fst app]. by rewrite class_of_lifecycle_fired.
    + exists []. split; [by rewrite app_nil_r|done].
Qed.

(** ** The loop body, in closed form *)

Lemma handler_returned_run self event value w :
  handler_returned self event value w
  = Ret tt (mkWorld (handler_returned_state self event value (w_state w))
              (w_log w)).
Proof.
  destruct w as [st log].
  unfold handler_returned, handler_returned_state, registerTask.
  destruct (as_generator value); [done|].
  by destruct (is_not_None value).
Qed.

Lemma upd_event_value_events event f st :
  st_events (upd_event_value event f st) = st_events st.
Proof. unfold upd_event_value. by destruct (event_get _ _ _ _). Qed.

Lemma upd_event_value_mgrs event f st :
  st_mgrs (upd_event_value event f st) = st_mgrs st.
Proof. unfold upd_event_value. by destruct (event_get _ _ _ _). Qed.

Lemma upd_event_value_user event f st :
  st_user (upd_event_value event f st) = st_user st.
Proof. unfold upd_event_value. by destruct (event_get _ _ _ _). Qed.

Lemma handler_failed_run self event handler x w :
  is_Some (st_events (w_state w) !! event) →
  handler_failed self event handler x w
  = Ret (error_triple x)
      (mkWorld (handler_failed_state self event handler x (w_state w))
         (w_log w)).
Proof.
  intros He. destruct w as [st log]. cbn [w_state w_log] in *.
  unfold handler_failed, handler_failed_state.
  unfold bind at 1, modify at 1. unfold bind at 1, gets at 1.
  cbn [w_state w_log]. unfold bind at 1.
  destruct (event_get e_failure false event _).
  - rewrite fire_lifecycle_run
      by (cbn [w_state]; by rewrite upd_event_value_events).
    cbn [w_state w_log]. unfold bind at 1. rewrite create_run.
    unfold bind at 1. by rewrite fire_run.
  - unfold ret at 1. unfold bind at 1. rewrite create_run.
    unfold bind at 1. by rewrite fire_run.
Qed.

Lemma dispatch_step_returns self event eargs ekwargs handler error w value st1 :
  handler_run event eargs ekwargs handler (w_state w) = (Returns value, st1) →
  let st' := handler_returned_state self event value st1 in
  dispatch_step self event eargs ekwargs handler error w
  = Ret (error, truthy st' value && h_filter (hinfo handler))
      (mkWorld st' (w_log w ++ [Invoke handler event
                                  (call_args event eargs handler)])).
Proof.
  intros Hrun st'. destruct w as [st log]. cbn [w_state w_log] in *.
  unfold dispatch_step, handler_run, before_call, call_args in *.
  unfold bind at 1, modify at 1. unfold bind at 1, emit at 1.
  unfold bind at 1, opaque at 1. cbn [w_state w_log].
  rewrite Hrun. unfold bind at 1, ret at 1. cbn [fst snd].
  unfold bind at 1. by rewrite handler_returned_run.
Qed.


Lemma truthy_error_triple st x : truthy st (error_triple x) = true.
Proof. reflexivity. Qed.

Lemma dispatch_step_caught self event eargs ekwargs handler error w x st1 :
  handler_run event eargs ekwargs handler (w_state w) = (Raises x, st1) →
  host_fatal x = false →
  is_Some (st_events st1 !! event) →
  let st' := upd_event_value event (set_v_value (error_triple x))
               (handler_failed_state self event handler x st1) in
  dispatch_step self event eargs ekwargs handler error w
  = Ret (Some x, h_filter (hinfo handler))
      (mkWorld st' (w_log w ++ [Invoke handler event
                                  (call_args event eargs handler)])).
Proof.
  intros Hrun Hx He st'. destruct w as [st log]. cbn [w_state w_log] in *.
  unfold dispatch_step, handler_run, before_call, call_args in *.
  unfold bind at 1, modify at 1. unfold bind at 1, emit at 1.
  unfold bind at 1, opaque at 1. cbn [w_state w_log].
  rewrite Hrun. unfold bind at 1. rewrite Hx. unfold bind at 1.
  rewrite handler_failed_run by done. cbn [w_state w_log].
  unfold ret at 1. cbn [fst snd]. unfold bind at 1.
  by rewrite handler_returned_run.
Qed.

(** ** Computations that always return, and computations that let only
    host-fatal exceptions escape *)

Lemma total_ret {A} (a : A) : total (ret a).
Proof. intros w. by eexists _, _. Qed.

Lemma total_gets {A} (f : State → A) : total (gets f).
Proof. intros w. by eexists _, _. Qed.

Lemma total_modify f : total (modify f).
Proof. intros w. by eexists _, _. Qed.

Lemma total_emit a : total (emit a).
Proof. intros w. by eexists _, _. Qed.

Lemma total_opaque {A} (f : State → A * State) : total (opaque f).
Proof. intros w. unfold opaque. destruct (f (w_state w)). by eexists _, _. Qed.

Lemma total_bind {A B} (c : M A) (k : A → M B) :
  total c → (∀ a, total (k a)) → total (bind c k).
Proof.
  intros Hc Hk w. destruct (Hc w) as (a & w' & Hw).
  unfold bind. rewrite Hw. apply Hk.
Qed.

Lemma total_fire self event channels : total (fire self event channels).
Proof. intros w. rewrite fire_run. by eexists _, _. Qed.

Lemma total_create cls args : total (create cls args).
Proof. intros w. rewrite create_run. by eexists _, _. Qed.

Ltac total_step :=
  first
    [ apply total_ret | apply total_gets | apply total_modify
    | apply total_emit | apply total_opaque | apply total_fire
    | apply total_create
    | apply total_bind; [|intros ?]
    | match goal with
      | |- total (if ?b then _ else _) => destruct b
      | |- total (match ?o with Some _ => _ | None => _ end) => destruct o
      end ].

Ltac solve_total := repeat total_step.

Lemma total_fire_lifecycle self event kind x :
  total (fire_lifecycle self event kind x).
Proof. unfold fire_lifecycle. solve_total. Qed.

Lemma total__eventDone self event error : total (_eventDone self event error).
Proof.
  unfold _eventDone. solve_total.
Qed.

Lemma total_handler_failed self event handler x :
  total (handler_failed self event handler x).
Proof. unfold handler_failed. solve_total. Qed.

Lemma total_handler_returned self event value :
  total (handler_returned self event value).
Proof. intros w. rewrite handler_returned_run. by eexists _, _. Qed.

Lemma total_task_exhausted self event task parent :
  total (task_exhausted self event task parent).
Proof.
  unfold task_exhausted, unregisterTask, registerTask.
  solve_total.
Qed.

Lemma total_task_failed self event task x :
  total (task_failed self event task x).
Proof.
  unfold task_failed, unregisterTask. solve_total.
Qed.

Lemma total_task_spawned self event task value :
  total (task_spawned self event task value).
Proof. unfold task_spawned, unregisterTask, registerTask. solve_total. Qed.

Lemma rof_total {A} (c : M A) : total c → raises_only_fatal c.
Proof.
  intros Hc w x w' Hw. destruct (Hc w) as (a & w'' & Hw'). congruence.
Qed.

Lemma rof_bind {A B} (c : M A) (k : A → M B) :
  raises_only_fatal c → (∀ a, raises_only_fatal (k a)) →
  raises_only_fatal (bind c k).
Proof.
  intros Hc Hk w x w' Hw. unfold bind in Hw.
  destruct (c w) as [a w1|x1 w1|] eqn:Hcw.
  - by eapply Hk.
  - inversion Hw; subst. by eapply Hc.
  - done.
Qed.

Lemma rof_raise_fatal {A} x : host_fatal x = true → raises_only_fatal (@raise A x).
Proof. intros Hx w x' w' Hw. inversion Hw. by subst. Qed.

Lemma rof_dispatch_step self event eargs ekwargs handler error :
  raises_only_fatal (dispatch_step self event eargs ekwargs handler error).
Proof.
  unfold dispatch_step.
  apply rof_bind; [apply rof_total, total_modify|intros _].
  apply rof_bind; [apply rof_total, total_emit|intros _].
  apply rof_bind; [apply rof_total, total_opaque|intros outcome].
  apply rof_bind.
  - destruct outcome as [v|x]; [apply rof_total, total_ret|].
    destruct (host_fatal x) eqn:Hx; [by apply rof_raise_fatal|].
    apply rof_total, total_bind; [apply total_handler_failed|intros ?].
    apply total_ret.
  - intros ve. apply rof_total. solve_total; apply total_handler_returned.
Qed.

Lemma rof_dispatch_loop self event eargs ekwargs handlers error :
  raises_only_fatal (dispatch_loop self event eargs ekwargs handlers error).
Proof.
  revert error. induction handlers as [|h rest IH]; intros error; simpl.
  - apply rof_total, total_ret.
  - apply rof_bind; [apply rof_dispatch_step|intros r].
    destruct r.2; [apply rof_total, total_ret|apply IH].
Qed.

Lemma rof__dispatcher self event channels :
  raises_only_fatal (_dispatcher self event channels).
Proof.
  unfold _dispatcher.
  apply rof_bind; [apply rof_total, total_emit|intros _].
  apply rof_bind; [apply rof_total, total_gets|intros eargs].
  apply rof_bind; [apply rof_total, total_gets|intros ekwargs].
  apply rof_bind; [apply rof_total, total_gets|intros name].
  apply rof_bind; [apply rof_total, total_gets|intros cached].
  apply rof_bind; [apply rof_total; solve_total|intros handlers].
  apply rof_bind; [apply rof_dispatch_loop|intros error].
  apply rof_total, total__eventDone.
Qed.

Lemma rof_dispatch_all self q : raises_only_fatal (dispatch_all self q).
Proof.
  induction q as [|[event channels] q IH]; simpl.
  - apply rof_total, total_ret.
  - apply rof_bind; [apply rof__dispatcher|by intros _].
Qed.

Lemma rof__flush self : raises_only_fatal (_flush self).
Proof.
  unfold _flush.
  apply rof_bind; [apply rof_total, total_gets|intros q].
  apply rof_bind; [apply rof_total, total_modify|intros _].
  apply rof_dispatch_all.
Qed.

Lemma rof_flush self : raises_only_fatal (flush self).
Proof.
  unfold flush, flushEvents.
  apply rof_bind; [apply rof_total, total_gets|intros r].
  apply rof__flush.
Qed.

Lemma rof_run_ticks self fs : raises_only_fatal (run_ticks self fs).
Proof.
  induction fs as [|f fs IH]; simpl.
  - apply rof_total, total_ret.
  - apply rof_bind; [apply rof_total, total_emit|intros _].
    apply rof_bind; [apply rof_total, total_opaque|intros outcome].
    apply rof_bind; [|by intros _].
    destruct outcome as [v|x]; [apply rof_total, total_ret|].
    destruct (host_fatal x) eqn:Hx; [by apply rof_raise_fatal|].
    apply rof_total. solve_total.
Qed.

(** [processTask] catches everything: it lets no exception escape. *)
Lemma processTask_never_raises fuel self event task parent w x w' :
  processTask fuel self event task parent w ≠ Raise x w'.
Proof.
  revert task parent w.
  induction fuel as [|fuel IH]; intros task parent w; [done|]. simpl.
  unfold bind at 1, emit at 1. unfold bind at 1, opaque at 1.
  cbn [w_state w_log]. destruct (gen_next task _) as [out st1].
  destruct out as [value|x0].
  - destruct (as_generator value) as [g|].
    + unfold bind at 1.
      destruct (total_task_spawned self event task g
                  (mkWorld st1 (w_log w ++ [Advance event task])))
        as (a & w1 & ->).
      apply IH.
    + destruct (is_not_None value); done.
  - destruct (exc_type x0).
    4: { destruct (total_task_failed self event task x0
                (mkWorld st1 (w_log w ++ [Advance event task])))
           as (a & w1 & ->). done. }
    3: { destruct (total_task_exhausted self event task parent
                (mkWorld st1 (w_log w ++ [Advance event task])))
           as (a & w1 & ->). done. }
    all: destruct (total_task_failed self event task x0
                (mkWorld st1 (w_log w ++ [Advance event task])))
           as (a & w1 & ->); done.
Qed.

Lemma rof_processTask fuel self event task parent :
  raises_only_fatal (processTask fuel self event task parent).
Proof. intros w x w' Hw. by apply processTask_never_raises in Hw. Qed.

Lemma rof_run_tasks fuel self ts : raises_only_fatal (run_tasks fuel self ts).
Proof.
  induction ts as [|[[event task] parent] ts IH]; simpl.
  - apply rof_total, total_ret.
  - apply rof_bind; [apply rof_processTask|by intros _].
Qed.

Lemma rof_tick fuel self : raises_only_fatal (tick fuel self).
Proof.
  unfold tick.
  apply rof_bind; [apply rof_total, total_gets|intros fs].
  apply rof_bind; [apply rof_run_ticks|intros _].
  apply rof_bind; [apply rof_total, total_gets|intros ts].
  apply rof_bind; [apply rof_run_tasks|intros _].
  apply rof_bind; [apply rof_total, total_gets|intros q].
  destruct (nonempty q); [apply rof_flush|apply rof_total, total_emit].
Qed.

(** ** Computations that always return and leave the log alone *)

Lemma quiet_total {A} (c : M A) : quiet c → total c.
Proof. intros Hc w. destruct (Hc w) as (a & st' & ->). by eexists _, _. Qed.

Lemma quiet_ret {A} (a : A) : quiet (ret a).
Proof. intros [st log]. by eexists _, _. Qed.

Lemma quiet_gets {A} (f : State → A) : quiet (gets f).
Proof. intros [st log]. by eexists _, _. Qed.

Lemma quiet_modify f : quiet (modify f).
Proof. intros w. by eexists _, _. Qed.

Lemma quiet_opaque {A} (f : State → A * State) : quiet (opaque f).
Proof. intros w. unfold opaque. destruct (f (w_state w)). by eexists _, _. Qed.

Lemma quiet_bind {A B} (c : M A) (k : A → M B) :
  quiet c → (∀ a, quiet (k a)) → quiet (bind c k).
Proof.
  intros Hc Hk w. destruct (Hc w) as (a & st' & Hw).
  unfold bind. rewrite Hw.
  destruct (Hk a (mkWorld st' (w_log w))) as (b & st'' & ->).
  by eexists _, _.
Qed.

Lemma quiet_fire self event channels : quiet (fire self event channels).
Proof. intros w. rewrite fire_run. by eexists _, _. Qed.

Lemma quiet_create cls args : quiet (create cls args).
Proof. intros w. rewrite create_run. by eexists _, _. Qed.

Ltac quiet_step :=
  first
    [ apply quiet_ret | apply quiet_gets | apply quiet_modify
    | apply quiet_opaque | apply quiet_fire | apply quiet_create
    | apply quiet_bind; [|intros ?]
    | match goal with
      | |- quiet (if ?b then _ else _) => destruct b
      | |- quiet (match ?o with Some _ => _ | None => _ end) => destruct o
      end ].

Ltac solve_quiet := repeat quiet_step.

Lemma quiet_fire_lifecycle self event kind x :
  quiet (fire_lifecycle self event kind x).
Proof. unfold fire_lifecycle. solve_quiet. Qed.

Lemma quiet_handler_returned self event value :
  quiet (handler_returned self event value).
Proof. intros w. rewrite handler_returned_run. by eexists _, _. Qed.

Lemma handler_failed_result self event handler x w :
  ∃ st', handler_failed self event handler x w
         = Ret (error_triple x) (mkWorld st' (w_log w)).
Proof.
  unfold handler_failed.
  assert (Hq : quiet (
    modify (upd_event_value event (set_v_errors true)) >>
    let* failure := gets (event_get e_failure false event) in
    (if failure
     then fire_lifecycle self event "Failure" (λ _, error_triple x)
     else ret tt) >>
    let* err := create "Error" [PExcType (exc_type x); PObj (exc_value x);
                                PList (PStr <$> exc_traceback x);
                                PHandler handler] in
    fire self err [])).
  { solve_quiet. }
  destruct (Hq w) as (a & st' & Hw). exists st'.
  revert Hw. unfold bind, modify, gets. cbn [w_state w_log].
  repeat match goal with
         | |- context [match ?c ?w with _ => _ end] => destruct (c w)
         | |- context [if ?b then _ else _] => destruct b
         end; intros Hw; try done; by inversion Hw.
Qed.

(** What a [_eventDone] call adds to the log. *)
Lemma _eventDone_log self event error w :
  ∃ st', _eventDone self event error w
         = Ret tt (mkWorld st'
                     (w_log w ++ [EventDone event (bool_decide (error ≠ None))])).
Proof.
  unfold _eventDone. unfold bind at 1, emit at 1.
  set (w1 := mkWorld _ _).
  assert (Hq : quiet (
    let* waiting := gets (event_get waitingHandlers 0%Z event) in
    if negb (waiting =? 0)%Z then ret tt
    else
      let* alert_done := gets (event_get e_alert_done false event) in
      (if alert_done
       then fire_lifecycle self event "Done" (event_value event)
       else ret tt) >>
      let* success := gets (event_get e_success false event) in
      if bool_decide (error = None) && success
      then fire_lifecycle self event "Success" (event_value event)
      else ret tt)).
  { solve_quiet; apply quiet_fire_lifecycle. }
  destruct (Hq w1) as ([] & st' & ->). by exists st'.
Qed.

(** What one round of the loop adds to the log: the call of the handler. *)
Lemma dispatch_step_log self event eargs ekwargs handler error w :
  match dispatch_step self event eargs ekwargs handler error w with
  | Ret _ w' | Raise _ w' =>
      w_log w' = w_log w ++ [Invoke handler event (call_args event eargs handler)]
  | OutOfFuel => False
  end.
Proof.
  unfold dispatch_step. unfold bind at 1, modify at 1.
  unfold bind at 1, emit at 1. unfold bind at 1, opaque at 1.
  cbn [w_state w_log]. destruct (call_handler _ _ _ _) as [outcome st1].
  fold (call_args event eargs handler).
  set (log1 := w_log w ++ _). unfold bind at 1.
  assert (Hrest : ∀ (ve : PyVal * option Exc) st2,
    match (handler_returned self event ve.1 >>
           let* stop := gets (λ st, truthy st ve.1 && h_filter (hinfo handler)) in
           ret (ve.2, stop)) (mkWorld st2 log1) with
    | Ret _ w' | Raise _ w' => w_log w' = log1
    | OutOfFuel => False
    end).
  { intros ve st2. unfold bind at 1. by rewrite handler_returned_run. }
  destruct outcome as [value|x].
  - unfold ret at 1. apply Hrest.
  - destruct (host_fatal x); [done|]. unfold bind at 1.
    destruct (handler_failed_result self event handler x (mkWorld st1 log1))
      as (st2 & ->).
    unfold ret at 1. apply Hrest.
Qed.

(** ** The dispatcher as a whole *)

Lemma _dispatcher_run self event channels w :
  let st := w_state w in
  _dispatcher self event channels w
  = bind (dispatch_loop self event (event_get e_args [] event st)
            (event_get e_kwargs [] event st)
            (handlers_for self event channels st) None)
      (_eventDone self event) (loop_start self event channels w).
Proof.
  destruct w as [st log]. cbn [w_state].
  unfold _dispatcher, handlers_for, loop_start, cache_filled.
  unfold bind at 1, emit at 1. unfold bind at 1, gets at 1.
  unfold bind at 1, gets at 1. unfold bind at 1, gets at 1.
  unfold bind at 1, gets at 1. cbn [w_state w_log].
  unfold bind at 1.
  by destruct (mgr_get _cache ∅ self st !! _).
Qed.

Lemma reaches_loop self event eargs ekwargs handlers error w rest error' w' :
  reaches self event eargs ekwargs handlers error w rest error' w' →
  dispatch_loop self event eargs ekwargs handlers error w
  = dispatch_loop self event eargs ekwargs rest error' w'.
Proof.
  induction 1 as [|h l e w e1 w1 rest e' w' Hstep _ IH]; [done|].
  simpl. unfold bind at 1. by rewrite Hstep.
Qed.

Lemma reaches_log self event eargs ekwargs handlers error w rest error' w' :
  reaches self event eargs ekwargs handlers error w rest error' w' →
  ∃ pre, handlers = pre ++ rest
         ∧ w_log w' = w_log w ++ invocations event eargs pre.
Proof.
  induction 1 as [|h l e w e1 w1 rest e' w' Hstep _ (pre & -> & Hlog)].
  - exists []. by rewrite app_nil_r.
  - exists (h :: pre). split; [done|].
    pose proof (dispatch_step_log self event eargs ekwargs h e w) as Hl.
    rewrite Hstep in Hl. rewrite Hlog, Hl.
    by rewrite <- app_assoc.
Qed.

(** ** C7 and C10: the filter short-circuit *)

(** The trace of a dispatch that takes the [break] at handler [h]: the
    handlers before [h], then [h], then [_eventDone], and nothing else. *)
Lemma break_ends_dispatch self event channels w h post error1 w1 error2 st2 :
  let st := w_state w in
  let eargs := event_get e_args [] event st in
  let ekwargs := event_get e_kwargs [] event st in
  reaches self event eargs ekwargs (handlers_for self event channels st) None
    (loop_start self event channels w) (h :: post) error1 w1 →
  dispatch_step self event eargs ekwargs h error1 w1
  = Ret (error2, true)
      (mkWorld st2 (w_log w1 ++ [Invoke h event (call_args event eargs h)])) →
  ∃ pre st',
    handlers_for self event channels st = pre ++ h :: post
    ∧ _dispatcher self event channels w
      = Ret tt (mkWorld st'
                  (w_log w ++ [Dispatch event channels]
                     ++ invocations event eargs (pre ++ [h])
                     ++ [EventDone event (bool_decide (error2 ≠ None))])).
Proof.
  intros st eargs ekwargs Hreach Hstep.
  destruct (reaches_log _ _ _ _ _ _ _ _ _ _ Hreach) as (pre & Hpre & Hlog).
  exists pre.
  destruct (_eventDone_log self event error2
    (mkWorld st2 (w_log w1 ++ [Invoke h event (call_args event eargs h)])))
    as (st' & Hdone).
  exists st'. split; [done|].
  rewrite _dispatcher_run. fold st eargs ekwargs.
  unfold bind at 1. rewrite (reaches_loop _ _ _ _ _ _ _ _ _ _ Hreach).
  simpl. unfold bind at 1. rewrite Hstep. cbn [fst snd]. unfold ret at 1.
  rewrite Hdone. cbn [w_log]. rewrite Hlog. unfold loop_start. cbn [w_log].
  unfold invocations. rewrite fmap_app. cbn [fmap list_fmap].
  by rewrite <- !app_assoc.
Qed.

(** C7. When the loop comes to a handler with [filter=True] and that handler
    returns a truthy value, the dispatch ends there: the handlers invoked
    for the event are those up to and including this one, none of the
    later ones in the ordered list, and [_eventDone] runs afterwards. *)
Theorem filter_stops_dispatch (self : mid) (event : eid)
    (channels : list Channel) (w : World) (h : hid) (post : list hid)
    (error1 : option Exc) (w1 : World) (value : PyVal) (st2 : State) :
  let st := w_state w in
  let eargs := event_get e_args [] event st in
  let ekwargs := event_get e_kwargs [] event st in
  reaches self event eargs ekwargs (handlers_for self event channels st) None
    (loop_start self event channels w) (h :: post) error1 w1 →
  h_filter (hinfo h) = true →
  handler_run event eargs ekwargs h (w_state w1) = (Returns value, st2) →
  truthy (handler_returned_state self event value st2) value = true →
  ∃ pre st',
    handlers_for self event channels st = pre ++ h :: post
    ∧ _dispatcher self event channels w
      = Ret tt (mkWorld st'
                  (w_log w ++ [Dispatch event channels]
                     ++ invocations event eargs (pre ++ [h])
                     ++ [EventDone event (bool_decide (error1 ≠ None))])).
Proof.
  intros st eargs ekwargs Hreach Hfilter Hrun Htrue.
  eapply break_ends_dispatch; [done|].
  rewrite (dispatch_step_returns _ _ _ _ _ _ _ _ _ Hrun).
  by rewrite Htrue, Hfilter.
Qed.

(** C10. When the loop comes to a handler with [filter=True] and that
    handler raises an exception that is caught, the running [value] is the
    error triple, which is truthy, so the [break] is taken although the
    handler returned nothing: none of the later handlers is invoked. *)
Theorem failing_filter_stops_dispatch (self : mid) (event : eid)
    (channels : list Channel) (w : World) (h : hid) (post : list hid)
    (error1 : option Exc) (w1 : World) (x : Exc) (st2 : State) :
  let st := w_state w in
  let eargs := event_get e_args [] event st in
  let ekwargs := event_get e_kwargs [] event st in
  reaches self event eargs ekwargs (handlers_for self event channels st) None
    (loop_start self event channels w) (h :: post) error1 w1 →
  h_filter (hinfo h) = true →
  handler_run event eargs ekwargs h (w_state w1) = (Raises x, st2) →
  host_fatal x = false →
  is_Some (st_events st2 !! event) →
  (∀ s, truthy s (error_triple x) = true)
  ∧ dispatch_step self event eargs ekwargs h error1 w1
    = Ret (Some x, true)
        (mkWorld (upd_event_value event (set_v_value (error_triple x))
                    (handler_failed_state self event h x st2))
           (w_log w1 ++ [Invoke h event (call_args event eargs h)]))
  ∧ ∃ pre st',
      handlers_for self event channels st = pre ++ h :: post
      ∧ _dispatcher self event channels w
        = Ret tt (mkWorld st'
                    (w_log w ++ [Dispatch event channels]
                       ++ invocations event eargs (pre ++ [h])
                       ++ [EventDone event true])).
Proof.
  intros st eargs ekwargs Hreach Hfilter Hrun Hx He.
  pose proof (dispatch_step_caught self _ _ _ _ error1 _ _ _ Hrun Hx He)
    as Hstep.
  rewrite Hfilter in Hstep.
  split; [done|]. split; [done|].
  by eapply (break_ends_dispatch self event channels w h post error1 w1 (Some x)).
Qed.

(** ** C5: exceptions in handlers and tick callables *)

Lemma queue_of_created_fired self cls args chs st :
  is_Some (st_mgrs st !! root_of self st) →
  queue_of (root_of self st) (created_fired self cls args chs st)
  = queue_of (root_of self st) st
      ++ [(length (st_events st), created_channels self chs st)].
Proof.
  intros [m Hm]. unfold queue_of, mgr_get.
  rewrite created_fired_mgrs. case_decide; [|done]. by rewrite Hm.
Qed.

Lemma event_get_upd_event_value {A} (f : Event → A) d e event g st :
  event_get f d e (upd_event_value event g st) = event_get f d e st.
Proof. unfold event_get. by rewrite upd_event_value_events. Qed.

Lemma mgr_get_upd_event_value {A} (f : Manager → A) d m event g st :
  mgr_get f d m (upd_event_value event g st) = mgr_get f d m st.
Proof. unfold mgr_get. by rewrite upd_event_value_mgrs. Qed.

Lemma values_upd_event_value event g st v :
  event_get e_value None event st = Some v →
  st_values (upd_event_value event g st) = alter g v (st_values st).
Proof. intros Hv. unfold upd_event_value. by rewrite Hv. Qed.


Lemma bind_ext {A B} (c : M A) (k k' : A → M B) w :
  (∀ a w', k a w' = k' a w') → bind c k w = bind c k' w.
Proof. intros Hk. unfold bind. by destruct (c w). Qed.




(** ** C6: the order of the handlers *)

Lemma key_lt_irrefl k : key_lt k k = false.
Proof.
  unfold key_lt. destruct k as [p []]; simpl;
    rewrite Z.ltb_irrefl; by rewrite ?andb_false_r.
Qed.

Lemma key_lt_asym a b : key_lt a b = true → key_lt b a = false.
Proof.
  unfold key_lt. destruct a as [p [|]], b as [q [|]]; simpl;
    destruct (Z.ltb_spec p q), (Z.ltb_spec q p), (Z.eqb_spec p q),
      (Z.eqb_spec q p); simpl; try done; lia.
Qed.

Lemma key_ge_trans a b c :
  key_lt a b = false → key_lt b c = false → key_lt a c = false.
Proof.
  unfold key_lt. destruct a as [p [|]], b as [q [|]], c as [r [|]]; simpl;
    destruct (Z.ltb_spec p q), (Z.ltb_spec q r), (Z.ltb_spec p r),
      (Z.eqb_spec p q), (Z.eqb_spec q r), (Z.eqb_spec p r);
    simpl; try done; lia.
Qed.

Lemma insert_desc_perm x l : insert_desc x l ≡ₚ x :: l.
Proof.
  induction l as [|y l IH]; simpl; [done|].
  destruct (key_lt (hkey x) (hkey y)); [|done].
  rewrite IH. apply Permutation_swap.
Qed.

Lemma sorted_reverse_perm l : sorted_reverse l ≡ₚ l.
Proof.
  induction l as [|x l IH]; simpl; [done|].
  by rewrite insert_desc_perm, IH.
Qed.

Lemma insert_desc_sorted x l :
  StronglySorted key_ge l → StronglySorted key_ge (insert_desc x l).
Proof.
  induction 1 as [|y l Hl IH Hy]; simpl.
  - repeat constructor.
  - destruct (key_lt (hkey x) (hkey y)) eqn:Hxy.
    + constructor; [done|].
      rewrite insert_desc_perm. constructor; [|done].
      by apply key_lt_asym.
    + constructor; [by constructor|].
      constructor; [done|].
      eapply Forall_impl; [exact Hy|]. intros z Hz.
      by eapply key_ge_trans.
Qed.

Lemma sorted_reverse_sorted l : StronglySorted key_ge (sorted_reverse l).
Proof.
  induction l as [|x l IH]; simpl; [constructor|].
  by apply insert_desc_sorted.
Qed.

(** The sort is stable: handlers with one and the same key keep the order
    they had in the input. *)
Lemma insert_desc_stable k x l :
  filter (λ h, hkey h = k) (insert_desc x l)
  = filter (λ h, hkey h = k) (x :: l).
Proof.
  induction l as [|y l IH]; simpl; [done|].
  destruct (key_lt (hkey x) (hkey y)) eqn:Hxy; [|done].
  rewrite !filter_cons in *.
  destruct (decide (hkey y = k)) as [Hy|Hy];
    destruct (decide (hkey x = k)) as [Hx|Hx]; rewrite IH; try done.
  rewrite Hx, Hy, key_lt_irrefl in Hxy. done.
Qed.

Lemma sorted_reverse_stable k l :
  filter (λ h, hkey h = k) (sorted_reverse l) = filter (λ h, hkey h = k) l.
Proof.
  induction l as [|x l IH]; simpl; [done|].
  rewrite insert_desc_stable, !filter_cons. by rewrite IH.
Qed.

Lemma cache_filled_sorted self event channels st :
  cache_sorted self st → cache_sorted self (cache_filled self event channels st).
Proof.
  intros Hc. unfold cache_filled.
  destruct (mgr_get _cache ∅ self st !! _) eqn:Hhit; [done|].
  intros key hs. unfold mgr_get, upd_mgr; simpl.
  rewrite list_lookup_alter_eq.
  destruct (st_mgrs st !! self) as [m|] eqn:Hm; simpl; [|done].
  destruct (decide (key = (event_get e_name "" event st, channels))) as [->|Hk].
  - rewrite lookup_insert_eq. intros [= <-]. apply sorted_reverse_sorted.
  - rewrite lookup_insert_ne by done. intros Hhs.
    apply (Hc key). unfold mgr_get. by rewrite Hm.
Qed.

Lemma handlers_for_sorted self event channels st :
  cache_sorted self st →
  StronglySorted key_ge (handlers_for self event channels st).
Proof.
  intros Hc. unfold handlers_for.
  destruct (mgr_get _cache ∅ self st !! _) eqn:Hhit; [by eapply Hc|].
  apply sorted_reverse_sorted.
Qed.

(** C6, as the code has it.  The handlers of a dispatch are invoked in the
    order of the dispatcher's list, which is in descending (priority,
    filter) order; the dispatcher stores only such lists in its cache.
    Among handlers with equal keys the list resolved on a cache miss keeps
    the order in which the iteration over the resolved handler sets yields
    them: the sort is stable and adds no tie-break of its own. *)
Theorem handlers_run_in_key_order (self : mid) (event : eid)
    (channels : list Channel) (w : World) (rest : list hid)
    (error' : option Exc) (w' : World) :
  let st := w_state w in
  let eargs := event_get e_args [] event st in
  let ekwargs := event_get e_kwargs [] event st in
  let handlers := handlers_for self event channels st in
  cache_sorted self st →
  reaches self event eargs ekwargs handlers None
    (loop_start self event channels w) rest error' w' →
  ∃ pre,
    handlers = pre ++ rest
    ∧ w_log w' = w_log w ++ [Dispatch event channels]
                   ++ invocations event eargs pre
    ∧ StronglySorted key_ge handlers
    ∧ cache_sorted self (cache_filled self event channels st)
    ∧ (mgr_get _cache ∅ self st !! (event_get e_name "" event st, channels)
       = None →
       handlers ≡ₚ resolved_chain st self (event_get e_name "" event st) channels
       ∧ ∀ k, filter (λ h, hkey h = k) handlers
              = filter (λ h, hkey h = k)
                  (resolved_chain st self (event_get e_name "" event st)
                     channels)).
Proof.
  intros st eargs ekwargs handlers Hc Hreach.
  destruct (reaches_log _ _ _ _ _ _ _ _ _ _ Hreach) as (pre & Hpre & Hlog).
  exists pre. split; [done|]. split.
  { rewrite Hlog. unfold loop_start. cbn [w_log]. by rewrite <- app_assoc. }
  split; [by apply handlers_for_sorted|].
  split; [by apply cache_filled_sorted|].
  intros Hmiss. subst handlers. unfold handlers_for. fold st. rewrite Hmiss.
  unfold resolve. fold (resolved_chain st self (event_get e_name "" event st) channels).
  split; [apply sorted_reverse_perm|]. intros k. apply sorted_reverse_stable.
Qed.

(** ** The depth bound of [getHandlers]

    Once the bound covers the height of the tree below [self], a larger
    bound resolves the same handlers: the recursion has visited every
    component. *)

Lemma getHandlers_at_enough d st self name ch :
  within d st self →
  ∀ d', d ≤ d' →
    getHandlers_at d' st self name ch = getHandlers_at d st self name ch.
Proof.
  revert self. induction d as [|d IH]; intros self Hd d' Hle.
  - simpl in Hd. destruct d' as [|d']; [done|]. simpl.
    destruct ch; [|done|]; by rewrite Hd, elements_empty.
  - destruct d' as [|d']; [lia|]. simpl. destruct ch; [|done|].
    + f_equal. f_equal. apply list_fmap_ext. intros i c Hc.
      apply IH; [|lia]. apply Hd.
      apply elem_of_elements, list_elem_of_lookup. by exists i.
    + f_equal. f_equal. apply list_fmap_ext. intros i c Hc.
      apply IH; [|lia]. apply Hd.
      apply elem_of_elements, list_elem_of_lookup. by exists i.
Qed.

(** ** C8: structural changes and the cache *)

Lemma bind_Ret_inv {A B} (c : M A) (k : A → M B) w b w' :
  bind c k w = Ret b w' → ∃ a w1, c w = Ret a w1 ∧ k a w1 = Ret b w'.
Proof.
  unfold bind. destruct (c w) as [a w1| |]; [|done..]. intros H.
  by exists a, w1.
Qed.

Lemma same_roots_upd_mgr m f st :
  (∀ x, root (f x) = root x) → same_roots st (upd_mgr m f st).
Proof.
  intros Hf x. unfold root_of, mgr_get, upd_mgr; simpl.
  destruct (decide (m = x)) as [->|Hne].
  - rewrite list_lookup_alter_eq. destruct (st_mgrs st !! x); simpl; [|done].
    apply Hf.
  - by rewrite list_lookup_alter_ne.
Qed.


Lemma root_bucket_add name method m : root (bucket_add name method m) = root m.
Proof. reflexivity. Qed.

Lemma root_foldl_bucket_add method names m :
  root (foldl (λ m name, bucket_add name method m) m names) = root m.
Proof. revert m. induction names as [|n names IH]; intros m; simpl; [done|]. by rewrite IH. Qed.










Lemma bucket_remove_returns self name method w :
  (∃ bucket, mgr_get _handlers ∅ self (w_state w) !! name = Some bucket
             ∧ method ∈ bucket) →
  ∃ w', bucket_remove self name method w = Ret tt w'
        ∧ ∀ name', name' ≠ name →
            mgr_get _handlers ∅ self (w_state w') !! name'
            = mgr_get _handlers ∅ self (w_state w) !! name'.
Proof.
  intros (bucket & Hb & Hin). unfold bucket_remove.
  unfold bind at 1, gets at 1. rewrite Hb.
  rewrite bool_decide_eq_true_2 by done.
  assert (Hself : is_Some (st_mgrs (w_state w) !! self)).
  { unfold mgr_get in Hb. destruct (st_mgrs (w_state w) !! self); [done|].
    simpl in Hb. by rewrite lookup_empty in Hb. }
  destruct Hself as [m Hm].
  case_bool_decide; eexists; (split; [done|]); intros name' Hne;
    cbn [w_state]; unfold mgr_get, upd_mgr; simpl;
    rewrite list_lookup_alter_eq, Hm; simpl.
  - by rewrite lookup_delete_ne.
  - by rewrite lookup_insert_ne.
Qed.

Lemma remove_each_returns self names method w :
  registered_under self method names (w_state w) →
  ∃ w', remove_each self names method w = Ret tt w'.
Proof.
  revert w. induction names as [|name names IH]; intros w [Hnd Hreg]; simpl.
  - by eexists.
  - apply NoDup_cons in Hnd as [Hfresh Hnd].
    destruct (bucket_remove_returns self name method w) as (w1 & H1 & Hsame).
    { apply Hreg. by left. }
    unfold bind at 1. rewrite H1. apply IH. split; [done|].
    intros name' Hin. rewrite Hsame.
    + apply Hreg. by right.
    + intros ->. done.
Qed.


(** ** C1: [waitingHandlers] and the task set *)

Lemma waiting_upd_event_bump event d st :
  is_Some (st_events st !! event) →
  waiting event (upd_event event (bump d) st) = (waiting event st + d)%Z.
Proof.
  intros [e He]. unfold waiting, event_get, upd_event; simpl.
  by rewrite list_lookup_alter_eq, He.
Qed.

Lemma waiting_upd_mgr event m f st :
  waiting event (upd_mgr m f st) = waiting event st.
Proof. reflexivity. Qed.

Lemma waiting_upd_event_value event e f st :
  waiting event (upd_event_value e f st) = waiting event st.
Proof. apply event_get_upd_event_value. Qed.

Lemma tasks_of_upd_event self e f st :
  tasks_of self (upd_event e f st) = tasks_of self st.
Proof. reflexivity. Qed.

Lemma tasks_of_upd_event_value self e f st :
  tasks_of self (upd_event_value e f st) = tasks_of self st.
Proof. apply mgr_get_upd_event_value. Qed.

Lemma tasks_of_upd_mgr_tasks self g st :
  is_Some (st_mgrs st !! self) →
  tasks_of self (upd_mgr self (λ m, set_tasks (g (_tasks m)) m) st)
  = g (tasks_of self st).
Proof.
  intros [m Hm]. unfold tasks_of, mgr_get, upd_mgr; simpl.
  by rewrite list_lookup_alter_eq, Hm.
Qed.

Lemma eventDone_state_waiting self event error st e :
  is_Some (st_events st !! e) →
  waiting e (eventDone_state self event error st) = waiting e st.
Proof.
  intros He. unfold eventDone_state, waiting.
  destruct (negb _); [done|].
  destruct (event_get e_alert_done false event st); destruct (_ && _);
    rewrite ?event_get_lifecycle_fired; try done.
  apply lookup_lt_is_Some. rewrite lifecycle_fired_events_length.
  apply lookup_lt_is_Some in He. lia.
Qed.

Lemma tasks_of_lifecycle_fired self m event kind x st :
  tasks_of m (lifecycle_fired self event kind x st) = tasks_of m st.
Proof. unfold tasks_of, lifecycle_fired. by apply mgr_get_created_fired. Qed.

Lemma eventDone_state_tasks self event error st m :
  tasks_of m (eventDone_state self event error st) = tasks_of m st.
Proof.
  unfold eventDone_state. destruct (negb _); [done|].
  destruct (event_get e_alert_done false event st); destruct (_ && _);
    by rewrite ?tasks_of_lifecycle_fired.
Qed.


Lemma task_exhausted_run self event task parent w :
  is_Some (st_events (w_state w) !! event) →
  task_exhausted self event task parent w
  = Ret tt (mkWorld (task_exhausted_state self event task parent (w_state w))
              (w_log w
                 ++ if (waiting event (task_exhausted_pre self event task
                                         parent (w_state w)) =? 0)%Z
                    then [EventDone event false] else [])).
Proof.
  intros He. destruct w as [st log]. cbn [w_state w_log] in *.
  assert (He3 : is_Some (st_events (task_exhausted_pre self event task parent st)
                           !! event)).
  { unfold task_exhausted_pre, upd_event; simpl. rewrite list_lookup_alter_eq.
    apply fmap_is_Some. by destruct parent. }
  unfold task_exhausted, task_exhausted_state.
  set (st3 := task_exhausted_pre self event task parent st) in *.
  assert (Hpre : ∀ (k : unit → M unit),
    bind (unregisterTask self (event, task, None))
      (λ _, bind (match parent with
                  | Some p => registerTask self (event, p, None)
                  | None => ret tt
                  end)
              (λ _, bind (modify (upd_event event
                            (λ e, set_waitingHandlers (waitingHandlers e - 1)%Z e)))
                      k)) (mkWorld st log)
    = k tt (mkWorld st3 log)).
  { intros k. subst st3. unfold task_exhausted_pre. by destruct parent. }
  rewrite Hpre. unfold bind at 1, gets at 1. cbn [w_state w_log].
  fold (waiting event st3).
  destruct (waiting event st3 =? 0)%Z; [|by rewrite app_nil_r].
  unfold bind at 1, modify at 1. cbn [w_state w_log].
  rewrite _eventDone_run; [done|]. cbn [w_state].
  by rewrite upd_event_value_events.
Qed.

Lemma task_exhausted_state_waiting self event task parent st :
  is_Some (st_events st !! event) →
  waiting event (task_exhausted_state self event task parent st)
  = (waiting event st - 1)%Z.
Proof.
  intros He. unfold task_exhausted_state.
  assert (Hpre : waiting event (task_exhausted_pre self event task parent st)
                 = (waiting event st - 1)%Z).
  { unfold task_exhausted_pre. rewrite waiting_upd_event_bump.
    - destruct parent; rewrite !waiting_upd_mgr; lia.
    - by destruct parent. }
  destruct (_ =? _)%Z; [|done].
  rewrite eventDone_state_waiting, waiting_upd_event_value; [done|].
  rewrite upd_event_value_events. unfold task_exhausted_pre, upd_event; simpl.
  rewrite list_lookup_alter_eq. apply fmap_is_Some. by destruct parent.
Qed.

Lemma task_exhausted_state_tasks self event task parent st :
  is_Some (st_mgrs st !! self) →
  tasks_of self (task_exhausted_state self event task parent st)
  = match parent with
    | Some p => (tasks_of self st ∖ {[(event, task, None)]}) ∪ {[(event, p, None)]}
    | None => tasks_of self st ∖ {[(event, task, None)]}
    end.
Proof.
  intros Hm. unfold task_exhausted_state.
  assert (Hpre : tasks_of self (task_exhausted_pre self event task parent st)
                 = match parent with
                   | Some p => (tasks_of self st ∖ {[(event, task, None)]})
                                 ∪ {[(event, p, None)]}
                   | None => tasks_of self st ∖ {[(event, task, None)]}
                   end).
  { unfold task_exhausted_pre. rewrite tasks_of_upd_event.
    destruct parent as [p|].
    - unfold add_task.
      rewrite (tasks_of_upd_mgr_tasks self (λ X, X ∪ {[(event, p, None)]})).
      + unfold del_task.
        by rewrite (tasks_of_upd_mgr_tasks self (λ X, X ∖ {[(event, task, None)]})).
      + unfold upd_mgr; simpl. rewrite list_lookup_alter_eq.
        by apply fmap_is_Some.
    - unfold del_task.
      by rewrite (tasks_of_upd_mgr_tasks self (λ X, X ∖ {[(event, task, None)]})). }
  destruct (_ =? _)%Z; [|done].
  by rewrite eventDone_state_tasks, tasks_of_upd_event_value.
Qed.



Lemma count_other (X : gset Task) (t : Task) event :
  task_event t ≠ event →
  size (filter (λ t : Task, task_event t = event) (X ∪ {[t]}))
  = size (filter (λ t : Task, task_event t = event) X)
  ∧ size (filter (λ t : Task, task_event t = event) (X ∖ {[t]}))
    = size (filter (λ t : Task, task_event t = event) X).
Proof.
  intros Ht. clear -Ht. split; f_equal; apply set_eq; intros y;
    rewrite !elem_of_filter; set_solver.
Qed.


Lemma processTask_unfold fuel self event task parent w out st1 :
  gen_next task (w_state w) = (out, st1) →
  processTask (S fuel) self event task parent w
  = (match out with
     | Yields value =>
         match as_generator value with
         | Some g =>
             task_spawned self event task g >>
             processTask fuel self event g None
         | None =>
             if is_not_None value
             then modify (upd_event_value event (set_v_value value))
             else ret tt
         end
     | Throws x =>
         match exc_type x with
         | StopIteration => task_exhausted self event task parent
         | _ => task_failed self event task x
         end
     end) (mkWorld st1 (w_log w ++ [Advance event task])).
Proof.
  intros Hnext. simpl. unfold bind at 1, emit at 1.
  unfold bind at 1, opaque at 1. cbn [w_state w_log]. by rewrite Hnext.
Qed.


(** ** C3: the tick *)

(** The three phases of [tick], and the test that follows them: once all
    tick callables have been called and all tasks advanced, [tick] flushes
    when the queue of [self] holds an entry and sleeps when it holds none;
    the tick set plays no part in that test. *)
Lemma tick_phases fuel self w w1 w2 :
  run_ticks self (tick_order (mgr_get _ticks ∅ self (w_state w))) w
    = Ret tt w1 →
  run_tasks fuel self (task_order (mgr_get _tasks ∅ self (w_state w1))) w1
    = Ret tt w2 →
  tick fuel self w
  = if nonempty (mgr_get _queue [] self (w_state w2))
    then flush self w2
    else Ret tt (mkWorld (w_state w2) (w_log w2 ++ [Sleep TIMEOUT])).
Proof.
  intros Hticks Htasks. unfold tick.
  unfold bind at 1, gets at 1. unfold bind at 1. rewrite Hticks.
  unfold bind at 1, gets at 1. unfold bind at 1. rewrite Htasks.
  unfold bind at 1, gets at 1.
  by destruct (nonempty _).
Qed.

(** What the tick phase adds to the log when no callable raises a
    host-fatal exception: one call per tick callable, in iteration order. *)
Lemma run_ticks_log self fs w w' :
  run_ticks self fs w = Ret tt w' →
  w_log w' = w_log w ++ (CallTick <$> fs).
Proof.
  revert w. induction fs as [|f fs IH]; intros w; simpl.
  - intros [= <-]. by rewrite app_nil_r.
  - intros (a1 & w1 & H1 & H2)%bind_Ret_inv.
    injection H1 as <- <-.
    apply bind_Ret_inv in H2 as (o & w2 & H2 & H3).
    apply bind_Ret_inv in H3 as (a3 & w3 & H3 & H4).
    apply IH in H4. rewrite H4.
    assert (Hlog : w_log w3 = w_log w ++ [CallTick f]).
    { unfold opaque in H2. cbn [w_state w_log] in H2.
      destruct (call_tick f (w_state w)) as [o' st'].
      injection H2 as <- <-. destruct o' as [v|x].
      - by injection H3 as <- <-.
      - destruct (host_fatal x); [done|].
        apply bind_Ret_inv in H3 as (e & w4 & H3 & H5).
        rewrite create_run in H3. injection H3 as <- <-.
        apply bind_Ret_inv in H5 as (v & w5 & H5 & H6).
        rewrite fire_run in H5. injection H5 as <- <-.
        by injection H6 as <- <-. }
    rewrite Hlog. by rewrite <- app_assoc.
Qed.

(** ** Fuel

    The fuel bounds how deep [processTask] primes nested generators; a run
    that ends within the bound is the same run under any larger bound. *)

Lemma bind_more_fuel {A B} (c c' : M A) (k k' : A → M B) w :
  (c w ≠ OutOfFuel → c' w = c w) →
  (∀ a w1, k a w1 ≠ OutOfFuel → k' a w1 = k a w1) →
  bind c k w ≠ OutOfFuel → bind c' k' w = bind c k w.
Proof.
  intros Hc Hk Hdef. unfold bind in *.
  destruct (c w) as [a w1|x w1|] eqn:Hcw; [| |done].
  - rewrite Hc by done. by apply Hk.
  - by rewrite Hc.
Qed.

Lemma processTask_more_fuel fuel self event task parent w :
  processTask fuel self event task parent w ≠ OutOfFuel →
  processTask (S fuel) self event task parent w
  = processTask fuel self event task parent w.
Proof.
  revert task parent w.
  induction fuel as [|fuel IH]; intros task parent w Hdef; [done|].
  destruct (gen_next task (w_state w)) as [out st1] eqn:Hnext.
  rewrite (processTask_unfold (S fuel) _ _ _ _ _ _ _ Hnext).
  rewrite (processTask_unfold fuel _ _ _ _ _ _ _ Hnext) in *.
  destruct out as [value|x]; [|done].
  destruct (as_generator value) as [g|]; [|done].
  apply bind_more_fuel; [done| |done].
  intros a w1. apply IH.
Qed.

Lemma run_tasks_more_fuel fuel self ts w :
  run_tasks fuel self ts w ≠ OutOfFuel →
  run_tasks (S fuel) self ts w = run_tasks fuel self ts w.
Proof.
  revert w. induction ts as [|[[event task] parent] ts IH]; intros w; [done|].
  cbn [run_tasks]. apply bind_more_fuel.
  - apply processTask_more_fuel.
  - intros _ w1. apply IH.
Qed.

Lemma tick_more_fuel fuel self w :
  tick fuel self w ≠ OutOfFuel → tick (S fuel) self w = tick fuel self w.
Proof.
  unfold tick. apply bind_more_fuel; [done|]. intros fs w1.
  apply bind_more_fuel; [done|]. intros _ w2.
  apply bind_more_fuel; [done|]. intros ts w3.
  apply bind_more_fuel; [apply run_tasks_more_fuel|done].
Qed.

Lemma stop_more_fuel fuel self w :
  stop fuel self w ≠ OutOfFuel → stop (S fuel) self w = stop fuel self w.
Proof.
  unfold stop. apply bind_more_fuel; [done|]. intros running w1.
  destruct (negb running); [done|].
  apply bind_more_fuel; [done|]. intros _ w2.
  apply bind_more_fuel; [done|]. intros ev w3.
  apply bind_more_fuel; [done|]. intros _ w4.
  apply bind_more_fuel; [apply tick_more_fuel|]. intros _ w5.
  apply bind_more_fuel; [apply tick_more_fuel|]. intros _ w6.
  apply bind_more_fuel; [apply tick_more_fuel|done].
Qed.

(** Without nested generators one unit of fuel is enough for a step. *)
Lemma processTask_returns self event task parent w :
  (∀ g, (gen_next task (w_state w)).1 ≠ Yields (PGen g)) →
  ∃ w', processTask 1 self event task parent w = Ret tt w'.
Proof.
  intros Hflat. destruct (gen_next task (w_state w)) as [out st1] eqn:Hnext.
  rewrite (processTask_unfold 0 _ _ _ _ _ _ _ Hnext).
  destruct out as [value|x].
  - destruct value; simpl; try by eexists.
    by destruct (Hflat g).
  - destruct (exc_type x).
    1,2,4: destruct (total_task_failed self event task x
                       (mkWorld st1 (w_log w ++ [Advance event task])))
             as ([] & w' & ->); by eexists.
    destruct (total_task_exhausted self event task parent
                (mkWorld st1 (w_log w ++ [Advance event task])))
      as ([] & w' & ->). by eexists.
Qed.

(** ** C9: stopping *)

Lemma flag_safe_upd_event e f : flag_safe (upd_event e f).
Proof. by intros self st. Qed.

Lemma flag_safe_upd_value v f : flag_safe (upd_value v f).
Proof. by intros self st. Qed.

Lemma flag_safe_upd_event_value e f : flag_safe (upd_event_value e f).
Proof.
  intros self st. unfold not_running. by rewrite mgr_get_upd_event_value.
Qed.

Lemma flag_safe_alloc_event ev : flag_safe (alloc_event ev).
Proof. by intros self st. Qed.

Lemma flag_safe_alloc_value v : flag_safe (alloc_value v).
Proof. by intros self st. Qed.

Lemma flag_safe_upd_mgr m f :
  (∀ x, _running (f x) = _running x) → flag_safe (upd_mgr m f).
Proof.
  intros Hf self st. unfold not_running, mgr_get, upd_mgr; simpl.
  destruct (decide (m = self)) as [->|Hne].
  - rewrite list_lookup_alter_eq. destruct (st_mgrs st !! self); simpl; [|done].
    by rewrite Hf.
  - by rewrite list_lookup_alter_ne.
Qed.

Lemma flag_safe_fired self event channels : flag_safe (fired self event channels).
Proof.
  intros m st Hst. unfold fired.
  apply flag_safe_upd_mgr; [done|].
  by apply flag_safe_upd_event, flag_safe_alloc_value.
Qed.

Lemma ks_ret self {A} (a : A) : keeps_stopped self (ret a).
Proof. by intros w. Qed.

Lemma ks_gets self {A} (f : State → A) : keeps_stopped self (gets f).
Proof. by intros w. Qed.

Lemma ks_emit self a : keeps_stopped self (emit a).
Proof. by intros w. Qed.

Lemma ks_raise self {A} x : keeps_stopped self (@raise A x).
Proof. by intros w. Qed.

Lemma ks_modify self f : flag_safe f → keeps_stopped self (modify f).
Proof. intros Hf w Hw. by apply Hf. Qed.

Lemma ks_bind self {A B} (c : M A) (k : A → M B) :
  keeps_stopped self c → (∀ a, keeps_stopped self (k a)) →
  keeps_stopped self (bind c k).
Proof.
  intros Hc Hk w Hw. specialize (Hc w Hw). unfold bind.
  destruct (c w) as [a w1|x w1|]; [|done..].
  by apply Hk.
Qed.

Lemma ks_fire self m event channels : keeps_stopped self (fire m event channels).
Proof. intros w Hw. rewrite fire_run. by apply flag_safe_fired. Qed.

Lemma ks_create self cls args : keeps_stopped self (create cls args).
Proof. intros w Hw. rewrite create_run. by apply flag_safe_alloc_event. Qed.

Lemma ks_opaque self {A} (f : State → A * State) :
  (∀ st, not_running self st → not_running self (f st).2) →
  keeps_stopped self (opaque f).
Proof.
  intros Hf w Hw. unfold opaque. specialize (Hf _ Hw).
  by destruct (f (w_state w)).
Qed.

Ltac ks_step :=
  first
    [ apply ks_ret | apply ks_gets | apply ks_emit | apply ks_raise
    | apply ks_fire | apply ks_create
    | apply ks_modify;
        first [ apply flag_safe_upd_event | apply flag_safe_upd_event_value
              | apply flag_safe_upd_mgr; intros ?; reflexivity ]
    | apply ks_bind; [|intros ?]
    | match goal with
      | |- keeps_stopped _ (if ?b then _ else _) => destruct b
      | |- keeps_stopped _ (match ?o with Some _ => _ | None => _ end) =>
          destruct o
      end ].

Ltac solve_ks := repeat ks_step.

Lemma ks_fire_lifecycle self m event kind x :
  keeps_stopped self (fire_lifecycle m event kind x).
Proof. unfold fire_lifecycle. solve_ks. Qed.

Lemma ks__eventDone self m event error :
  keeps_stopped self (_eventDone m event error).
Proof. unfold _eventDone. solve_ks; apply ks_fire_lifecycle. Qed.

Lemma ks_handler_failed self m event handler x :
  keeps_stopped self (handler_failed m event handler x).
Proof. unfold handler_failed. solve_ks; apply ks_fire_lifecycle. Qed.

Lemma ks_handler_returned self m event value :
  keeps_stopped self (handler_returned m event value).
Proof. unfold handler_returned, registerTask. solve_ks. Qed.

Lemma ks_task_exhausted self m event task parent :
  keeps_stopped self (task_exhausted m event task parent).
Proof.
  unfold task_exhausted, unregisterTask, registerTask.
  solve_ks; apply ks__eventDone.
Qed.

Lemma ks_task_failed self m event task x :
  keeps_stopped self (task_failed m event task x).
Proof.
  unfold task_failed, unregisterTask. solve_ks; apply ks_fire_lifecycle.
Qed.

Lemma ks_task_spawned self m event task value :
  keeps_stopped self (task_spawned m event task value).
Proof. unfold task_spawned, unregisterTask, registerTask. solve_ks. Qed.

(** ** The handler registry: what [removeHandler] needs and what it leaves *)

Lemma bucket_remove_Ret_inv self name method w a w' :
  bucket_remove self name method w = Ret a w' →
  (∃ bucket, mgr_get _handlers ∅ self (w_state w) !! name = Some bucket
             ∧ method ∈ bucket)
  ∧ (∀ bucket, mgr_get _handlers ∅ self (w_state w') !! name = Some bucket →
               method ∉ bucket)
  ∧ ∀ name', name' ≠ name →
      mgr_get _handlers ∅ self (w_state w') !! name'
      = mgr_get _handlers ∅ self (w_state w) !! name'.
Proof.
  intros Hrun.
  assert (Hreg : ∃ bucket,
            mgr_get _handlers ∅ self (w_state w) !! name = Some bucket
            ∧ method ∈ bucket).
  { revert Hrun. unfold bucket_remove. unfold bind at 1, gets at 1.
    destruct (mgr_get _handlers ∅ self (w_state w) !! name) as [bucket|];
      [|done].
    case_bool_decide; [|done]. intros _. by exists bucket. }
  split; [done|].
  destruct (bucket_remove_returns self name method w Hreg) as (w1 & H1 & Hsame).
  rewrite H1 in Hrun. injection Hrun as _ <-. split; [|done].
  destruct Hreg as (bucket & Hb & Hin).
  assert (Hself : is_Some (st_mgrs (w_state w) !! self)).
  { unfold mgr_get in Hb. destruct (st_mgrs (w_state w) !! self); [done|].
    simpl in Hb. by rewrite lookup_empty in Hb. }
  destruct Hself as [m Hm].
  revert H1. unfold bucket_remove. unfold bind at 1, gets at 1. rewrite Hb.
  rewrite bool_decide_eq_true_2 by done.
  case_bool_decide; intros [= <-]; intros bucket'; cbn [w_state];
    unfold mgr_get, upd_mgr; simpl; rewrite list_lookup_alter_eq, Hm; simpl.
  - by rewrite lookup_delete_eq.
  - rewrite lookup_insert_eq. intros [= <-].
    rewrite elem_of_difference, elem_of_singleton. by intros [_ Hne].
Qed.

Lemma remove_each_Ret_inv self names method w a w' :
  remove_each self names method w = Ret a w' →
  registered_under self method names (w_state w).
Proof.
  revert w. induction names as [|name names IH]; intros w; simpl.
  - intros _. split; [constructor|]. by intros name ?%elem_of_nil.
  - intros (a1 & w1 & H1 & H2)%bind_Ret_inv.
    apply bucket_remove_Ret_inv in H1 as (Hreg & Hgone & Hsame).
    apply IH in H2 as [Hnd Hrest].
    assert (Hfresh : name ∉ names).
    { intros Hin. destruct (Hrest name Hin) as (bucket & Hb & Hm).
      by apply (Hgone bucket). }
    split; [by constructor|].
    intros name' [->|Hin]%elem_of_cons; [done|].
    rewrite <- Hsame; [by apply Hrest|]. by intros ->.
Qed.

(** X1.  [removeHandler] returns exactly when the handler sits in the bucket of
    every name it is to be removed from and no name comes twice; in every
    other case a subscript or [remove] raises. *)
Theorem removeHandler_returns_iff_registered (self : mid) (method : hid)
    (event : option string) (w : World) :
  (∃ w', removeHandler self method event w = Ret tt w')
  ↔ registered_under self method
      (match event with
       | None => h_names (hinfo method)
       | Some name => [name]
       end) (w_state w).
Proof.
  unfold removeHandler. split.
  - intros (w' & (a1 & w1 & H1 & _)%bind_Ret_inv).
    by eapply remove_each_Ret_inv.
  - intros Hreg.
    destruct (remove_each_returns self _ method w Hreg) as (w1 & H1).
    unfold bind at 1. rewrite H1. by eexists.
Qed.

Lemma bucket_remove_raises self name method w x w' :
  bucket_remove self name method w = Raise x w' → x = KeyError ∧ w' = w.
Proof.
  unfold bucket_remove. unfold bind at 1, gets at 1.
  destruct (mgr_get _handlers ∅ self (w_state w) !! name) as [bucket|].
  - case_bool_decide; [by case_bool_decide|]. by intros [= <- <-].
  - by intros [= <- <-].
Qed.

Lemma bucket_remove_frame self name method w a w' :
  bucket_remove self name method w = Ret a w' →
  w_log w' = w_log w
  ∧ (∀ m, mgr_get _cache ∅ m (w_state w') = mgr_get _cache ∅ m (w_state w))
  ∧ (∀ m, m ≠ self → st_mgrs (w_state w') !! m = st_mgrs (w_state w) !! m).
Proof.
  unfold bucket_remove. unfold bind at 1, gets at 1.
  destruct (mgr_get _handlers ∅ self (w_state w) !! name) as [bucket|]; [|done].
  case_bool_decide; [|done].
  case_bool_decide; intros [= <- <-]; cbn [w_state w_log];
    (split; [done|]); (split; [intros m|intros m Hm]);
    unfold mgr_get, upd_mgr; simpl.
  - destruct (decide (self = m)) as [->|Hne].
    + rewrite list_lookup_alter_eq. by destruct (st_mgrs (w_state w) !! m).
    + by rewrite list_lookup_alter_ne.
  - by rewrite list_lookup_alter_ne.
  - destruct (decide (self = m)) as [->|Hne].
    + rewrite list_lookup_alter_eq. by destruct (st_mgrs (w_state w) !! m).
    + by rewrite list_lookup_alter_ne.
  - by rewrite list_lookup_alter_ne.
Qed.

Lemma remove_each_raises self names method w x w' :
  remove_each self names method w = Raise x w' →
  x = KeyError
  ∧ w_log w' = w_log w
  ∧ (∀ m, mgr_get _cache ∅ m (w_state w') = mgr_get _cache ∅ m (w_state w))
  ∧ (∀ m, m ≠ self → st_mgrs (w_state w') !! m = st_mgrs (w_state w) !! m)
  ∧ (length names ≤ 1 → w' = w).
Proof.
  revert w. induction names as [|name names IH]; intros w; simpl; [done|].
  unfold bind at 1.
  destruct (bucket_remove self name method w) as [a w1|y w1|] eqn:H1; [| |done].
  - intros H2. apply bucket_remove_frame in H1 as (Hlog & Hcache & Hothers).
    destruct names as [|name2 names]; [done|].
    apply IH in H2 as (-> & Hlog2 & Hcache2 & Hothers2 & _).
    split; [done|]. split; [congruence|].
    split; [intros m; by rewrite Hcache2|].
    split; [|simpl; lia]. intros m Hm. by rewrite Hothers2, Hothers.
  - intros [= -> ->]. apply bucket_remove_raises in H1 as [-> ->]. done.
Qed.

(** X2.  When [removeHandler] does not return, the exception is a KeyError and
    the call has stopped before [self.root._cache.clear()]: the log and
    every cache are as before, as is every manager other than [self].
    With the [event] argument given, a single bucket is looked at, and the
    failed call has changed nothing at all. *)
Theorem failed_removeHandler_raises_KeyError (self : mid) (method : hid)
    (event : option string) (w : World) (x : Exc) (w' : World) :
  removeHandler self method event w = Raise x w' →
  x = KeyError
  ∧ w_log w' = w_log w
  ∧ (∀ m, mgr_get _cache ∅ m (w_state w') = mgr_get _cache ∅ m (w_state w))
  ∧ (∀ m, m ≠ self → st_mgrs (w_state w') !! m = st_mgrs (w_state w) !! m)
  ∧ (is_Some event → w' = w).
Proof.
  unfold removeHandler. unfold bind at 1.
  destruct (remove_each self _ method w) as [a w1|y w1|] eqn:H1; [done| |done].
  intros [= -> ->]. apply remove_each_raises in H1 as (-> & Hl & Hc & Ho & Hone).
  do 4 (split; [done|]). intros [name ->]. by apply Hone.
Qed.

(** X3.  [unregisterChild] of something that is not a child raises KeyError at
    [self.components.remove(component)], before the cache is cleared and
    the tick set refreshed: nothing has changed. *)
Theorem unregisterChild_of_a_stranger_changes_nothing (self component : mid)
    (w : World) :
  component ∉ mgr_get components ∅ self (w_state w) →
  unregisterChild self component w = Raise KeyError w.
Proof.
  intros Hout. unfold unregisterChild. unfold bind at 1, gets at 1.
  rewrite bool_decide_eq_false_2 by done. by destruct w.
Qed.

(** ** The handler registry: adding twice, adding and removing *)

Lemma state_eq_mgrs st (l l' : list Manager) :
  l = l' →
  mkState (st_events st) (st_values st) l (st_user st)
  = mkState (st_events st) (st_values st) l' (st_user st).
Proof. by intros ->. Qed.

Lemma upd_mgr_upd_mgr m f g st :
  upd_mgr m f (upd_mgr m g st) = upd_mgr m (f ∘ g) st.
Proof. unfold upd_mgr; simpl. by rewrite list_alter_alter_eq. Qed.

Lemma upd_mgr_ext m f g st :
  (∀ x, st_mgrs st !! m = Some x → f x = g x) → upd_mgr m f st = upd_mgr m g st.
Proof. intros H. unfold upd_mgr. f_equal. by apply list_alter_ext. Qed.


Lemma upd_mgr_comm m1 m2 f g st :
  (∀ x, f (g x) = g (f x)) →
  upd_mgr m1 f (upd_mgr m2 g st) = upd_mgr m2 g (upd_mgr m1 f st).
Proof.
  intros H. unfold upd_mgr; simpl. f_equal.
  destruct (decide (m1 = m2)) as [->|Hne].
  - rewrite !list_alter_alter_eq. apply list_alter_ext; [|done].
    intros x _. apply H.
  - by apply list_alter_alter_ne.
Qed.

Lemma upd_mgr_idemp m f st :
  (∀ x, f (f x) = f x) → upd_mgr m f (upd_mgr m f st) = upd_mgr m f st.
Proof.
  intros H. rewrite upd_mgr_upd_mgr. apply upd_mgr_ext. intros x _. apply H.
Qed.

Lemma set_handlers_same m : set_handlers (_handlers m) m = m.
Proof. by destruct m. Qed.

Lemma foldl_bucket_add method names m :
  foldl (λ m name, bucket_add name method m) m names
  = set_handlers (buckets_with method names (_handlers m)) m.
Proof.
  revert m. induction names as [|name names IH]; intros m; simpl.
  - by rewrite set_handlers_same.
  - by rewrite IH.
Qed.

Lemma lookup_buckets_with method names buckets name :
  buckets_with method names buckets !! name
  = if bool_decide (name ∈ names)
    then Some (default ∅ (buckets !! name) ∪ {[method]})
    else buckets !! name.
Proof.
  revert buckets. induction names as [|n names IH]; intros buckets.
  - by rewrite bool_decide_eq_false_2 by apply not_elem_of_nil.
  - unfold buckets_with in *. cbn [foldl]. rewrite IH.
    destruct (decide (name = n)) as [->|Hne].
    + rewrite lookup_insert_eq. cbn [default from_option]; unfold id.
      rewrite (bool_decide_eq_true_2 (n ∈ n :: names)) by by left.
      case_bool_decide; [|done].
      f_equal. by rewrite <- (assoc_L (∪)), (idemp_L (∪)).
    + rewrite lookup_insert_ne by done.
      case_bool_decide as Hin.
      * by rewrite bool_decide_eq_true_2 by by right.
      * rewrite bool_decide_eq_false_2; [done|].
        by intros [?|?]%elem_of_cons.
Qed.

Lemma addHandler_run self method w :
  addHandler self method w
  = Ret tt (mkWorld (upd_mgr (root_of self (w_state w)) (set_cache ∅)
                       (upd_mgr self (with_handler method) (w_state w)))
              (w_log w)).
Proof.
  unfold addHandler, with_handler, clear_root_cache.
  assert (Hroot : ∀ f, (∀ x, root (f x) = root x) →
            root_of self (upd_mgr self f (w_state w)) = root_of self (w_state w)).
  { intros f Hf. by apply same_roots_upd_mgr. }
  destruct (negb (nonempty (h_names (hinfo method))) && _) eqn:Hg.
  - unfold bind, modify, gets. cbn [w_state w_log]. by rewrite Hroot.
  - destruct (negb (nonempty (h_names (hinfo method)))).
    + unfold bind, modify, gets. cbn [w_state w_log]. by rewrite Hroot.
    + unfold bind, modify, gets. cbn [w_state w_log].
      rewrite Hroot by apply root_foldl_bucket_add.
      do 3 f_equal. apply upd_mgr_ext. intros x _. apply foldl_bucket_add.
Qed.

Lemma buckets_with_idemp method names buckets :
  buckets_with method names (buckets_with method names buckets)
  = buckets_with method names buckets.
Proof.
  apply map_eq. intros name. rewrite !lookup_buckets_with.
  case_bool_decide; [|done]. cbn [default from_option]; unfold id.
  f_equal. by rewrite <- (assoc_L (∪)), (idemp_L (∪)).
Qed.

Lemma with_handler_idemp method m :
  with_handler method (with_handler method m) = with_handler method m.
Proof.
  unfold with_handler.
  destruct (negb (nonempty (h_names (hinfo method))) && _).
  - unfold set_globals; simpl. f_equal.
    by rewrite <- (assoc_L (∪)), (idemp_L (∪)).
  - destruct (negb (nonempty (h_names (hinfo method)))).
    + unfold bucket_add, set_handlers; simpl. f_equal.
      rewrite lookup_insert_eq, insert_insert_eq. cbn [default from_option]; unfold id.
      by rewrite <- (assoc_L (∪)), (idemp_L (∪)).
    + unfold set_handlers; simpl. f_equal. apply buckets_with_idemp.
Qed.

Lemma with_handler_set_cache method c m :
  with_handler method (set_cache c m) = set_cache c (with_handler method m).
Proof.
  unfold with_handler.
  destruct (negb (nonempty (h_names (hinfo method))) && _); [done|].
  by destruct (negb (nonempty (h_names (hinfo method)))).
Qed.

Lemma root_with_handler method m : root (with_handler method m) = root m.
Proof.
  unfold with_handler.
  destruct (negb (nonempty (h_names (hinfo method))) && _); [done|].
  by destruct (negb (nonempty (h_names (hinfo method)))).
Qed.

Lemma root_of_upd_mgr m f st x :
  (∀ y, root (f y) = root y) → root_of x (upd_mgr m f st) = root_of x st.
Proof. intros Hf. by apply same_roots_upd_mgr. Qed.

(** X4.  Adding a handler that is already there changes nothing: the registry
    is made of sets, so [addHandler(f)] twice is [addHandler(f)] once. *)
Theorem addHandler_twice_is_once (self : mid) (method : hid) (w : World) :
  bind (addHandler self method) (λ _, addHandler self method) w
  = addHandler self method w.
Proof.
  unfold bind. rewrite addHandler_run. rewrite addHandler_run.
  cbn [w_state w_log]. do 2 f_equal.
  rewrite !root_of_upd_mgr by first [done | apply root_with_handler].
  set (r := root_of self (w_state w)).
  rewrite (upd_mgr_comm self r (with_handler method) (set_cache ∅))
    by (intros x; apply with_handler_set_cache).
  rewrite (upd_mgr_idemp r) by done.
  by rewrite (upd_mgr_idemp self) by apply with_handler_idemp.
Qed.

Lemma bucket_remove_run self name method w m bucket :
  st_mgrs (w_state w) !! self = Some m →
  _handlers m !! name = Some bucket →
  method ∈ bucket →
  bucket_remove self name method w
  = Ret tt (mkWorld
              (upd_mgr self
                 (set_handlers
                    (if bool_decide (bucket ∖ {[method]} = ∅)
                     then delete name (_handlers m)
                     else <[name := bucket ∖ {[method]}]> (_handlers m)))
                 (w_state w))
              (w_log w)).
Proof.
  intros Hm Hb Hin. unfold bucket_remove. unfold bind at 1, gets at 1.
  unfold mgr_get. rewrite Hm. cbn [from_option]. rewrite Hb.
  rewrite bool_decide_eq_true_2 by done.
  case_bool_decide; unfold modify; do 2 f_equal; apply upd_mgr_ext;
    intros x Hx; by simplify_eq.
Qed.



Lemma own_handlers_global st self name ch method :
  method ∈ mgr_get _globals ∅ self st → method ∈ own_handlers st self name ch.
Proof. intros H. unfold own_handlers. apply elem_of_union. by right. Qed.

Lemma own_handlers_in_getHandlers st self name ch :
  own_handlers st self name
    (match ch with CMgr _ => CMgr self | _ => ch end)
  ⊆ getHandlers st self name
      (match ch with CMgr _ => CMgr self | _ => ch end).
Proof.
  unfold getHandlers. destruct (length (st_mgrs st)); simpl; destruct ch;
    try apply union_subseteq_l; by rewrite bool_decide_eq_false_2 by by intros ?.
Qed.

(** X6.  A handler declared without event names cannot be taken out with
    [removeHandler(f)]: the loop over its names has nothing to go through.
    After [addHandler(f)] the call returns and changes nothing; the handler
    is still in the globals (when its channel is "*") or in the "*" bucket,
    and it is still resolved for every event on the channel "*". *)
Theorem removeHandler_leaves_a_nameless_handler (self : mid) (method : hid)
    (w : World) :
  h_names (hinfo method) = [] →
  is_Some (st_mgrs (w_state w) !! self) →
  ∃ w',
    addHandler self method w = Ret tt w'
    ∧ removeHandler self method None w' = Ret tt w'
    ∧ (if bool_decide (h_channel (hinfo method) = CStr "*")
       then method ∈ mgr_get _globals ∅ self (w_state w')
       else method ∈ default ∅ (mgr_get _handlers ∅ self (w_state w') !! "*"))
    ∧ ∀ name, method ∈ getHandlers (w_state w') self name (CStr "*").
Proof.
  intros Hnames [m Hm]. eexists. split; [apply addHandler_run|].
  set (r := root_of self (w_state w)).
  set (st' := upd_mgr r (set_cache ∅)
                (upd_mgr self (with_handler method) (w_state w))).
  assert (Hm' : ∃ m', st_mgrs st' !! self = Some m'
                      ∧ _globals m' = _globals (with_handler method m)
                      ∧ _handlers m' = _handlers (with_handler method m)).
  { subst st'. unfold upd_mgr; simpl. rewrite list_lookup_alter.
    case_decide as Hr.
    - rewrite Hr, list_lookup_alter_eq, Hm. by eexists.
    - rewrite list_lookup_alter_eq, Hm. by eexists. }
  destruct Hm' as (m' & Hm' & Hg & Hh).
  assert (Hreg :
    if bool_decide (h_channel (hinfo method) = CStr "*")
    then method ∈ mgr_get _globals ∅ self st'
    else method ∈ default ∅ (mgr_get _handlers ∅ self st' !! "*")).
  { unfold mgr_get. rewrite Hm'. cbn [from_option]. rewrite Hg, Hh.
    unfold with_handler. rewrite Hnames. cbn [nonempty negb andb].
    case_bool_decide; simpl.
    - apply elem_of_union. right. by apply elem_of_singleton.
    - rewrite lookup_insert_eq. simpl.
      apply elem_of_union. right. by apply elem_of_singleton. }
  split; [|split; [done|]].
  - unfold removeHandler. rewrite Hnames. cbn [remove_each].
    unfold clear_root_cache. unfold bind, ret, gets, modify.
    cbn [w_state w_log]. do 2 f_equal.
    assert (Hr : root_of self st' = r).
    { subst st'. by rewrite !root_of_upd_mgr
        by first [done | apply root_with_handler]. }
    subst st'. rewrite Hr. by apply upd_mgr_idemp.
  - intros name.
    apply (own_handlers_in_getHandlers st' self name (CStr "*")).
    case_bool_decide.
    + by apply own_handlers_global.
    + unfold own_handlers. apply elem_of_union. left.
      apply elem_of_filter. split.
      * unfold accepts. by rewrite bool_decide_eq_true_2.
      * apply elem_of_union. by left.
Qed.

(** ** The component tree: queues, handlers and tick callables *)

Lemma mgr_get_upd_mgr {A} (f : Manager → A) d m m' g st :
  (∀ x, f (g x) = f x) → mgr_get f d m (upd_mgr m' g st) = mgr_get f d m st.
Proof.
  intros Hg. unfold mgr_get, upd_mgr; simpl. rewrite list_lookup_alter.
  case_decide as Hm; [|done]. subst m'.
  destruct (st_mgrs st !! m); simpl; [|done]. apply Hg.
Qed.

Lemma registerChild_run self component w :
  registerChild self component w
  = Ret tt (mkWorld (child_registered self component (w_state w)) (w_log w)).
Proof.
  unfold registerChild, child_registered, clear_root_cache, refresh_root_ticks.
  unfold bind, modify, gets. cbn [w_state w_log].
  rewrite !root_of_upd_mgr by done.
  by rewrite (mgr_get_upd_mgr _queue) by done.
Qed.

Lemma unregisterChild_run self component w :
  component ∈ mgr_get components ∅ self (w_state w) →
  unregisterChild self component w
  = Ret tt (mkWorld (child_unregistered self component (w_state w)) (w_log w)).
Proof.
  intros Hin.
  unfold unregisterChild, child_unregistered, clear_root_cache,
    refresh_root_ticks.
  unfold bind at 1, gets at 1. rewrite bool_decide_eq_true_2 by done.
  unfold bind, modify, gets. cbn [w_state w_log].
  by rewrite !root_of_upd_mgr by done.
Qed.


Lemma queue_of_upd_mgr_ne m m' g st :
  m' ≠ m → queue_of m (upd_mgr m' g st) = queue_of m st.
Proof.
  intros Hne. unfold queue_of, mgr_get, upd_mgr; simpl.
  by rewrite list_lookup_alter_ne.
Qed.

Lemma queue_of_upd_mgr_keep m m' g st :
  (∀ x, _queue (g x) = _queue x) →
  queue_of m (upd_mgr m' g st) = queue_of m st.
Proof. intros Hg. by apply (mgr_get_upd_mgr _queue). Qed.


Lemma upd_mgr_is_Some m g st x :
  is_Some (st_mgrs (upd_mgr m g st) !! x) ↔ is_Some (st_mgrs st !! x).
Proof.
  unfold upd_mgr; simpl. rewrite list_lookup_alter.
  case_decide; [subst; apply fmap_is_Some|done].
Qed.



(** ** Resolution over the tree

    [getHandlers] and [getTicks] visit [self] and everything below it.
    The bound on the depth of the recursion, the number of managers in the
    heap, loses nothing: whatever can be reached at all can be reached
    without passing a node twice. *)

Lemma getHandlers_at_collect d st self name ch :
  channel_is_instance ch = false →
  getHandlers_at d st self name ch
  = collect (λ c, own_handlers st c name ch) d st self.
Proof.
  intros Hch. revert self. induction d as [|d IH]; intros self.
  - by destruct ch.
  - destruct ch; [|done|]; simpl; f_equal; f_equal;
      apply list_fmap_ext; intros i c _; apply IH.
Qed.

Lemma getTicks_at_collect d st self :
  getTicks_at d st self = collect (λ c, mgr_get own_ticks ∅ c st) d st self.
Proof.
  revert self. induction d as [|d IH]; intros self; [done|].
  simpl. f_equal. f_equal. apply list_fmap_ext. intros i c _. apply IH.
Qed.

Lemma collect_within {A} `{Countable A} (own : mid → gset A) d st self x :
  x ∈ collect own d st self
  ↔ ∃ p c, length p ≤ d ∧ leads_to st self p c ∧ x ∈ own c.
Proof.
  revert self. induction d as [|d IH]; intros self; simpl.
  - rewrite elem_of_union, elem_of_empty. split.
    + intros [Hx|[]]. by exists [], self.
    + intros (p & c & Hlen & Hp & Hx). destruct p; [|simpl in Hlen; lia].
      simpl in Hp. subst c. by left.
  - rewrite elem_of_union, elem_of_union_list. split.
    + intros [Hx|(X & HX & Hx)].
      * exists [], self. split; [simpl; lia|done].
      * apply list_elem_of_fmap in HX as (k & -> & Hk%elem_of_elements).
        apply IH in Hx as (p & c & Hlen & Hp & Hx).
        exists (k :: p), c. split; [simpl; lia|]. by split.
    + intros (p & c & Hlen & Hp & Hx). destruct p as [|k p].
      * simpl in Hp. subst c. by left.
      * destruct Hp as [Hk Hp]. right.
        exists (collect own d st k). split.
        -- apply list_elem_of_fmap. exists k. split; [done|].
           by apply elem_of_elements.
        -- apply IH. exists p, c. split; [simpl in Hlen; lia|]. by split.
Qed.

Lemma leads_to_suffix st l1 : ∀ a q c v l2,
  leads_to st a q c → a :: q = l1 ++ v :: l2 → leads_to st v l2 c.
Proof.
  induction l1 as [|b l1 IH]; intros a q c v l2 Hq Heq; simpl in Heq.
  - by injection Heq as -> ->.
  - injection Heq as -> ->. destruct l1 as [|k l1]; simpl in *.
    + by destruct Hq.
    + destruct Hq as [_ Hq]. by eapply (IH k).
Qed.

Lemma leads_to_simple st p : ∀ self c,
  leads_to st self p c → ∃ p', leads_to st self p' c ∧ NoDup (self :: p').
Proof.
  induction p as [|k q IH]; intros self c Hp.
  - exists []. split; [done|]. apply NoDup_singleton.
  - destruct Hp as [Hk Hq]. apply IH in Hq as (p1 & Hp1 & Hnd).
    destruct (decide (self ∈ k :: p1)) as [Hin|Hout].
    + apply list_elem_of_split in Hin as (l1 & l2 & Heq).
      exists l2. split; [by eapply leads_to_suffix|].
      rewrite Heq in Hnd. by apply NoDup_app in Hnd as (_ & _ & Hnd).
    + exists (k :: p1). split; [done|]. by apply NoDup_cons.
Qed.

Lemma leads_to_sources st p : ∀ self c,
  leads_to st self p c →
  Forall (λ x, x < length (st_mgrs st)) (take (length p) (self :: p)).
Proof.
  induction p as [|k q IH]; intros self c Hp; [constructor|].
  destruct Hp as [Hk Hq]. cbn [length take]. constructor; [|by eapply IH].
  unfold mgr_get in Hk. destruct (st_mgrs st !! self) as [m|] eqn:Hm.
  - by eapply lookup_lt_Some.
  - by apply elem_of_empty in Hk.
Qed.

Lemma NoDup_bounded (l : list nat) n :
  NoDup l → Forall (λ x, x < n) l → length l ≤ n.
Proof.
  intros Hnd Hall. transitivity (length (seq 0 n)); [|by rewrite length_seq].
  apply submseteq_length, NoDup_submseteq; [done|].
  intros x Hx. apply elem_of_seq. rewrite Forall_forall in Hall.
  specialize (Hall x Hx). lia.
Qed.

Lemma leads_to_short st self p c :
  leads_to st self p c →
  ∃ p', leads_to st self p' c ∧ length p' ≤ length (st_mgrs st).
Proof.
  intros (p' & Hp' & Hnd)%leads_to_simple. exists p'. split; [done|].
  rewrite <- (length_take_le (self :: p') (length p')) by (simpl; lia).
  apply NoDup_bounded; [|by eapply leads_to_sources].
  eapply sublist_NoDup; [done|apply sublist_take].
Qed.

Lemma collect_subtree {A} `{Countable A} (own : mid → gset A) st self x :
  x ∈ collect own (length (st_mgrs st)) st self
  ↔ ∃ c, in_subtree st self c ∧ x ∈ own c.
Proof.
  rewrite collect_within. split.
  - intros (p & c & _ & Hp & Hx). exists c. split; [by exists p|done].
  - intros (c & [p Hp] & Hx).
    apply leads_to_short in Hp as (p' & Hp' & Hlen). by exists p', c.
Qed.

(** X8.  For an event on a string channel (or on none), [getHandlers] resolves
    exactly what [self] and the components anywhere below it hold for the
    event: the matching members of their "*" bucket and of the bucket of
    the event's name, and their globals. *)
Theorem getHandlers_resolves_the_subtree (st : State) (self : mid)
    (name : string) (ch : Channel) (h : hid) :
  channel_is_instance ch = false →
  h ∈ getHandlers st self name ch
  ↔ ∃ c, in_subtree st self c ∧ h ∈ own_handlers st c name ch.
Proof.
  intros Hch. unfold getHandlers. rewrite getHandlers_at_collect by done.
  apply collect_subtree.
Qed.

(** X9.  For an event whose channel is a component instance, [getHandlers]
    looks at that component alone, whoever is asked: at its "*" bucket,
    the bucket of the event's name, with no test of the handlers' channels,
    and at its globals; the components below it are not visited. *)
Theorem getHandlers_of_an_instance_channel (st : State) (self c : mid)
    (name : string) :
  getHandlers st self name (CMgr c)
  = default ∅ (mgr_get _handlers ∅ c st !! "*")
    ∪ default ∅ (mgr_get _handlers ∅ c st !! name)
    ∪ mgr_get _globals ∅ c st.
Proof.
  assert (Hown : own_handlers st c name (CMgr c)
                 = default ∅ (mgr_get _handlers ∅ c st !! "*")
                   ∪ default ∅ (mgr_get _handlers ∅ c st !! name)
                   ∪ mgr_get _globals ∅ c st).
  { unfold own_handlers. f_equal. apply set_eq. intros h.
    rewrite elem_of_filter. unfold accepts. simpl.
    rewrite !orb_true_r. split; [by intros [_ ?]|by intros ?]. }
  unfold getHandlers. destruct (length (st_mgrs st)); simpl;
    case_bool_decide as Hc; first [exact Hown | by subst self].
Qed.

Lemma leads_to_upd_mgr m g st self p c :
  (∀ x, components (g x) = components x) →
  leads_to (upd_mgr m g st) self p c ↔ leads_to st self p c.
Proof.
  intros Hg. revert self. induction p as [|k p IH]; intros self; simpl; [done|].
  by rewrite IH, (mgr_get_upd_mgr components) by done.
Qed.

Lemma in_subtree_upd_mgr m g st self c :
  (∀ x, components (g x) = components x) →
  in_subtree (upd_mgr m g st) self c ↔ in_subtree st self c.
Proof.
  intros Hg. unfold in_subtree. split; intros [p Hp]; exists p;
    by apply (leads_to_upd_mgr m g).
Qed.

Lemma getTicks_subtree st self f :
  f ∈ getTicks st self
  ↔ ∃ c, in_subtree st self c ∧ f ∈ mgr_get own_ticks ∅ c st.
Proof. unfold getTicks. rewrite getTicks_at_collect. apply collect_subtree. Qed.

Lemma ticks_refreshed r st f :
  is_Some (st_mgrs st !! r) →
  f ∈ mgr_get _ticks ∅ r (upd_mgr r (set_ticks (getTicks st r)) st)
  ↔ ∃ c, in_subtree (upd_mgr r (set_ticks (getTicks st r)) st) r c
         ∧ f ∈ mgr_get own_ticks ∅ c
                 (upd_mgr r (set_ticks (getTicks st r)) st).
Proof.
  intros [m Hm].
  assert (Ht : mgr_get _ticks ∅ r (upd_mgr r (set_ticks (getTicks st r)) st)
               = getTicks st r).
  { unfold mgr_get, upd_mgr; simpl. by rewrite list_lookup_alter_eq, Hm. }
  rewrite Ht, getTicks_subtree. split; intros (c & Hc & Hf); exists c.
  - split; [by apply in_subtree_upd_mgr|].
    by rewrite (mgr_get_upd_mgr own_ticks).
  - split; [by apply in_subtree_upd_mgr in Hc|].
    by rewrite (mgr_get_upd_mgr own_ticks) in Hf.
Qed.

(** X10.  [registerChild] and [unregisterChild] bring the tick set of the root up
    to date: when either returns, [root._ticks] holds exactly the tick
    callables of the root and of the components below it in the tree as
    it now is. *)
Theorem tree_change_refreshes_the_ticks (self component : mid)
    (w w' : World) (f : tickid) :
  let r := root_of self (w_state w) in
  is_Some (st_mgrs (w_state w) !! r) →
  registerChild self component w = Ret tt w'
  ∨ unregisterChild self component w = Ret tt w' →
  f ∈ mgr_get _ticks ∅ r (w_state w')
  ↔ ∃ c, in_subtree (w_state w') r c
         ∧ f ∈ mgr_get own_ticks ∅ c (w_state w').
Proof.
  intros r Hr [Hrun|Hrun].
  - rewrite registerChild_run in Hrun. injection Hrun as <-.
    cbn [w_state]. unfold child_registered. fold r.
    apply ticks_refreshed. by rewrite !upd_mgr_is_Some.
  - destruct (decide (component ∈ mgr_get components ∅ self (w_state w)))
      as [Hin|Hout].
    + rewrite unregisterChild_run in Hrun by done. injection Hrun as <-.
      cbn [w_state]. unfold child_unregistered. fold r.
      apply ticks_refreshed. by rewrite !upd_mgr_is_Some.
    + revert Hrun. unfold unregisterChild. unfold bind at 1, gets at 1.
      by rewrite bool_decide_eq_false_2 by done.
Qed.



(** ** The flush: which entries are dispatched, and in which order *)

Lemma dispatched_app l1 l2 :
  dispatched (l1 ++ l2) = dispatched l1 ++ dispatched l2.
Proof. unfold dispatched. apply omap_app. Qed.

Lemma dispatched_invocations event eargs hs :
  dispatched (invocations event eargs hs) = [].
Proof. by induction hs. Qed.

Lemma dispatch_loop_log self event eargs ekwargs handlers : ∀ error w,
  match dispatch_loop self event eargs ekwargs handlers error w with
  | Ret _ w' | Raise _ w' =>
      ∃ hs, w_log w' = w_log w ++ invocations event eargs hs
  | OutOfFuel => False
  end.
Proof.
  induction handlers as [|h rest IH]; intros error w; simpl.
  - exists []. by rewrite app_nil_r.
  - unfold bind at 1.
    pose proof (dispatch_step_log self event eargs ekwargs h error w) as Hstep.
    destruct (dispatch_step self event eargs ekwargs h error w)
      as [[error1 stop] w1|x w1|]; [| |done].
    + cbn [fst snd]. destruct stop.
      * exists [h]. by rewrite Hstep.
      * specialize (IH error1 w1).
        destruct (dispatch_loop self event eargs ekwargs rest error1 w1)
          as [a w2|x w2|]; [| |done];
          destruct IH as [hs Hlog]; exists (h :: hs);
          by rewrite Hlog, Hstep, <- app_assoc.
    + exists [h]. by rewrite Hstep.
Qed.

(** One dispatch records one entry, whether it returns or is interrupted. *)
Lemma _dispatcher_dispatched self event channels w :
  match _dispatcher self event channels w with
  | Ret _ w' | Raise _ w' =>
      dispatched (w_log w') = dispatched (w_log w) ++ [(event, channels)]
  | OutOfFuel => False
  end.
Proof.
  rewrite _dispatcher_run. cbv zeta. unfold bind at 1.
  set (eargs := event_get e_args [] event (w_state w)).
  set (ekwargs := event_get e_kwargs [] event (w_state w)).
  set (hs := handlers_for self event channels (w_state w)).
  pose proof (dispatch_loop_log self event eargs ekwargs hs None
                (loop_start self event channels w)) as Hloop.
  assert (Hstart : dispatched (w_log (loop_start self event channels w))
                   = dispatched (w_log w) ++ [(event, channels)]).
  { unfold loop_start. cbn [w_log]. by rewrite dispatched_app. }
  destruct (dispatch_loop self event eargs ekwargs hs None
              (loop_start self event channels w)) as [error w1|x w1|];
    [| |done]; destruct Hloop as [pre Hlog].
  - destruct (_eventDone_log self event error w1) as (st' & ->).
    cbn [w_log]. rewrite dispatched_app, Hlog, dispatched_app.
    rewrite dispatched_invocations, Hstart. cbn. by rewrite !app_nil_r.
  - rewrite Hlog, dispatched_app, dispatched_invocations, Hstart.
    by rewrite app_nil_r.
Qed.

Lemma dispatch_all_dispatched self q : ∀ w,
  match dispatch_all self q w with
  | Ret _ w' => dispatched (w_log w') = dispatched (w_log w) ++ q
  | Raise x w' =>
      ∃ q1 entry q2,
        q = q1 ++ entry :: q2
        ∧ dispatched (w_log w') = dispatched (w_log w) ++ q1 ++ [entry]
  | OutOfFuel => False
  end.
Proof.
  induction q as [|[event channels] q IH]; intros w; simpl.
  - by rewrite app_nil_r.
  - unfold bind at 1.
    pose proof (_dispatcher_dispatched self event channels w) as Hone.
    destruct (_dispatcher self event channels w) as [a w1|x w1|]; [| |done].
    + specialize (IH w1). destruct (dispatch_all self q w1) as [b w2|x w2|];
        [| |done].
      * rewrite IH, Hone. by rewrite <- app_assoc.
      * destruct IH as (q1 & entry & q2 & -> & Hlog).
        exists ((event, channels) :: q1), entry, q2. split; [done|].
        rewrite Hlog, Hone. by rewrite <- !app_assoc.
    + exists [], (event, channels), q. by split.
Qed.

Lemma flush_run self w :
  flush self w
  = dispatch_all (root_of self (w_state w))
      (queue_of (root_of self (w_state w)) (w_state w))
      (mkWorld (upd_mgr (root_of self (w_state w)) (set_queue []) (w_state w))
         (w_log w)).
Proof. reflexivity. Qed.

(** X12.  [flush] never fails to end, and it dispatches what was in the queue of
    the root when it was called, first in first out: the entries that are
    queued while it runs wait for the next flush.  It is left by an
    exception only when the dispatch of some entry raised a
    KeyboardInterrupt or a SystemExit, and then the entries up to that one
    have been dispatched, and none behind it. *)
Theorem flush_dispatches_what_was_queued (self : mid) (w : World) :
  let q := queue_of (root_of self (w_state w)) (w_state w) in
  match flush self w with
  | Ret _ w' => dispatched (w_log w') = dispatched (w_log w) ++ q
  | Raise x w' =>
      host_fatal x = true
      ∧ ∃ q1 entry q2,
          q = q1 ++ entry :: q2
          ∧ dispatched (w_log w') = dispatched (w_log w) ++ q1 ++ [entry]
  | OutOfFuel => False
  end.
Proof.
  intros q. pose proof (rof_flush self w) as Hfatal.
  rewrite flush_run in *. fold q in Hfatal |- *.
  set (w0 := mkWorld _ _) in *.
  pose proof (dispatch_all_dispatched
                (root_of self (w_state w)) q w0) as Hall.
  destruct (dispatch_all (root_of self (w_state w)) q w0) as [a w'|x w'|];
    [exact Hall| |done].
  split; [by eapply Hfatal|exact Hall].
Qed.

Lemma dispatch_all_app self q1 q2 w :
  dispatch_all self (q1 ++ q2) w
  = bind (dispatch_all self q1) (λ _, dispatch_all self q2) w.
Proof.
  revert w. induction q1 as [|[event channels] q1 IH]; intros w; [done|].
  simpl. rewrite bind_assoc.
  apply bind_ext. intros _ w1. apply IH.
Qed.

(** X13.  The entries behind an interrupted one are lost.  [_flush] has swapped
    the queue for an empty one before it dispatches the first entry, and
    nothing puts back what it has not come to: had more entries been
    waiting at the end of the queue, the interrupted flush would have
    ended in the very same world. *)
Theorem interrupted_flush_forgets_the_rest (self : mid) (w : World)
    (x : Exc) (w' : World) (more : list (eid * list Channel)) :
  _flush self w = Raise x w' →
  _flush self
    (mkWorld (upd_mgr self (λ m, set_queue (_queue m ++ more) m) (w_state w))
       (w_log w))
  = Raise x w'.
Proof.
  unfold _flush. unfold bind at 1 3, gets at 1 2.
  unfold bind at 1 2, modify at 1 2. cbn [w_state w_log].
  rewrite upd_mgr_upd_mgr.
  rewrite (upd_mgr_ext self (set_queue [] ∘ _) (set_queue [])) by done.
  unfold mgr_get, upd_mgr; simpl. rewrite list_lookup_alter_eq.
  destruct (st_mgrs (w_state w) !! self) as [m|]; simpl.
  - intros Hq. rewrite dispatch_all_app. unfold bind. by rewrite Hq.
  - done.
Qed.

(** X14.  An event that no handler is registered for still completes: the
    dispatch goes straight to [_eventDone] without an error, so that, with
    no task outstanding, Done and Success are fired for it as its flags
    ask. *)
Theorem unhandled_event_completes (self : mid) (event : eid)
    (channels : list Channel) (w : World) :
  let st := w_state w in
  let r := root_of self st in
  let cls := event_get e_class "" event st in
  is_Some (st_events st !! event) →
  is_Some (st_mgrs st !! r) →
  handlers_for self event channels st = [] →
  event_get waitingHandlers 0%Z event st = 0%Z →
  ∃ st' new,
    _dispatcher self event channels w
    = Ret tt (mkWorld st'
                (w_log w ++ [Dispatch event channels; EventDone event false]))
    ∧ queue_of r st' = queue_of r st ++ new
    ∧ entry_classes st' new
      = (if event_get e_alert_done false event st then [cls +:+ "Done"] else [])
        ++ (if event_get e_success false event st
            then [cls +:+ "Success"] else []).
Proof.
  intros st r cls He Hr Hnone Hwait.
  rewrite _dispatcher_run. cbv zeta. fold st. rewrite Hnone.
  cbn [dispatch_loop]. unfold bind, ret.
  set (w1 := loop_start self event channels w).
  assert (Hev : ∀ {A} (f : Event → A) d,
            event_get f d event (w_state w1) = event_get f d event st).
  { intros A f d. subst w1. unfold loop_start, cache_filled. cbn [w_state].
    fold st. by destruct (mgr_get _cache ∅ self st !! _). }
  assert (Hroot : root_of self (w_state w1) = r).
  { subst w1. unfold loop_start, cache_filled. cbn [w_state]. fold st.
    destruct (mgr_get _cache ∅ self st !! _); [done|].
    by apply root_of_upd_mgr. }
  assert (Hq : queue_of r (w_state w1) = queue_of r st).
  { subst w1. unfold loop_start, cache_filled. cbn [w_state]. fold st.
    destruct (mgr_get _cache ∅ self st !! _); [done|].
    by apply queue_of_upd_mgr_keep. }
  destruct (eventDone_gate self event None w1) as (st' & Hrun & _ & Hgate).
  - subst w1. unfold loop_start, cache_filled. cbn [w_state]. fold st.
    by destruct (mgr_get _cache ∅ self st !! _).
  - rewrite Hroot. subst w1. unfold loop_start, cache_filled. cbn [w_state].
    fold st. destruct (mgr_get _cache ∅ self st !! _); [done|].
    by apply upd_mgr_is_Some.
  - destruct Hgate as (new & Hnew & Hcls); [by rewrite Hev|].
    exists st', new. rewrite Hrun. split.
    { subst w1. unfold loop_start. cbn [w_log].
      rewrite bool_decide_eq_false_2 by (by intros H; apply H).
      by rewrite <- app_assoc. }
    rewrite Hroot, Hq in Hnew. split; [done|].
    rewrite Hcls, !Hev. by rewrite bool_decide_eq_true_2.
Qed.

(** ** Firing more than once *)

Lemma effective_channels_nonempty st self event channels :
  effective_channels st self event channels ≠ [].
Proof.
  unfold effective_channels. destruct channels; [|done].
  destruct (event_get e_channels [] event st); [|done].
  by destruct (mgr_get channel None self st).
Qed.

Lemma queue_of_fired self event channels st :
  is_Some (st_mgrs st !! root_of self st) →
  queue_of (root_of self st) (fired self event channels st)
  = queue_of (root_of self st) st
      ++ [(event, effective_channels st self event channels)].
Proof.
  intros [m Hm]. unfold queue_of, mgr_get. rewrite fired_mgrs.
  rewrite decide_True by done. by rewrite Hm.
Qed.

Lemma queue_of_fired_at self event channels st r :
  root_of self st = r →
  is_Some (st_mgrs st !! r) →
  queue_of r (fired self event channels st)
  = queue_of r st ++ [(event, effective_channels st self event channels)].
Proof. intros <-. apply queue_of_fired. Qed.

Lemma fired_is_Some self event channels st m :
  is_Some (st_mgrs (fired self event channels st) !! m)
  ↔ is_Some (st_mgrs st !! m).
Proof. rewrite fired_mgrs. case_decide; [apply fmap_is_Some|done]. Qed.

(** X15.  Events are dispatched in the order in which they were fired: after two
    calls of [fire] in the same tree, a flush that returns has dispatched
    what was queued before, then the first event, then the second, each on
    the channels its [fire] gave it. *)
Theorem events_are_dispatched_in_firing_order (self1 self2 self : mid)
    (e1 e2 : eid) (chs1 chs2 : list Channel) (w w' : World) :
  let st := w_state w in
  let r := root_of self st in
  let c1 := effective_channels st self1 e1 chs1 in
  let c2 := effective_channels (fired self1 e1 chs1 st) self2 e2 chs2 in
  is_Some (st_mgrs st !! r) →
  root_of self1 st = r →
  root_of self2 st = r →
  bind (fire self1 e1 chs1)
    (λ _, bind (fire self2 e2 chs2) (λ _, flush self)) w = Ret tt w' →
  dispatched (w_log w')
  = dispatched (w_log w) ++ queue_of r st ++ [(e1, c1); (e2, c2)].
Proof.
  intros st r c1 c2 Hr H1 H2. unfold bind at 1. rewrite fire_run.
  unfold bind at 1. rewrite fire_run. cbn [w_state w_log]. fold st.
  set (st1 := fired self1 e1 chs1 st).
  set (st2 := fired self2 e2 chs2 st1).
  intros Hrun.
  rewrite flush_run in Hrun. cbn [w_state w_log] in Hrun.
  pose proof (dispatch_all_dispatched (root_of self st2)
                (queue_of (root_of self st2) st2)
                (mkWorld (upd_mgr (root_of self st2) (set_queue []) st2)
                   (w_log w))) as Hflush.
  rewrite Hrun in Hflush. rewrite Hflush. cbn [w_state w_log]. f_equal.
  assert (Hr1 : ∀ m, root_of m st1 = root_of m st)
    by (intros m; apply root_of_fired).
  assert (Hr2 : ∀ m, root_of m st2 = root_of m st).
  { intros m. subst st2. by rewrite root_of_fired. }
  rewrite Hr2. fold r. subst st2.
  rewrite (queue_of_fired_at self2 e2 chs2 st1 r).
  - subst st1. rewrite (queue_of_fired_at self1 e1 chs1 st r) by done.
    by rewrite <- app_assoc.
  - by rewrite Hr1.
  - by apply fired_is_Some.
Qed.

(** X16.  An event that is fired a second time, without channels, goes to the
    channels of its first firing, whichever component fires it now: [fire]
    has stored them in the event.  And the event then points to the Value
    of the second firing; the one its first [fire] returned is no longer
    the event's. *)
Theorem refired_event_keeps_its_channels (self1 self2 : mid) (event : eid)
    (channels : list Channel) (w : World) :
  let st := w_state w in
  let c1 := effective_channels st self1 event channels in
  let v := length (st_values st) in
  is_Some (st_events st !! event) →
  is_Some (st_mgrs st !! root_of self2 st) →
  ∃ st',
    bind (fire self1 event channels) (λ _, fire self2 event []) w
    = Ret (S v) (mkWorld st' (w_log w))
    ∧ event_get e_channels [] event st' = c1
    ∧ last (queue_of (root_of self2 st) st') = Some (event, c1)
    ∧ event_get e_value None event st' = Some (S v).
Proof.
  intros st c1 v [ev Hev] Hr. unfold bind. rewrite fire_run, fire_run.
  cbn [w_state w_log]. fold st. set (st1 := fired self1 event channels st).
  assert (Hc1 : event_get e_channels [] event st1 = c1).
  { unfold event_get. subst st1. rewrite fired_events, decide_True by done.
    by rewrite Hev. }
  assert (Heff : effective_channels st1 self2 event [] = c1).
  { unfold effective_channels at 1. rewrite Hc1.
    pose proof (effective_channels_nonempty st self1 event channels) as Hne.
    fold c1 in Hne. by destruct c1. }
  assert (Hev1 : is_Some (st_events st1 !! event)).
  { subst st1. rewrite fired_events, decide_True by done.
    by apply fmap_is_Some. }
  destruct Hev1 as [ev1 Hev1].
  eexists. split.
  { f_equal. subst st1. rewrite fired_values, length_app. simpl. lia. }
  split; [|split].
  - unfold event_get. rewrite fired_events, decide_True by done.
    rewrite Hev1. simpl. exact Heff.
  - rewrite (queue_of_fired_at self2 event [] st1 (root_of self2 st)).
    + by rewrite last_snoc, Heff.
    + subst st1. apply root_of_fired.
    + by apply fired_is_Some.
  - unfold event_get. rewrite fired_events, decide_True by done.
    rewrite Hev1. simpl. f_equal. subst st1 v.
    rewrite ?fired_values, length_app. simpl. lia.
Qed.

(** ** Tasks: exhaustion of a nested generator, and failure *)

(** X17.  A nested generator that is exhausted is not taken out of the task set.
    It was registered as [(event, task, parent)]; [processTask] removes
    [(event, task)], which is another tuple.  So the parent is back in the
    set, the counter has gone down by one, and the exhausted generator is
    still there, to be advanced again by the next tick. *)
Theorem exhausted_nested_task_stays_registered (self : mid) (event : eid)
    (task parent : gid) (fuel : nat) (w : World) (x : Exc) (st1 : State) :
  gen_next task (w_state w) = (Throws x, st1) →
  exc_type x = StopIteration →
  is_Some (st_events st1 !! event) →
  is_Some (st_mgrs st1 !! self) →
  (event, task, Some parent) ∈ tasks_of self st1 →
  ∃ st' log',
    processTask (S fuel) self event task (Some parent) w
    = Ret tt (mkWorld st' log')
    ∧ (event, task, Some parent) ∈ tasks_of self st'
    ∧ (event, parent, None) ∈ tasks_of self st'
    ∧ waiting event st' = (waiting event st1 - 1)%Z.
Proof.
  intros Hnext Hx He Hm Hin.
  rewrite (processTask_unfold _ _ _ _ _ _ _ _ Hnext), Hx.
  rewrite task_exhausted_run by done. eexists _, _. split; [done|].
  cbn [w_state]. rewrite task_exhausted_state_tasks by done.
  split; [|split].
  - apply elem_of_union. left. apply elem_of_difference. split; [done|].
    by intros [=]%elem_of_singleton.
  - apply elem_of_union. right. by apply elem_of_singleton.
  - by apply task_exhausted_state_waiting.
Qed.

Lemma task_failed_run self event task x w :
  is_Some (st_events (w_state w) !! event) →
  task_failed self event task x w
  = Ret tt (mkWorld (task_failed_state self event task x (w_state w))
              (w_log w)).
Proof.
  intros He. destruct w as [st log]. cbn [w_state w_log] in *.
  unfold task_failed, task_failed_state, unregisterTask.
  unfold bind at 1, modify at 1. unfold bind at 1, modify at 1.
  unfold bind at 1, modify at 1. unfold bind at 1, modify at 1.
  unfold bind at 1, gets at 1. cbn [w_state w_log]. unfold bind at 1.
  fold (del_task (event, task, None)).
  destruct (event_get e_failure false event _).
  - rewrite fire_lifecycle_run
      by (cbn [w_state]; by rewrite !upd_event_value_events).
    cbn [w_state w_log]. unfold bind at 1. rewrite create_run.
    unfold bind at 1. by rewrite fire_run.
  - unfold ret at 1. unfold bind at 1. rewrite create_run.
    unfold bind at 1. by rewrite fire_run.
Qed.

(** X18.  An exception out of a generator never leaves [processTask], not even a
    KeyboardInterrupt or a SystemExit: the bare [except:] takes it.  The
    task is removed, the counter of the event is left as it was, the value
    of the event is marked with [errors] and its observers are informed,
    and the queue of the root gains a Failure event (when [event.failure]
    is set) and an Error event. *)
Theorem task_exception_is_reported_not_raised (self : mid) (event : eid)
    (task : gid) (parent : option gid) (fuel : nat) (w : World) (x : Exc)
    (st1 : State) (v : vid) (val : Value) :
  let r := root_of self st1 in
  let cls := event_get e_class "" event st1 in
  gen_next task (w_state w) = (Throws x, st1) →
  exc_type x ≠ StopIteration →
  is_Some (st_events st1 !! event) →
  is_Some (st_mgrs st1 !! self) →
  is_Some (st_mgrs st1 !! r) →
  event_get e_value None event st1 = Some v →
  st_values st1 !! v = Some val →
  ∃ st' new,
    processTask (S fuel) self event task parent w
    = Ret tt (mkWorld st' (w_log w ++ [Advance event task]))
    ∧ tasks_of self st' = tasks_of self st1 ∖ {[(event, task, None)]}
    ∧ waiting event st' = waiting event st1
    ∧ st_values st' !! v
      = Some (inform (set_v_errors true (set_v_value PNone val)))
    ∧ queue_of r st' = queue_of r st1 ++ new
    ∧ entry_classes st' new
      = (if event_get e_failure false event st1
         then [cls +:+ "Failure"] else []) ++ ["Error"].
Proof.
  intros r cls Hnext Hx He Hm Hr Hv Hval.
  rewrite (processTask_unfold _ _ _ _ _ _ _ _ Hnext).
  assert (Hrun : (match exc_type x with
                  | StopIteration => task_exhausted self event task parent
                  | _ => task_failed self event task x
                  end) = task_failed self event task x)
    by by destruct (exc_type x).
  rewrite Hrun, task_failed_run by done. cbn [w_state w_log].
  unfold task_failed_state.
  set (st0 := upd_mgr self (del_task (event, task, None)) st1).
  set (sta := upd_event_value event inform
                (upd_event_value event (set_v_errors true)
                   (upd_event_value event (set_v_value PNone) st0))).
  assert (Hev_a : st_events sta = st_events st1)
    by (subst sta; by rewrite !upd_event_value_events).
  assert (Hmg_a : st_mgrs sta = st_mgrs st0)
    by (subst sta; by rewrite !upd_event_value_mgrs).
  assert (Hget_a : ∀ {A} (f : Event → A) d e,
            event_get f d e sta = event_get f d e st1).
  { intros A f d e. unfold event_get. by rewrite Hev_a. }
  assert (Hroot_a : root_of self sta = r).
  { unfold root_of, mgr_get. rewrite Hmg_a.
    by apply (root_of_upd_mgr self (del_task (event, task, None)) st1 self). }
  assert (Hq_a : queue_of r sta = queue_of r st1).
  { unfold queue_of, mgr_get. rewrite Hmg_a.
    by apply (mgr_get_upd_mgr _queue). }
  assert (Hr_a : is_Some (st_mgrs sta !! r)).
  { rewrite Hmg_a. by apply upd_mgr_is_Some. }
  assert (Ht_a : tasks_of self sta
                 = tasks_of self st1 ∖ {[(event, task, None)]}).
  { unfold tasks_of, mgr_get. rewrite Hmg_a.
    by apply (tasks_of_upd_mgr_tasks self (λ X, X ∖ {[(event, task, None)]})). }
  assert (Hval_a : st_values sta !! v
                   = Some (inform (set_v_errors true (set_v_value PNone val)))).
  { subst sta.
    rewrite (values_upd_event_value event inform _ v)
      by by rewrite !event_get_upd_event_value.
    rewrite (values_upd_event_value event (set_v_errors true) _ v)
      by by rewrite !event_get_upd_event_value.
    rewrite (values_upd_event_value event (set_v_value PNone) _ v) by done.
    rewrite !list_lookup_alter_eq.
    change (st_values st0) with (st_values st1). by rewrite Hval. }
  rewrite Hget_a. clearbody sta. clear st0 Hmg_a.
  set (args := error_args x [PObj 0]).
  destruct (event_get e_failure false event st1) eqn:Hf.
  - set (stb := lifecycle_fired self event "Failure" (λ _, error_triple x) sta).
    assert (Hlenb : length (st_events stb) = S (length (st_events sta)))
      by apply lifecycle_fired_events_length.
    assert (Hroot_b : root_of self stb = r)
      by (subst stb; by rewrite root_of_lifecycle_fired).
    assert (Hq_b : queue_of r stb
                   = queue_of r st1
                       ++ [(length (st_events sta),
                            lifecycle_channels self event sta)]).
    { subst stb. rewrite <- Hroot_a at 1.
      rewrite queue_of_lifecycle_fired by by rewrite Hroot_a.
      by rewrite Hroot_a, Hq_a. }
    assert (Hr_b : is_Some (st_mgrs stb !! r)).
    { subst stb. rewrite lifecycle_fired_mgrs.
      case_decide; [by apply fmap_is_Some|done]. }
    eexists _, [_; _]. split; [done|]. split; [|split; [|split; [|split]]].
    + unfold tasks_of. rewrite mgr_get_created_fired by done.
      subst stb. fold (tasks_of self (lifecycle_fired self event "Failure"
                                        (λ _, error_triple x) sta)).
      by rewrite tasks_of_lifecycle_fired.
    + unfold waiting. rewrite event_get_created_fired.
      * subst stb. rewrite event_get_lifecycle_fired by by rewrite Hev_a.
        apply Hget_a.
      * subst stb. rewrite lifecycle_fired_events_old;
          [by rewrite Hev_a|]. apply lookup_lt_is_Some. by rewrite Hev_a.
    + rewrite created_fired_values. apply lookup_app_l_Some.
      subst stb. unfold lifecycle_fired. rewrite created_fired_values.
      by apply lookup_app_l_Some.
    + rewrite <- Hroot_b at 1. rewrite queue_of_created_fired
        by by rewrite Hroot_b.
      rewrite Hroot_b, Hq_b. by rewrite <- app_assoc.
    + unfold entry_classes. cbn [fmap list_fmap fst app]. f_equal; [|f_equal].
      * rewrite event_get_created_fired.
        -- subst stb. rewrite class_of_lifecycle_fired. by rewrite Hget_a.
        -- apply lookup_lt_is_Some. lia.
      * unfold event_get. by rewrite created_fired_events_new.
  - eexists _, [_]. split; [done|]. split; [|split; [|split; [|split]]].
    + unfold tasks_of. by rewrite mgr_get_created_fired.
    + unfold waiting. rewrite event_get_created_fired by by rewrite Hev_a.
      apply Hget_a.
    + rewrite created_fired_values. by apply lookup_app_l_Some.
    + rewrite <- Hroot_a at 1. rewrite queue_of_created_fired
        by by rewrite Hroot_a.
      by rewrite Hroot_a, Hq_a.
    + unfold entry_classes. cbn [fmap list_fmap fst app].
      unfold event_get. by rewrite created_fired_events_new.
Qed.

(** ** The trace of a dispatch *)

(** The [break] is taken at filters only. *)
Lemma dispatch_step_break self event eargs ekwargs handler error w error' w' :
  dispatch_step self event eargs ekwargs handler error w
  = Ret (error', true) w' →
  h_filter (hinfo handler) = true.
Proof.
  unfold dispatch_step.
  intros (a1 & w1 & _ & H)%bind_Ret_inv.
  apply bind_Ret_inv in H as (a2 & w2 & _ & H).
  apply bind_Ret_inv in H as (outcome & w3 & _ & H).
  apply bind_Ret_inv in H as (ve & w4 & _ & H).
  apply bind_Ret_inv in H as (a5 & w5 & _ & H).
  apply bind_Ret_inv in H as (stop & w6 & Hstop & H).
  injection H as _ Hs _. injection Hstop as Hstop _.
  rewrite Hs in Hstop. by apply andb_true_iff in Hstop as [_ ?].
Qed.

Lemma dispatch_loop_trace self event eargs ekwargs handlers : ∀ error w,
  match dispatch_loop self event eargs ekwargs handlers error w with
  | Ret _ w' =>
      ∃ pre post,
        handlers = pre ++ post
        ∧ w_log w' = w_log w ++ invocations event eargs pre
        ∧ (post ≠ [] → ∃ h, last pre = Some h ∧ h_filter (hinfo h) = true)
  | Raise _ w' =>
      ∃ pre post,
        handlers = pre ++ post
        ∧ pre ≠ []
        ∧ w_log w' = w_log w ++ invocations event eargs pre
  | OutOfFuel => False
  end.
Proof.
  induction handlers as [|h rest IH]; intros error w; simpl.
  - exists [], []. split; [done|]. split; [by rewrite app_nil_r|done].
  - unfold bind at 1.
    pose proof (dispatch_step_log self event eargs ekwargs h error w) as Hlog.
    destruct (dispatch_step self event eargs ekwargs h error w)
      as [[error1 stop] w1|x w1|] eqn:Hstep; [| |done].
    + cbn [fst snd]. destruct stop.
      * exists [h], rest. split; [done|]. split; [done|]. intros _.
        exists h. split; [done|]. by eapply dispatch_step_break.
      * specialize (IH error1 w1).
        destruct (dispatch_loop self event eargs ekwargs rest error1 w1)
          as [a w2|x w2|]; [| |done].
        -- destruct IH as (pre & post & -> & Hlog2 & Hbreak).
           exists (h :: pre), post. split; [done|]. split.
           { rewrite Hlog2, Hlog. by rewrite <- app_assoc. }
           intros Hpost. destruct (Hbreak Hpost) as (h' & Hlast & Hf).
           exists h'. split; [|done]. rewrite last_cons. by rewrite Hlast.
        -- destruct IH as (pre & post & -> & Hne & Hlog2).
           exists (h :: pre), post. split; [done|]. split; [done|].
           rewrite Hlog2, Hlog. by rewrite <- app_assoc.
    + exists [h], rest. by split.
Qed.

(** X19.  A dispatch calls the handlers in the order of its list, without
    leaving one out: what it has called when it ends is an initial part of
    the list.  It is the whole list unless the last handler called is a
    filter (which then has returned a true value or failed) or an
    interrupt has escaped.  [_eventDone] closes every dispatch that
    returns, and none that is interrupted; only a KeyboardInterrupt or a
    SystemExit interrupts one. *)
Theorem dispatch_calls_an_initial_part_of_its_list (self : mid) (event : eid)
    (channels : list Channel) (w : World) :
  let hs := handlers_for self event channels (w_state w) in
  let eargs := event_get e_args [] event (w_state w) in
  match _dispatcher self event channels w with
  | Ret _ w' =>
      ∃ pre post err,
        hs = pre ++ post
        ∧ w_log w' = w_log w ++ [Dispatch event channels]
                       ++ invocations event eargs pre ++ [EventDone event err]
        ∧ (post ≠ [] → ∃ h, last pre = Some h ∧ h_filter (hinfo h) = true)
  | Raise x w' =>
      host_fatal x = true
      ∧ ∃ pre post,
          hs = pre ++ post
          ∧ pre ≠ []
          ∧ w_log w' = w_log w ++ [Dispatch event channels]
                         ++ invocations event eargs pre
  | OutOfFuel => False
  end.
Proof.
  intros hs eargs. pose proof (rof__dispatcher self event channels w) as Hfatal.
  rewrite _dispatcher_run in *. cbv zeta in *. fold hs eargs in Hfatal |- *.
  unfold bind in *.
  pose proof (dispatch_loop_trace self event eargs
                (event_get e_kwargs [] event (w_state w)) hs None
                (loop_start self event channels w)) as Htrace.
  destruct (dispatch_loop self event eargs _ hs None
              (loop_start self event channels w)) as [error w1|x w1|];
    [| |done].
  - destruct Htrace as (pre & post & Hhs & Hlog & Hbreak).
    destruct (_eventDone_log self event error w1) as (st' & ->).
    exists pre, post, (bool_decide (error ≠ None)). split; [done|].
    split; [|done]. cbn [w_log]. rewrite Hlog. unfold loop_start.
    cbn [w_log]. by rewrite <- !app_assoc.
  - destruct Htrace as (pre & post & Hhs & Hne & Hlog).
    split; [by eapply Hfatal|]. exists pre, post. split; [done|].
    split; [done|]. rewrite Hlog. unfold loop_start. cbn [w_log].
    by rewrite <- !app_assoc.
Qed.

(** ** The handler registry: removal by name, and empty buckets *)

Lemma handlers_upd_mgr m m' g st :
  (∀ x, _handlers (g x) = _handlers x) →
  mgr_get _handlers ∅ m (upd_mgr m' g st) = mgr_get _handlers ∅ m st.
Proof. intros Hg. by apply (mgr_get_upd_mgr _handlers). Qed.

Lemma clear_root_cache_run self w :
  clear_root_cache self w
  = Ret tt (mkWorld (upd_mgr (root_of self (w_state w)) (set_cache ∅)
                       (w_state w)) (w_log w)).
Proof. reflexivity. Qed.

(** X20.  [removeHandler(f, event)] takes the handler out of the bucket of
    that one name and leaves it where else it is: the buckets of all other
    names and the globals of [self] are as before, and the bucket of the
    name is gone if the handler was its last member. *)
Theorem removeHandler_of_one_name_keeps_the_others (self : mid) (method : hid)
    (name : string) (w : World) :
  registered_under self method [name] (w_state w) →
  ∃ w',
    removeHandler self method (Some name) w = Ret tt w'
    ∧ (∀ bucket, mgr_get _handlers ∅ self (w_state w') !! name = Some bucket →
                 bucket ≠ ∅ ∧ method ∉ bucket)
    ∧ (∀ name', name' ≠ name →
         mgr_get _handlers ∅ self (w_state w') !! name'
         = mgr_get _handlers ∅ self (w_state w) !! name')
    ∧ mgr_get _globals ∅ self (w_state w')
      = mgr_get _globals ∅ self (w_state w).
Proof.
  intros [_ Hreg]. destruct (Hreg name) as (bucket & Hb & Hin); [by left|].
  assert (Hself : ∃ m, st_mgrs (w_state w) !! self = Some m
                       ∧ _handlers m !! name = Some bucket).
  { unfold mgr_get in Hb. destruct (st_mgrs (w_state w) !! self) as [m|].
    - by exists m.
    - simpl in Hb. by rewrite lookup_empty in Hb. }
  destruct Hself as (m & Hm & Hbm).
  unfold removeHandler. cbn [remove_each]. unfold bind at 1. unfold bind at 1.
  rewrite (bucket_remove_run self name method w m bucket Hm Hbm Hin).
  unfold ret at 1. rewrite clear_root_cache_run. cbn [w_state w_log].
  eexists. split; [done|]. cbn [w_state].
  set (buckets' := if bool_decide (bucket ∖ {[method]} = ∅)
                   then delete name (_handlers m)
                   else <[name := bucket ∖ {[method]}]> (_handlers m)).
  assert (Hh : mgr_get _handlers ∅ self
                 (upd_mgr (root_of self (upd_mgr self (set_handlers buckets')
                                           (w_state w)))
                    (set_cache ∅)
                    (upd_mgr self (set_handlers buckets') (w_state w)))
               = buckets').
  { rewrite handlers_upd_mgr by done. unfold mgr_get, upd_mgr; simpl.
    by rewrite list_lookup_alter_eq, Hm. }
  rewrite Hh. split; [|split].
  - intros b. subst buckets'. case_bool_decide as Hempty.
    + by rewrite lookup_delete_eq.
    + rewrite lookup_insert_eq. intros [= <-]. split; [done|].
      rewrite elem_of_difference, elem_of_singleton. by intros [_ Hne].
  - intros name' Hne. unfold mgr_get at 1. rewrite Hm. cbn [from_option].
    subst buckets'. case_bool_decide;
      [by rewrite lookup_delete_ne|by rewrite lookup_insert_ne].
  - rewrite !(mgr_get_upd_mgr _globals) by done. done.
Qed.

Lemma buckets_nonempty_upd_mgr m m' g st :
  (∀ x, _handlers (g x) = _handlers x) →
  buckets_nonempty m st → buckets_nonempty m (upd_mgr m' g st).
Proof.
  intros Hg Hst name bucket. rewrite handlers_upd_mgr by done. apply Hst.
Qed.

Lemma buckets_nonempty_set m m' (f : gmap string (gset hid) → gmap string (gset hid)) st :
  (∀ buckets, (∀ name bucket, buckets !! name = Some bucket → bucket ≠ ∅) →
              ∀ name bucket, f buckets !! name = Some bucket → bucket ≠ ∅) →
  buckets_nonempty m st →
  buckets_nonempty m (upd_mgr m' (λ x, set_handlers (f (_handlers x)) x) st).
Proof.
  intros Hf Hst name bucket. unfold mgr_get, upd_mgr; simpl.
  rewrite list_lookup_alter. case_decide as Hm; [|apply Hst]. subst m'.
  unfold buckets_nonempty, mgr_get in Hst.
  destruct (st_mgrs st !! m) as [x|]; simpl in *; [|apply Hst].
  by apply Hf.
Qed.

Lemma bucket_add_nonempty method (buckets : gmap string (gset hid)) n :
  (∀ name bucket, buckets !! name = Some bucket → bucket ≠ ∅) →
  ∀ name bucket,
    <[n := default ∅ (buckets !! n) ∪ {[method]}]> buckets !! name
    = Some bucket → bucket ≠ ∅.
Proof.
  intros Hb name bucket. destruct (decide (name = n)) as [->|Hne].
  - rewrite lookup_insert_eq. intros [= <-] Hempty.
    apply (not_elem_of_empty (C:=gset hid) method). rewrite <- Hempty.
    apply elem_of_union. right. by apply elem_of_singleton.
  - rewrite lookup_insert_ne by done. apply Hb.
Qed.

Lemma buckets_with_nonempty method names : ∀ (buckets : gmap string (gset hid)),
  (∀ name bucket, buckets !! name = Some bucket → bucket ≠ ∅) →
  ∀ name bucket,
    buckets_with method names buckets !! name = Some bucket → bucket ≠ ∅.
Proof.
  induction names as [|n names IH]; intros buckets Hb; [done|].
  unfold buckets_with. cbn [foldl]. apply IH. by apply bucket_add_nonempty.
Qed.

Lemma buckets_nonempty_bucket_remove self name method m w :
  buckets_nonempty m (w_state w) →
  match bucket_remove self name method w with
  | Ret _ w' | Raise _ w' => buckets_nonempty m (w_state w')
  | OutOfFuel => True
  end.
Proof.
  intros Hst. unfold bucket_remove. unfold bind at 1, gets at 1.
  destruct (mgr_get _handlers ∅ self (w_state w) !! name) as [bucket|];
    [|done].
  case_bool_decide; [|done]. case_bool_decide as Hempty; cbn [w_state].
  - apply (buckets_nonempty_set m self (delete name)); [|done].
    intros buckets Hb n b. destruct (decide (n = name)) as [->|Hne].
    + by rewrite lookup_delete_eq.
    + rewrite lookup_delete_ne by done. apply Hb.
  - apply (buckets_nonempty_set m self (insert name (bucket ∖ {[method]})));
      [|done].
    intros buckets Hb n b. destruct (decide (n = name)) as [->|Hne].
    + rewrite lookup_insert_eq. by intros [= <-].
    + rewrite lookup_insert_ne by done. apply Hb.
Qed.

Lemma buckets_nonempty_remove_each self names method m : ∀ w,
  buckets_nonempty m (w_state w) →
  match remove_each self names method w with
  | Ret _ w' | Raise _ w' => buckets_nonempty m (w_state w')
  | OutOfFuel => True
  end.
Proof.
  induction names as [|name names IH]; intros w Hst; [done|].
  cbn [remove_each]. unfold bind at 1.
  pose proof (buckets_nonempty_bucket_remove self name method m w Hst) as H1.
  destruct (bucket_remove self name method w) as [a w1|x w1|]; [|done..].
  by apply IH.
Qed.

(** X21.  The registry never stores an empty bucket.  Whatever
    [addHandler], [removeHandler], [registerChild] or [unregisterChild] is
    called with, and whether the call returns or raises, a manager none of
    whose buckets was empty before has none that is empty after: a bucket
    is made with its first handler and deleted with its last. *)
Theorem no_bucket_is_stored_empty (op : TreeOp) (m : mid) (w : World) :
  buckets_nonempty m (w_state w) →
  match run_op op w with
  | Ret _ w' | Raise _ w' => buckets_nonempty m (w_state w')
  | OutOfFuel => True
  end.
Proof.
  intros Hst. destruct op as [self method|self method event|self c|self c];
    cbn [run_op].
  - rewrite addHandler_run. cbn [w_state].
    apply buckets_nonempty_upd_mgr; [done|].
    unfold with_handler.
    destruct (negb (nonempty (h_names (hinfo method))) && _).
    + by apply buckets_nonempty_upd_mgr.
    + destruct (negb (nonempty (h_names (hinfo method)))).
      * apply (buckets_nonempty_set m self
                 (λ b, <["*" := default ∅ (b !! "*") ∪ {[method]}]> b));
          [|done].
        intros buckets Hb. by apply bucket_add_nonempty.
      * apply (buckets_nonempty_set m self
                 (buckets_with method (h_names (hinfo method)))); [|done].
        intros buckets Hb. by apply buckets_with_nonempty.
  - unfold removeHandler. unfold bind at 1.
    pose proof (buckets_nonempty_remove_each self
                  (match event with
                   | Some name => [name]
                   | None => h_names (hinfo method)
                   end) method m w Hst) as H1.
    destruct (remove_each self _ method w) as [a w1|x w1|]; [|done..].
    rewrite clear_root_cache_run. cbn [w_state].
    by apply buckets_nonempty_upd_mgr.
  - rewrite registerChild_run. cbn [w_state]. unfold child_registered.
    by repeat (apply buckets_nonempty_upd_mgr; [done|]).
  - unfold unregisterChild. unfold bind at 1, gets at 1.
    case_bool_decide; [|done]. unfold bind at 1, modify at 1.
    unfold bind at 1. rewrite clear_root_cache_run.
    unfold refresh_root_ticks, bind, gets, modify. cbn [w_state w_log].
    by repeat (apply buckets_nonempty_upd_mgr; [done|]).
Qed.

(** ** Where a tick dispatches *)

Lemma dn_quiet {A} (c : M A) : quiet c → dispatches_nothing c.
Proof. intros Hq w. by destruct (Hq w) as (a & st' & ->). Qed.

Lemma dn_bind {A B} (c : M A) (k : A → M B) :
  dispatches_nothing c → (∀ a, dispatches_nothing (k a)) →
  dispatches_nothing (bind c k).
Proof.
  intros Hc Hk w. specialize (Hc w). unfold bind.
  destruct (c w) as [a w1|x w1|]; [|done..].
  specialize (Hk a w1). destruct (k a w1); [| |done]; by rewrite Hk.
Qed.

Lemma dn_emit a :
  (∀ e chs, a ≠ Dispatch e chs) → dispatches_nothing (emit a).
Proof.
  intros Ha w. unfold emit. cbn [w_log]. rewrite dispatched_app.
  destruct a; try by rewrite app_nil_r. by destruct (Ha e chs).
Qed.

Lemma dn__eventDone self event error :
  dispatches_nothing (_eventDone self event error).
Proof.
  intros w. destruct (_eventDone_log self event error w) as (st' & ->).
  cbn [w_log]. rewrite dispatched_app. by rewrite app_nil_r.
Qed.

Lemma dn_task_exhausted self event task parent :
  dispatches_nothing (task_exhausted self event task parent).
Proof.
  unfold task_exhausted, unregisterTask, registerTask.
  apply dn_bind; [apply dn_quiet, quiet_modify|intros _].
  apply dn_bind; [destruct parent; apply dn_quiet; solve_quiet|intros _].
  apply dn_bind; [apply dn_quiet, quiet_modify|intros _].
  apply dn_bind; [apply dn_quiet, quiet_gets|intros waiting].
  destruct (waiting =? 0)%Z; [|apply dn_quiet, quiet_ret].
  apply dn_bind; [apply dn_quiet, quiet_modify|intros _].
  apply dn__eventDone.
Qed.

Lemma dn_task_failed self event task x :
  dispatches_nothing (task_failed self event task x).
Proof.
  apply dn_quiet. unfold task_failed, unregisterTask.
  solve_quiet; apply quiet_fire_lifecycle.
Qed.

Lemma dn_processTask fuel self event : ∀ task parent,
  dispatches_nothing (processTask fuel self event task parent).
Proof.
  induction fuel as [|fuel IH]; intros task parent; [by intros w|].
  cbn [processTask].
  apply dn_bind; [by apply dn_emit|intros _].
  apply dn_bind; [apply dn_quiet, quiet_opaque|intros out].
  destruct out as [value|x].
  - destruct (as_generator value) as [g|].
    + apply dn_bind; [|intros _; apply IH].
      apply dn_quiet. unfold task_spawned, registerTask, unregisterTask.
      solve_quiet.
    + destruct (is_not_None value); apply dn_quiet; solve_quiet.
  - destruct (exc_type x);
      first [apply dn_task_exhausted | apply dn_task_failed].
Qed.

Lemma dn_run_tasks fuel self ts :
  dispatches_nothing (run_tasks fuel self ts).
Proof.
  induction ts as [|[[event task] parent] ts IH]; [by intros w|].
  cbn [run_tasks]. apply dn_bind; [apply dn_processTask|by intros _].
Qed.

Lemma dn_run_ticks self fs : dispatches_nothing (run_ticks self fs).
Proof.
  induction fs as [|f fs IH]; [by intros w|]. cbn [run_ticks].
  apply dn_bind; [by apply dn_emit|intros _].
  apply dn_bind; [apply dn_quiet, quiet_opaque|intros outcome].
  apply dn_bind; [|by intros _].
  destruct outcome as [v|x]; [apply dn_quiet, quiet_ret|].
  destruct (host_fatal x); [by intros w|].
  apply dn_quiet. solve_quiet.
Qed.

Lemma dm_nothing {A} (c : M A) : dispatches_nothing c → dispatches_more c.
Proof.
  intros Hc w. specialize (Hc w).
  destruct (c w); [| |done]; exists []; by rewrite app_nil_r.
Qed.

Lemma dm_bind {A B} (c : M A) (k : A → M B) :
  dispatches_more c → (∀ a, dispatches_more (k a)) →
  dispatches_more (bind c k).
Proof.
  intros Hc Hk w. specialize (Hc w). unfold bind.
  destruct (c w) as [a w1|x w1|]; [|done..]. destruct Hc as [more1 H1].
  specialize (Hk a w1). destruct (k a w1); [| |done];
    destruct Hk as [more2 H2]; exists (more1 ++ more2);
    by rewrite H2, H1, <- app_assoc.
Qed.

Lemma dm_flush self : dispatches_more (flush self).
Proof.
  intros w. rewrite flush_run.
  pose proof (dispatch_all_dispatched (root_of self (w_state w))
                (queue_of (root_of self (w_state w)) (w_state w))
                (mkWorld (upd_mgr (root_of self (w_state w)) (set_queue [])
                            (w_state w)) (w_log w))) as Hall.
  destruct (dispatch_all _ _ _) as [a w'|x w'|]; [by eexists| |done].
  destruct Hall as (q1 & entry & q2 & _ & Hlog). by eexists.
Qed.

Lemma dm_tick fuel self : dispatches_more (tick fuel self).
Proof.
  unfold tick.
  apply dm_bind; [apply dm_nothing, dn_quiet, quiet_gets|intros fs].
  apply dm_bind; [apply dm_nothing, dn_run_ticks|intros _].
  apply dm_bind; [apply dm_nothing, dn_quiet, quiet_gets|intros ts].
  apply dm_bind; [apply dm_nothing, dn_run_tasks|intros _].
  apply dm_bind; [apply dm_nothing, dn_quiet, quiet_gets|intros q].
  destruct (nonempty q); [apply dm_flush|by apply dm_nothing, dn_emit].
Qed.

Section Stopped.

(** The manager being stopped, and the assumption on the opaque code: no
    handler, tick callable or generator starts this manager again. *)
Variable self : mid.
Hypothesis handlers_keep_stopped :
  ∀ h args kw st, not_running self st →
                  not_running self (call_handler h args kw st).2.
Hypothesis ticks_keep_stopped :
  ∀ f st, not_running self st → not_running self (call_tick f st).2.
Hypothesis generators_keep_stopped :
  ∀ g st, not_running self st → not_running self (gen_next g st).2.

Lemma ks_dispatch_step m event eargs ekwargs handler error :
  keeps_stopped self (dispatch_step m event eargs ekwargs handler error).
Proof using handlers_keep_stopped.
  unfold dispatch_step.
  apply ks_bind; [solve_ks|intros _].
  apply ks_bind; [solve_ks|intros _].
  apply ks_bind; [apply ks_opaque, handlers_keep_stopped|intros outcome].
  apply ks_bind.
  - destruct outcome as [v|x]; [solve_ks|].
    destruct (host_fatal x); [solve_ks|].
    apply ks_bind; [apply ks_handler_failed|intros ?]. solve_ks.
  - intros ve. apply ks_bind; [apply ks_handler_returned|intros ?]. solve_ks.
Qed.

Lemma ks_dispatch_loop m event eargs ekwargs handlers error :
  keeps_stopped self (dispatch_loop m event eargs ekwargs handlers error).
Proof using handlers_keep_stopped.
  revert error. induction handlers as [|h rest IH]; intros error; simpl.
  - solve_ks.
  - apply ks_bind; [apply ks_dispatch_step|intros r].
    destruct r.2; [solve_ks|apply IH].
Qed.

Lemma ks__dispatcher m event channels :
  keeps_stopped self (_dispatcher m event channels).
Proof using handlers_keep_stopped.
  unfold _dispatcher.
  apply ks_bind; [solve_ks|intros _].
  apply ks_bind; [solve_ks|intros eargs].
  apply ks_bind; [solve_ks|intros ekwargs].
  apply ks_bind; [solve_ks|intros name].
  apply ks_bind; [solve_ks|intros cached].
  apply ks_bind; [solve_ks|intros handlers].
  apply ks_bind; [apply ks_dispatch_loop|intros error].
  apply ks__eventDone.
Qed.

Lemma ks_dispatch_all m q : keeps_stopped self (dispatch_all m q).
Proof using handlers_keep_stopped.
  induction q as [|[event channels] q IH]; simpl; [solve_ks|].
  apply ks_bind; [apply ks__dispatcher|by intros _].
Qed.

Lemma ks_flush m : keeps_stopped self (flush m).
Proof using handlers_keep_stopped.
  unfold flush, flushEvents, _flush.
  apply ks_bind; [solve_ks|intros r].
  apply ks_bind; [solve_ks|intros q].
  apply ks_bind; [solve_ks|intros _].
  apply ks_dispatch_all.
Qed.

Lemma ks_run_ticks m fs : keeps_stopped self (run_ticks m fs).
Proof using ticks_keep_stopped.
  induction fs as [|f fs IH]; simpl; [solve_ks|].
  apply ks_bind; [solve_ks|intros _].
  apply ks_bind; [apply ks_opaque, ticks_keep_stopped|intros outcome].
  apply ks_bind; [|by intros _].
  destruct outcome as [v|x]; [solve_ks|].
  destruct (host_fatal x); solve_ks.
Qed.

Lemma ks_processTask fuel m event task parent :
  keeps_stopped self (processTask fuel m event task parent).
Proof using generators_keep_stopped.
  revert task parent. induction fuel as [|fuel IH]; intros task parent; simpl.
  - by intros w.
  - apply ks_bind; [solve_ks|intros _].
    apply ks_bind; [apply ks_opaque, generators_keep_stopped|intros out].
    destruct out as [value|x].
    + destruct (as_generator value) as [g|].
      * apply ks_bind; [apply ks_task_spawned|intros _]. apply IH.
      * solve_ks.
    + destruct (exc_type x);
        first [apply ks_task_exhausted | apply ks_task_failed].
Qed.

Lemma ks_run_tasks fuel m ts : keeps_stopped self (run_tasks fuel m ts).
Proof using generators_keep_stopped.
  induction ts as [|[[event task] parent] ts IH]; simpl; [solve_ks|].
  apply ks_bind; [apply ks_processTask|by intros _].
Qed.

Lemma ks_tick fuel m : keeps_stopped self (tick fuel m).
Proof using handlers_keep_stopped ticks_keep_stopped generators_keep_stopped.
  unfold tick.
  apply ks_bind; [solve_ks|intros fs].
  apply ks_bind; [apply ks_run_ticks|intros _].
  apply ks_bind; [solve_ks|intros ts].
  apply ks_bind; [apply ks_run_tasks|intros _].
  apply ks_bind; [solve_ks|intros q].
  destruct (nonempty q); [apply ks_flush|solve_ks].
Qed.

Lemma stop_run fuel w :
  stop fuel self w
  = if mgr_get _running false self (w_state w)
    then bind (tick fuel self)
           (λ _, bind (tick fuel self)
              (λ _, bind (tick fuel self)
                 (λ _, modify (upd_mgr self (set_task None)))))
           (stopping self w)
    else Ret tt w.
Proof.
  unfold stop. unfold bind at 1, gets at 1.
  destruct (mgr_get _running false self (w_state w)); simpl; [|by destruct w].
  unfold bind at 1, modify at 1. unfold bind at 1. rewrite create_run.
  unfold bind at 1. by rewrite fire_run.
Qed.




(** ** Run and signals *)

Lemma run_loop_ends rounds fuel : ∀ w w',
  run_loop rounds fuel self w = Ret tt w' →
  not_running self (w_state w') ∧ mgr_get _queue [] self (w_state w') = [].
Proof.
  induction rounds as [|rounds IH]; intros w w'; [done|]. simpl.
  unfold bind at 1, gets at 1. unfold bind at 1, gets at 1.
  destruct (mgr_get _queue [] self (w_state w)) as [|entry q] eqn:Hq;
    destruct (mgr_get _running false self (w_state w)) eqn:Hr; simpl.
  - intros (a & w1 & _ & Hloop)%bind_Ret_inv. by eapply IH.
  - by intros [= <-].
  - intros (a & w1 & _ & Hloop)%bind_Ret_inv. by eapply IH.
  - intros (a & w1 & _ & Hloop)%bind_Ret_inv. by eapply IH.
Qed.

Lemma run_run rounds fuel w :
  run rounds fuel self w
  = try_finally (run_loop rounds fuel self) (tick fuel self) (starting self w).
Proof.
  unfold run. unfold bind at 1, modify at 1. unfold bind at 1.
  rewrite create_run. unfold bind at 1. by rewrite fire_run.
Qed.

(** X22.  [run] returns only for a manager that has been stopped.  The loop is
    left when the running flag is down and the queue of the manager is
    empty; the one tick of the [finally] clause starts there, and as long
    as no handler, tick callable or generator sets the flag again it
    leaves the flag down. *)
Theorem run_returns_only_when_stopped (rounds fuel : nat) (w w' : World) :
  run rounds fuel self w = Ret tt w' →
  not_running self (w_state w')
  ∧ ∃ w1,
      run_loop rounds fuel self (starting self w) = Ret tt w1
      ∧ not_running self (w_state w1)
      ∧ mgr_get _queue [] self (w_state w1) = []
      ∧ tick fuel self w1 = Ret tt w'.
Proof using handlers_keep_stopped ticks_keep_stopped generators_keep_stopped.
  rewrite run_run. unfold try_finally.
  destruct (run_loop rounds fuel self (starting self w)) as [[] w1|x w1|]
    eqn:Hloop; [| |done].
  - destruct (run_loop_ends _ _ _ _ Hloop) as [Hdown Hq].
    pose proof (ks_tick fuel self w1 Hdown) as Htick.
    destruct (tick fuel self w1) as [[] w2|y w2|] eqn:Hlast; [|done..].
    intros [= <-]. split; [done|]. by exists w1.
  - by destruct (tick fuel self w1).
Qed.


End Stopped.

Section Iteration.

(** The assumption on the interpreter: iterating over a set visits each of
    its members once. *)
Hypothesis handler_order_enumerates : ∀ X, handler_order X ≡ₚ elements X.
Hypothesis tick_order_enumerates : ∀ X, tick_order X ≡ₚ elements X.
Hypothesis task_order_enumerates : ∀ X, task_order X ≡ₚ elements X.

Lemma occurrences_NoDup (l : list hid) (h : hid) :
  NoDup l →
  length (filter (λ x, x = h) l) = if bool_decide (h ∈ l) then 1 else 0.
Proof.
  induction 1 as [|x l Hx Hnd IH].
  - by rewrite bool_decide_eq_false_2 by apply not_elem_of_nil.
  - rewrite filter_cons. destruct (decide (x = h)) as [Hxh|Hxh].
    + subst x. rewrite bool_decide_eq_true_2 by by left.
      cbn [length]. rewrite IH. by rewrite bool_decide_eq_false_2.
    + rewrite IH. case_bool_decide as Hin.
      * by rewrite bool_decide_eq_true_2 by by right.
      * rewrite bool_decide_eq_false_2; [done|].
        intros [?|?]%elem_of_cons; [by apply Hxh|done].
Qed.

(** X24.  A handler is put on the list of a dispatch once for every channel of
    the event that it is resolved for: the sets resolved for the channels
    are chained, not united.  A handler that matches two of the channels
    an event is fired on is called twice for it. *)
Theorem handler_is_listed_once_per_channel (st : State) (self : mid)
    (name : string) (channels : list Channel) (h : hid) :
  length (filter (λ x, x = h) (resolve st self name channels))
  = length (filter (λ ch, h ∈ getHandlers st self name ch) channels).
Proof using handler_order_enumerates.
  unfold resolve. rewrite sorted_reverse_perm.
  induction channels as [|ch channels IH]; [done|].
  cbn [fmap list_fmap concat]. rewrite filter_app, length_app, IH.
  rewrite handler_order_enumerates.
  rewrite occurrences_NoDup by apply NoDup_elements.
  rewrite filter_cons. case_decide as Hin.
  - rewrite bool_decide_eq_true_2 by by apply elem_of_elements. done.
  - rewrite bool_decide_eq_false_2; [done|]. by rewrite elem_of_elements.
Qed.

(** A tick of a manager that has no tick callable, no task and nothing in
    its own queue does nothing but sleep. *)
Lemma tick_idle fuel self w :
  mgr_get _ticks ∅ self (w_state w) = ∅ →
  mgr_get _tasks ∅ self (w_state w) = ∅ →
  mgr_get _queue [] self (w_state w) = [] →
  tick fuel self w = Ret tt (mkWorld (w_state w) (w_log w ++ [Sleep TIMEOUT])).
Proof using tick_order_enumerates task_order_enumerates.
  intros Hticks Htasks Hq. unfold tick.
  unfold bind at 1, gets at 1. rewrite Hticks.
  assert (Hf : tick_order ∅ = []).
  { apply Permutation_nil_r. by rewrite tick_order_enumerates, elements_empty. }
  rewrite Hf. cbn [run_ticks]. unfold bind at 1, ret at 1.
  unfold bind at 1, gets at 1. rewrite Htasks.
  assert (Ht : task_order ∅ = []).
  { apply Permutation_nil_r. by rewrite task_order_enumerates, elements_empty. }
  rewrite Ht. cbn [run_tasks]. unfold bind at 1, ret at 1.
  unfold bind at 1, gets at 1. by rewrite Hq.
Qed.

(** X25.  [stop] called on a component of a tree, not on its root, does not
    deliver Stopped.  [fire] puts the event in the queue of the root, but
    [tick] looks at the queue of the component it is called on: with no
    tick callable, task or event of its own the component sleeps three
    times, and when [stop] returns the Stopped event is still waiting in
    the queue of the root. *)
Theorem stop_on_a_component_does_not_deliver_Stopped (fuel : nat) (self : mid)
    (w : World) :
  let st := w_state w in
  let r := root_of self st in
  mgr_get _running false self st = true →
  r ≠ self →
  is_Some (st_mgrs st !! r) →
  mgr_get _ticks ∅ self st = ∅ →
  mgr_get _tasks ∅ self st = ∅ →
  mgr_get _queue [] self st = [] →
  ∃ st' entry,
    stop fuel self w
    = Ret tt (mkWorld st'
                (w_log w ++ [Sleep TIMEOUT; Sleep TIMEOUT; Sleep TIMEOUT]))
    ∧ queue_of r st' = queue_of r st ++ [entry]
    ∧ event_get e_class "" entry.1 st' = "Stopped"
    ∧ event_get e_args [] entry.1 st' = [PMgr self]
    ∧ not_running self st'.
Proof using tick_order_enumerates task_order_enumerates.
  intros st r Hrun Hne Hr Hticks Htasks Hq.
  rewrite stop_run. fold st. rewrite Hrun.
  set (st0 := upd_mgr self (set_running false) st).
  assert (Hr0 : root_of self st0 = r) by by apply root_of_upd_mgr.
  assert (Hkeep : ∀ {A} (f : Manager → A) d,
            (∀ x, f (set_running false x) = f x) →
            (∀ entry x, f (enqueue entry x) = f x) →
            mgr_get f d self (w_state (stopping self w)) = mgr_get f d self st).
  { intros A f d Hf1 Hf2. unfold stopping. cbn [w_state]. fold st st0.
    rewrite mgr_get_created_fired by done. by apply mgr_get_upd_mgr. }
  assert (Htick : ∀ log,
    tick fuel self (mkWorld (w_state (stopping self w)) log)
    = Ret tt (mkWorld (w_state (stopping self w)) (log ++ [Sleep TIMEOUT]))).
  { intros log. apply tick_idle; cbn [w_state].
    - by rewrite Hkeep.
    - by rewrite Hkeep.
    - unfold mgr_get, stopping. cbn [w_state]. fold st st0.
      rewrite created_fired_mgrs, Hr0, decide_False by done.
      unfold st0, upd_mgr; simpl. rewrite list_lookup_alter_eq.
      unfold mgr_get in Hq. by destruct (st_mgrs st !! self). }
  unfold bind.
  change (stopping self w) with
    (mkWorld (w_state (stopping self w)) (w_log w)) at 1.
  rewrite !Htick. unfold modify. cbn [w_state w_log].
  eexists _, _. split; [by rewrite <- !app_assoc|].
  unfold stopping. cbn [w_state]. fold st st0.
  split; [|split; [|split]].
  - rewrite queue_of_upd_mgr_ne by done.
    rewrite <- Hr0 at 1. rewrite queue_of_created_fired.
    + rewrite Hr0. f_equal. by apply queue_of_upd_mgr_keep.
    + rewrite Hr0. by apply upd_mgr_is_Some.
  - cbn [fst]. unfold event_get, upd_mgr. cbn [st_events].
    by rewrite created_fired_events_new.
  - cbn [fst]. unfold event_get, upd_mgr. cbn [st_events].
    by rewrite created_fired_events_new.
  - apply flag_safe_upd_mgr; [done|].
    unfold created_fired. apply flag_safe_fired, flag_safe_alloc_event.
    unfold not_running, mgr_get, st0, upd_mgr; simpl.
    rewrite list_lookup_alter_eq. by destruct (st_mgrs st !! self).
Qed.

(** X26.  [stop] called on the root of a tree delivers Stopped before it
    returns.  With no tick callable and no task registered, the first of
    its three ticks flushes the queue: what was waiting there is
    dispatched, then the Stopped event, on the channel of the root or on
    "*"; whatever the two later ticks dispatch comes after it. *)
Theorem stop_on_the_root_delivers_Stopped (fuel : nat) (self : mid)
    (w w' : World) :
  let st := w_state w in
  let stopped := length (st_events st) in
  root_of self st = self →
  is_Some (st_mgrs st !! self) →
  mgr_get _running false self st = true →
  mgr_get _ticks ∅ self st = ∅ →
  mgr_get _tasks ∅ self st = ∅ →
  stop fuel self w = Ret tt w' →
  event_get e_class "" stopped (w_state (stopping self w)) = "Stopped"
  ∧ ∃ more,
      dispatched (w_log w')
      = dispatched (w_log w) ++ queue_of self st
          ++ [(stopped, match mgr_get channel None self st with
                        | Some c => [c]
                        | None => [CStr "*"]
                        end)] ++ more.
Proof using tick_order_enumerates task_order_enumerates.
  intros st stopped Hroot Hself Hrun Hticks Htasks.
  rewrite stop_run. fold st. rewrite Hrun.
  set (st0 := upd_mgr self (set_running false) st).
  assert (Hr0 : root_of self st0 = self).
  { subst st0. by rewrite root_of_upd_mgr. }
  assert (Hkeep : ∀ {A} (f : Manager → A) d,
            (∀ x, f (set_running false x) = f x) →
            (∀ entry x, f (enqueue entry x) = f x) →
            mgr_get f d self (w_state (stopping self w)) = mgr_get f d self st).
  { intros A f d Hf1 Hf2. unfold stopping. cbn [w_state]. fold st st0.
    rewrite mgr_get_created_fired by done. by apply mgr_get_upd_mgr. }
  assert (Hq0 : queue_of self (w_state (stopping self w))
                = queue_of self st
                    ++ [(stopped, match mgr_get channel None self st with
                                  | Some c => [c]
                                  | None => [CStr "*"]
                                  end)]).
  { unfold stopping. cbn [w_state]. fold st st0.
    rewrite <- Hr0 at 1. rewrite queue_of_created_fired.
    - rewrite Hr0. unfold created_channels. subst st0.
      rewrite queue_of_upd_mgr_keep by done.
      by rewrite (mgr_get_upd_mgr channel) by done.
    - rewrite Hr0. by apply upd_mgr_is_Some. }
  assert (Htick1 : tick fuel self (stopping self w)
                   = flush self (stopping self w)).
  { rewrite (tick_phases fuel self _ (stopping self w) (stopping self w)).
    - fold (queue_of self (w_state (stopping self w))). rewrite Hq0.
      by destruct (queue_of self st).
    - rewrite Hkeep, Hticks by done.
      assert (Hf : tick_order ∅ = []).
      { apply Permutation_nil_r.
        by rewrite tick_order_enumerates, elements_empty. }
      by rewrite Hf.
    - rewrite Hkeep, Htasks by done.
      assert (Ht : task_order ∅ = []).
      { apply Permutation_nil_r.
        by rewrite task_order_enumerates, elements_empty. }
      by rewrite Ht. }
  intros Hstop. split.
  { unfold stopping. cbn [w_state]. fold st st0. unfold event_get.
    change stopped with (length (st_events st0)).
    by rewrite created_fired_events_new. }
  apply bind_Ret_inv in Hstop as ([] & w1 & H1 & Hstop).
  apply bind_Ret_inv in Hstop as ([] & w2 & H2 & Hstop).
  apply bind_Ret_inv in Hstop as ([] & w3 & H3 & Hstop).
  injection Hstop as <-. cbn [w_log].
  rewrite Htick1, flush_run in H1.
  assert (Hroot0 : root_of self (w_state (stopping self w)) = self).
  { unfold stopping. cbn [w_state]. fold st st0.
    by rewrite root_of_created_fired. }
  rewrite Hroot0 in H1.
  pose proof (dispatch_all_dispatched self
                (queue_of self (w_state (stopping self w)))
                (mkWorld (upd_mgr self (set_queue [])
                            (w_state (stopping self w)))
                   (w_log (stopping self w)))) as Hfirst.
  rewrite H1 in Hfirst. cbn [w_log stopping] in Hfirst.
  pose proof (dm_tick fuel self w1) as Hsecond. rewrite H2 in Hsecond.
  destruct Hsecond as [more2 Hsecond].
  pose proof (dm_tick fuel self w2) as Hthird. rewrite H3 in Hthird.
  destruct Hthird as [more3 Hthird].
  exists (more2 ++ more3). rewrite Hthird, Hsecond, Hfirst, Hq0.
  by rewrite <- !app_assoc.
Qed.

End Iteration.

End Engine.

Arguments Ret {U A} a w.
Arguments Raise {U A} x w.
Arguments OutOfFuel {U A}.

(** * A concrete system

    One manager is enough to exercise the theorems: a root [0], events and
    handlers given by small tables, and generators that follow a script
    kept in the user part of the heap. *)

Module Demo.

(** The user heap: for each generator, what its next calls to [next()]
    will do.  A generator whose script has run out raises StopIteration,
    as every exhausted generator does. *)
Definition Heap : Type := list (list GenOutcome).

Definition stop_iteration : Exc := mkExc StopIteration 0 [].

Definition value_error : Exc := mkExc (OtherExc "ValueError") 1 ["boom"].

Definition interrupt : Exc := mkExc KeyboardInterrupt 2 [].

Definition gen_next (g : gid) (st : @State Heap) : GenOutcome * @State Heap :=
  match st_user st !! g with
  | Some (out :: rest) =>
      (out, mkState (st_events st) (st_values st) (st_mgrs st)
              (<[g := rest]> (st_user st)))
  | _ => (Throws stop_iteration, st)
  end.

(** Handlers: 0 returns None; 1 returns generator 0; 2 raises ValueError;
    3 is a filter and returns True; 4 is a filter and raises ValueError;
    5 raises KeyboardInterrupt; 6 and 7 return None and have equal keys;
    8 returns None and subscribes to "ping" and "pong". *)
Definition hinfo (h : hid) : Handler :=
  match h with
  | 8 => mkHandler ["ping"; "pong"] (CStr "*") 0 false false None
  | 3 => mkHandler ["ping"] (CStr "*") 10 true false None
  | 4 => mkHandler ["ping"] (CStr "*") 10 true false None
  | 1 => mkHandler ["ping"] (CStr "*") 5 false true None
  | _ => mkHandler ["ping"] (CStr "*") 0 false false None
  end.

Definition call_handler (h : hid) (args : list PyVal)
    (kwargs : list (string * PyVal)) (st : @State Heap)
    : Outcome * @State Heap :=
  match h with
  | 1 => (Returns (PGen 0), st)
  | 2 | 4 => (Raises value_error, st)
  | 3 => (Returns (PBool true), st)
  | 5 => (Raises interrupt, st)
  | _ => (Returns PNone, st)
  end.

(** Tick callables: 1 raises KeyboardInterrupt, the others return. *)
Definition call_tick (f : tickid) (st : @State Heap) : Outcome * @State Heap :=
  match f with
  | 1 => (Raises interrupt, st)
  | _ => (Returns PNone, st)
  end.

Definition event_name (cls : string) : string := cls.

(** One iteration order for sets, and another one. *)
Definition ascending {A} `{Countable A} (X : gset A) : list A := elements X.

Definition descending {A} `{Countable A} (X : gset A) : list A :=
  reverse (elements X).

Definition manager0 : Manager :=
  mkManager ∅ ∅ ∅ [] ∅ ∅ None false 0 0 ∅ None ∅.

(** The event [Ping], not yet fired. *)
Definition ping : Event :=
  mkEvent "Ping" "ping" [] [] [] None None 0%Z false false false false.

(** The methods of the manager over the tables above. *)
Definition dispatcher := _dispatcher hinfo event_name call_handler (@ascending nat _ _).


Definition run_tick :=
  tick hinfo event_name call_handler call_tick gen_next
    (@ascending nat _ _) (@ascending nat _ _) (@ascending _ _ _).

Definition advance := processTask event_name gen_next.

Definition log_of {U A} (r : @Res U A) : list Action :=
  match r with Ret _ w | Raise _ w => w_log w | OutOfFuel => [] end.

Definition state_of {U A} (r : @Res U A) : option (@State U) :=
  match r with Ret _ w | Raise _ w => Some (w_state w) | OutOfFuel => None end.

Definition world_of {U A} (w0 : @World U) (r : @Res U A) : @World U :=
  match r with Ret _ w | Raise _ w => w | OutOfFuel => w0 end.

(** A root whose only own state is its handler registry for "ping". *)
Definition root_with (hs : gset hid) : Manager :=
  set_handlers {["ping" := hs]} manager0.

(** [Ping] after [fire]: on channel "*", with its Value. *)
Definition fired_ping (success failure : bool) : Event :=
  mkEvent "Ping" "ping" [CStr "*"] [] [] (Some 0) None 0%Z
    success failure false false.

Definition value0 : Value := mkValue 0 0 false PNone false false 0.

(** Worlds: one per scenario, the log empty at the start. *)
Definition world (hs : gset hid) (ev : Event) : @World Heap :=
  mkWorld (mkState [ev] [value0] [root_with hs] []) [].

(** Handler 3 is a filter that returns True; 6 comes after it. *)
Definition w_filter : @World Heap := world {[3; 6]} (fired_ping false false).

(** Handler 4 is a filter that raises ValueError; 6 comes after it. *)
Definition w_failing_filter : @World Heap :=
  world {[4; 6]} (fired_ping false false).


(** Handlers 6 and 7 have the same key. *)
Definition w_ties : @World Heap := world {[6; 7]} (fired_ping false false).


(** A root with the tick callable 0, which returns; nothing is queued. *)
Definition w_idle_with_tick : @World Heap :=
  mkWorld (mkState [] [] [set_ticks {[0]} manager0] []) [].



(** [Ping] has opted into Success; handler 1 returns generator 0, which is
    exhausted at its first step; handler 2 raises ValueError. *)
Definition w_success_after_error : @World Heap :=
  mkWorld (mkState [mkEvent "Ping" "ping" [] [] [] None None 0%Z
                      true false false false]
             [] [root_with {[1; 2]}] [[]]) [].

(** A running root with an empty queue. *)
Definition w_running : @World Heap :=
  mkWorld (mkState [] [] [set_task (Some 1) (set_running true manager0)] []) [].

(** C7, at a concrete dispatch: handler 3 breaks, handler 6 is not called. *)
Lemma filter_stops_dispatch_witness :
  ∃ pre st',
    handlers_for hinfo ascending 0 0 [CStr "*"] (w_state w_filter)
    = pre ++ 3 :: [6]
    ∧ dispatcher 0 0 [CStr "*"] w_filter
      = Ret tt (mkWorld st'
                  (w_log w_filter ++ [Dispatch 0 [CStr "*"]]
                     ++ invocations hinfo 0 [] (pre ++ [3])
                     ++ [EventDone 0 false])).
Proof.
  apply (filter_stops_dispatch hinfo event_name call_handler
           (@ascending nat _ _) 0 0 [CStr "*"] w_filter 3 [6] None
           (loop_start hinfo ascending 0 0 [CStr "*"] w_filter)
           (PBool true)
           (before_call 0 3
              (w_state (loop_start hinfo ascending 0 0 [CStr "*"] w_filter)))).
  - apply reaches_here.
  - reflexivity.
  - reflexivity.
  - reflexivity.
Defined.

(** C10, at a concrete dispatch: handler 4 raises, the break is taken and
    handler 6 is not called. *)
Lemma failing_filter_stops_dispatch_witness :
  ∃ pre st',
    handlers_for hinfo ascending 0 0 [CStr "*"] (w_state w_failing_filter)
    = pre ++ 4 :: [6]
    ∧ dispatcher 0 0 [CStr "*"] w_failing_filter
      = Ret tt (mkWorld st'
                  (w_log w_failing_filter ++ [Dispatch 0 [CStr "*"]]
                     ++ invocations hinfo 0 [] (pre ++ [4])
                     ++ [EventDone 0 true])).
Proof.
  apply (failing_filter_stops_dispatch hinfo event_name call_handler
           (@ascending nat _ _) 0 0 [CStr "*"] w_failing_filter 4 [6] None
           (loop_start hinfo ascending 0 0 [CStr "*"] w_failing_filter)
           value_error
           (before_call 0 4
              (w_state (loop_start hinfo ascending 0 0 [CStr "*"]
                          w_failing_filter)))).
  - apply reaches_here.
  - reflexivity.
  - reflexivity.
  - reflexivity.
  - by eexists.
Defined.


(** C4, at a concrete call: [fire(Ping)] on the root without channels. *)
Lemma fire_enqueues_on_root_witness :
  ∃ st',
    fire 0 0 [] (world {[6]} ping)
    = Ret 1 (mkWorld st' [])
    ∧ queue_of 0 st' = [(0, [CStr "*"])].
Proof.
  destruct (fire_enqueues_on_root 0 0 [] (world {[6]} ping)
              ltac:(by eexists))
    as (st' & Hfire & _ & _ & Hq & _).
  exists st'. split; [exact Hfire|exact Hq].
Defined.

(** C6, at a concrete dispatch: with no cache entry the handlers 6 and 7
    are resolved, and they run in the order of the sorted list. *)
Lemma handlers_run_in_key_order_witness :
  ∃ pre,
    handlers_for hinfo ascending 0 0 [CStr "*"] (w_state w_ties) = pre ++ [6; 7]
    ∧ StronglySorted (key_ge hinfo)
        (handlers_for hinfo ascending 0 0 [CStr "*"] (w_state w_ties)).
Proof.
  destruct (handlers_run_in_key_order hinfo event_name call_handler
              (@ascending nat _ _) 0 0 [CStr "*"] w_ties [6; 7] None
              (loop_start hinfo ascending 0 0 [CStr "*"] w_ties))
    as (pre & Hpre & _ & Hsorted & _).
  - intros key hs Hhs. vm_compute in Hhs. discriminate.
  - apply reaches_here.
  - exists pre. split; [exact Hpre|exact Hsorted].
Defined.

(** C6 fails as stated: one and the same handler set, iterated in two
    orders that both enumerate exactly its members, gives two different
    invocation orders for the handlers 6 and 7, whose keys are equal. *)
Lemma tie_order_follows_set_iteration :
  hkey hinfo 6 = hkey hinfo 7
  ∧ (∀ X : gset nat, ascending X ≡ₚ elements X)
  ∧ (∀ X : gset nat, descending X ≡ₚ elements X)
  ∧ log_of (_dispatcher hinfo event_name call_handler ascending
              0 0 [CStr "*"] w_ties)
    = [Dispatch 0 [CStr "*"]; Invoke 6 0 []; Invoke 7 0 []; EventDone 0 false]
  ∧ log_of (_dispatcher hinfo event_name call_handler descending
              0 0 [CStr "*"] w_ties)
    = [Dispatch 0 [CStr "*"]; Invoke 7 0 []; Invoke 6 0 []; EventDone 0 false]
  ∧ log_of (_dispatcher hinfo event_name call_handler ascending
              0 0 [CStr "*"] w_ties)
    ≠ log_of (_dispatcher hinfo event_name call_handler descending
                0 0 [CStr "*"] w_ties).
Proof.
  split; [reflexivity|]. split; [done|].
  split; [intros X; apply reverse_Permutation|].
  split; [vm_compute; reflexivity|]. split; [vm_compute; reflexivity|].
  vm_compute. discriminate.
Qed.





(** The opaque code of this system never touches a manager. *)
Lemma call_handler_mgrs h args kw st :
  st_mgrs (call_handler h args kw st).2 = st_mgrs st.
Proof. do 6 (destruct h as [|h]; [reflexivity|]). reflexivity. Qed.


Lemma gen_next_mgrs g st : st_mgrs (gen_next g st).2 = st_mgrs st.
Proof.
  unfold gen_next. destruct (st_user st !! g) as [[|out rest]|]; reflexivity.
Qed.

(** C9, at a concrete manager: a second [stop] of the running root is
    without effect. *)
Definition run_stop :=
  stop hinfo event_name call_handler call_tick gen_next
    (@ascending nat _ _) (@ascending nat _ _) (@ascending _ _ _).


(** What the code does where C2 expects no Success.  Ping has opted into
    Success.  In the first tick handler 1 returns a generator and handler 2
    raises: the dispatch records the error, [_eventDone] is called with it
    and does nothing, a task being outstanding.  In the second tick the
    task is exhausted and [processTask] calls [_eventDone] without an
    error: PingSuccess is fired, and dispatched, for an event whose value
    is marked with [errors]. *)
Lemma success_is_fired_after_a_handler_error :
  let r := bind (fire 0 0 [])
             (λ _, bind (run_tick 5 0) (λ _, run_tick 5 0))
             w_success_after_error in
  log_of r
  = [Dispatch 0 [CStr "*"]; Invoke 1 0 [PEvent 0]; Invoke 2 0 [];
     EventDone 0 true;
     Advance 0 0; EventDone 0 false;
     Dispatch 1 [CStr "*"]; EventDone 1 false;
     Dispatch 2 [CStr "*"]; EventDone 2 false]
  ∧ ((λ st, e_class <$> st_events st) <$> state_of r)
    = Some ["Ping"; "Error"; "PingSuccess"]
  ∧ ((λ st, v_errors <$> st_values st !! 0) <$> state_of r)
    = Some (Some true).
Proof. vm_compute. done. Qed.

(** What the code does where C3 expects no sleep: with a tick callable
    registered and nothing queued, [tick] calls the callable and then
    sleeps for the idle quantum. *)
Lemma tick_sleeps_with_a_tick_callable_registered :
  mgr_get _ticks ∅ 0 (w_state w_idle_with_tick) = {[0]}
  ∧ mgr_get _queue [(0, [])] 0 (w_state w_idle_with_tick) = []
  ∧ log_of (run_tick 5 0 w_idle_with_tick) = [CallTick 0; Sleep TIMEOUT].
Proof. split; [done|]. split; [done|]. vm_compute. reflexivity. Qed.

(** C8 fails as stated for a call that raises.  Handler 8 subscribes to
    "ping" and "pong" but is registered under "ping" only, and the cache of
    the root holds the list [8] for Ping.  [removeHandler] takes 8 out of
    the "ping" bucket, then raises KeyError at "pong": the registry has
    changed, the cache has not been cleared, and the next dispatch of Ping
    still calls handler 8, which resolution no longer finds. *)
Definition w_partly_registered : @World Heap :=
  mkWorld (mkState [fired_ping false false] [value0]
             [set_cache {[("ping", [CStr "*"]) := [8]]} (root_with {[8]})] [])
    [].


(** ** The registry, the tree and the queue at concrete managers *)

(** Handlers declared without event names, on the channel "*". *)
Definition hinfo_nameless (h : hid) : Handler :=
  mkHandler [] (CStr "*") 0 false false None.

(** A tick callable that stops manager 0, as a call of [stop] would. *)
Definition call_tick_stop (f : tickid) (st : @State Heap)
    : Outcome * @State Heap :=
  (Returns PNone, upd_mgr 0 (set_running false) st).

(** A component on the channel "web" with handler 7 for "ping", the tick
    callable 3 and one event in its queue; it is its own root. *)
Definition component1 : Manager :=
  mkManager ∅ ∅ ∅ [(1, [CStr "web"])] ∅ {["ping" := {[7]}]} None false
    1 1 ∅ (Some (CStr "web")) {[3]}.

(** The root 0 with one event in its queue, and the component 1 apart. *)
Definition w_apart : @World Heap :=
  mkWorld (mkState [ping; ping] []
             [set_queue [(0, [CStr "*"])] (root_with {[6]}); component1] [])
    [].

(** The root 0 with the running component 1 below it; the component has
    nothing of its own to do. *)
Definition w_joined : @World Heap :=
  mkWorld (mkState [] []
             [set_components {[1]} (root_with {[6]});
              mkManager ∅ ∅ ∅ [] ∅ {["ping" := {[7]}]} None true 0 0 ∅
                (Some (CStr "web")) ∅] [])
    [].

(** Two events, neither fired yet. *)
Definition w_two_events : @World Heap :=
  mkWorld (mkState [ping; ping] [] [root_with {[6]}] []) [].

(** [Ping] queued on a root whose handler 5 raises KeyboardInterrupt. *)
Definition w_interrupted : @World Heap :=
  mkWorld (mkState [fired_ping false false] [value0]
             [set_queue [(0, [CStr "*"])] (root_with {[5]})] [])
    [].

(** The nested task (Ping, generator 1, parent 0); generator 1 is
    exhausted. *)
Definition w_nested_done : @World Heap :=
  mkWorld (mkState [set_waitingHandlers 2 (fired_ping false false)] [value0]
             [set_tasks {[(0, 1, Some 0)]} (root_with {[1]})]
             [[Yields PNone]; []]) [].

(** The task (Ping, generator 0); generator 0 is about to raise
    KeyboardInterrupt. *)
Definition w_task_interrupt : @World Heap :=
  mkWorld (mkState [set_waitingHandlers 1 (fired_ping false true)] [value0]
             [set_tasks {[(0, 0, None)]} (root_with {[1]})]
             [[Throws interrupt]]) [].

(** A root with the tick callable 0 and nothing else. *)
Definition w_to_run : @World Heap :=
  mkWorld (mkState [] [] [set_ticks {[0]} manager0] []) [].

(** X2, at the call that fails half way: handler 8 is registered under
    "ping" but not under "pong"; the cache is as it was. *)
Lemma failed_removeHandler_raises_KeyError_witness :
  let w' := world_of w_partly_registered
              (removeHandler hinfo 0 8 None w_partly_registered) in
  w_log w' = w_log w_partly_registered
  ∧ mgr_get _cache ∅ 0 (w_state w')
    = mgr_get _cache ∅ 0 (w_state w_partly_registered).
Proof.
  destruct (failed_removeHandler_raises_KeyError hinfo 0 8 None
              w_partly_registered KeyError
              (world_of w_partly_registered
                 (removeHandler hinfo 0 8 None w_partly_registered))
              ltac:(vm_compute; reflexivity))
    as (_ & Hlog & Hcache & _).
  split; [exact Hlog|exact (Hcache 0)].
Defined.

(** X3, at a root without components. *)
Lemma unregisterChild_of_a_stranger_changes_nothing_witness :
  unregisterChild 0 1 w_running = Raise KeyError w_running.
Proof.
  apply (unregisterChild_of_a_stranger_changes_nothing 0 1 w_running).
  apply not_elem_of_empty.
Defined.


(** X6, at a root to which the nameless handler 9 is added. *)
Lemma removeHandler_leaves_a_nameless_handler_witness :
  ∃ w',
    addHandler hinfo_nameless 0 9 (world ∅ ping) = Ret tt w'
    ∧ removeHandler hinfo_nameless 0 9 None w' = Ret tt w'
    ∧ 9 ∈ mgr_get _globals ∅ 0 (w_state w')
    ∧ ∀ name, 9 ∈ getHandlers hinfo_nameless (w_state w') 0 name (CStr "*").
Proof.
  destruct (removeHandler_leaves_a_nameless_handler hinfo_nameless 0 9
              (world ∅ ping) ltac:(reflexivity) ltac:(by eexists))
    as (w' & Hadd & Hrem & Hreg & Hres).
  exists w'. split; [exact Hadd|]. split; [exact Hrem|].
  split; [exact Hreg|exact Hres].
Defined.


(** X8, at the tree of root 0 and component 1, for handler 7 of the
    component. *)
Lemma getHandlers_resolves_the_subtree_witness :
  7 ∈ getHandlers hinfo (w_state w_joined) 0 "ping" (CStr "*")
  ↔ ∃ c, in_subtree (w_state w_joined) 0 c
         ∧ 7 ∈ own_handlers hinfo (w_state w_joined) c "ping" (CStr "*").
Proof.
  apply (getHandlers_resolves_the_subtree hinfo (w_state w_joined) 0 "ping"
           (CStr "*") 7).
  reflexivity.
Defined.

(** X10, at the registration of component 1, which brings the tick
    callable 3. *)
Lemma tree_change_refreshes_the_ticks_witness :
  let w' := world_of w_apart (registerChild 0 1 w_apart) in
  3 ∈ mgr_get _ticks ∅ 0 (w_state w')
  ↔ ∃ c, in_subtree (w_state w') 0 c ∧ 3 ∈ mgr_get own_ticks ∅ c (w_state w').
Proof.
  apply (tree_change_refreshes_the_ticks 0 1 w_apart
           (world_of w_apart (registerChild 0 1 w_apart)) 3).
  - by eexists.
  - left. reflexivity.
Defined.


(** ** Flush, fire, tasks, run and signals at concrete managers *)

Definition flush_queue :=
  _flush hinfo event_name call_handler (@ascending nat _ _).

(** X13, at a flush that handler 5 interrupts: one more entry behind
    [Ping] makes no difference. *)
Lemma interrupted_flush_forgets_the_rest_witness :
  let w' := world_of w_interrupted (flush_queue 0 w_interrupted) in
  flush_queue 0 w_interrupted = Raise interrupt w'
  ∧ flush_queue 0
      (mkWorld (upd_mgr 0 (λ m, set_queue (_queue m ++ [(0, [CStr "web"])]) m)
                  (w_state w_interrupted)) [])
    = Raise interrupt w'.
Proof.
  split; [reflexivity|].
  apply (interrupted_flush_forgets_the_rest hinfo event_name call_handler
           (@ascending nat _ _) 0 w_interrupted interrupt
           (world_of w_interrupted (flush_queue 0 w_interrupted))
           [(0, [CStr "web"])]).
  reflexivity.
Defined.

(** X14, at a root without handlers: [Ping], which has opted into Success,
    gets its PingSuccess. *)
Lemma unhandled_event_completes_witness :
  ∃ st' new,
    dispatcher 0 0 [CStr "*"] (world ∅ (fired_ping true false))
    = Ret tt (mkWorld st' [Dispatch 0 [CStr "*"]; EventDone 0 false])
    ∧ queue_of 0 st' = new
    ∧ entry_classes st' new = ["PingSuccess"].
Proof.
  destruct (unhandled_event_completes hinfo event_name call_handler
              (@ascending nat _ _) 0 0 [CStr "*"]
              (world ∅ (fired_ping true false))
              ltac:(by eexists) ltac:(by eexists)
              ltac:(vm_compute; reflexivity) ltac:(reflexivity))
    as (st' & new & Hrun & Hq & Hcls).
  exists st', new. split; [exact Hrun|]. split; [exact Hq|exact Hcls].
Defined.

(** X15, at two firings on the root, the second on the channel "web". *)
Lemma events_are_dispatched_in_firing_order_witness :
  let w' := world_of w_two_events
              (bind (fire 0 0 [])
                 (λ _, bind (fire 0 1 [CStr "web"])
                    (λ _, flush hinfo event_name call_handler
                            (@ascending nat _ _) 0)) w_two_events) in
  dispatched (w_log w') = [(0, [CStr "*"]); (1, [CStr "web"])].
Proof.
  cbv zeta.
  transitivity
    (dispatched (w_log w_two_events)
       ++ queue_of (root_of 0 (w_state w_two_events)) (w_state w_two_events)
       ++ [(0, effective_channels (w_state w_two_events) 0 0 []);
           (1, effective_channels (fired 0 0 [] (w_state w_two_events)) 0 1
                 [CStr "web"])]).
  - apply (events_are_dispatched_in_firing_order hinfo event_name
             call_handler (@ascending nat _ _) 0 0 0 0 1 [] [CStr "web"]
             w_two_events).
    + by eexists.
    + reflexivity.
    + reflexivity.
    + vm_compute. reflexivity.
  - vm_compute. reflexivity.
Defined.

(** X16, at [Ping] fired on "web" and then again without channels. *)
Lemma refired_event_keeps_its_channels_witness :
  ∃ st',
    bind (fire 0 0 [CStr "web"]) (λ _, fire 0 0 []) (world {[6]} ping)
    = Ret 2 (mkWorld st' [])
    ∧ event_get e_channels [] 0 st' = [CStr "web"]
    ∧ last (queue_of 0 st') = Some (0, [CStr "web"])
    ∧ event_get e_value None 0 st' = Some 2.
Proof.
  destruct (refired_event_keeps_its_channels 0 0 0 [CStr "web"]
              (world {[6]} ping) ltac:(by eexists) ltac:(by eexists))
    as (st' & Hrun & Hchs & Hlast & Hval).
  exists st'. split; [exact Hrun|]. split; [exact Hchs|].
  split; [exact Hlast|exact Hval].
Defined.

(** X17, at the exhausted nested generator 1 with parent 0. *)
Lemma exhausted_nested_task_stays_registered_witness :
  ∃ st' log',
    advance 1 0 0 1 (Some 0) w_nested_done = Ret tt (mkWorld st' log')
    ∧ (0, 1, Some 0) ∈ tasks_of 0 st'
    ∧ (0, 0, None) ∈ tasks_of 0 st'
    ∧ waiting 0 st' = 1%Z.
Proof.
  destruct (exhausted_nested_task_stays_registered event_name gen_next
              0 0 1 0 0 w_nested_done stop_iteration (w_state w_nested_done)
              ltac:(reflexivity) ltac:(reflexivity)
              ltac:(by eexists) ltac:(by eexists)
              ltac:(vm_compute; reflexivity))
    as (st' & log' & Hrun & Hchild & Hparent & Hwait).
  exists st', log'. split; [exact Hrun|]. split; [exact Hchild|].
  split; [exact Hparent|exact Hwait].
Defined.

(** X18, at a generator that raises KeyboardInterrupt: [processTask]
    returns, and PingFailure and Error are queued. *)
Lemma task_exception_is_reported_not_raised_witness :
  ∃ st' new,
    advance 1 0 0 0 None w_task_interrupt
    = Ret tt (mkWorld st' [Advance 0 0])
    ∧ tasks_of 0 st' = tasks_of 0 (gen_next 0 (w_state w_task_interrupt)).2
                         ∖ {[(0, 0, None)]}
    ∧ waiting 0 st' = 1%Z
    ∧ (v_errors <$> st_values st' !! 0) = Some true
    ∧ queue_of 0 st' = new
    ∧ entry_classes st' new = ["PingFailure"; "Error"].
Proof.
  destruct (task_exception_is_reported_not_raised event_name gen_next
              0 0 0 None 0 w_task_interrupt interrupt
              (gen_next 0 (w_state w_task_interrupt)).2 0 value0
              ltac:(reflexivity) ltac:(discriminate)
              ltac:(by eexists) ltac:(by eexists) ltac:(by eexists)
              ltac:(reflexivity) ltac:(reflexivity))
    as (st' & new & Hrun & Htasks & Hwait & Hval & Hq & Hcls).
  exists st', new. split; [exact Hrun|]. split; [exact Htasks|].
  split; [exact Hwait|]. split; [by rewrite Hval|].
  split; [exact Hq|exact Hcls].
Defined.

Definition run_stopping :=
  run hinfo event_name call_handler call_tick_stop gen_next
    (@ascending nat _ _) (@ascending nat _ _) (@ascending _ _ _).

(** X22, at a root whose tick callable stops it: [run] dispatches Started,
    leaves the loop, ticks once more and returns. *)
Lemma run_returns_only_when_stopped_witness :
  let r := run_stopping 3 1 0 w_to_run in
  log_of r
  = [CallTick 0; Dispatch 0 [CStr "*"]; EventDone 0 false;
     CallTick 0; Sleep 10]
  ∧ not_running 0 (w_state (world_of w_to_run r)).
Proof.
  split; [vm_compute; reflexivity|].
  apply (run_returns_only_when_stopped hinfo event_name call_handler
           call_tick_stop gen_next
           (@ascending nat _ _) (@ascending nat _ _) (@ascending _ _ _) 0
           ltac:(intros h args kw st; unfold not_running, mgr_get;
                 by rewrite call_handler_mgrs)
           ltac:(intros f st _; unfold not_running, mgr_get, call_tick_stop,
                   upd_mgr; simpl; rewrite list_lookup_alter_eq;
                 by destruct (st_mgrs st !! 0))
           ltac:(intros g st; unfold not_running, mgr_get;
                 by rewrite gen_next_mgrs)
           3 1 w_to_run (world_of w_to_run (run_stopping 3 1 0 w_to_run))
           ltac:(vm_compute; reflexivity)).
Defined.



(** X24, at an event on the channels "*" and "web": the handlers 3 and 6
    are on the list twice. *)
Lemma handler_is_listed_once_per_channel_witness :
  length (filter (λ x, x = 6)
            (resolve hinfo ascending (w_state w_filter) 0 "ping"
               [CStr "*"; CStr "web"]))
  = length (filter (λ ch, 6 ∈ getHandlers hinfo (w_state w_filter) 0 "ping" ch)
              [CStr "*"; CStr "web"])
  ∧ resolve hinfo ascending (w_state w_filter) 0 "ping" [CStr "*"; CStr "web"]
    = [3; 3; 6; 6].
Proof.
  split; [|vm_compute; reflexivity].
  apply (handler_is_listed_once_per_channel hinfo (@ascending nat _ _)).
  intros X. reflexivity.
Defined.

(** X25, at the running component 1 below the root 0. *)
Lemma stop_on_a_component_does_not_deliver_Stopped_witness :
  ∃ st' entry,
    run_stop 5 1 w_joined
    = Ret tt (mkWorld st' [Sleep TIMEOUT; Sleep TIMEOUT; Sleep TIMEOUT])
    ∧ queue_of 0 st' = [entry]
    ∧ event_get e_class "" entry.1 st' = "Stopped".
Proof.
  destruct (stop_on_a_component_does_not_deliver_Stopped hinfo event_name
              call_handler call_tick gen_next
              (@ascending nat _ _) (@ascending nat _ _) (@ascending _ _ _)
              ltac:(intros X; reflexivity) ltac:(intros X; reflexivity)
              5 1 w_joined
              ltac:(reflexivity) ltac:(discriminate) ltac:(by eexists)
              ltac:(reflexivity) ltac:(reflexivity) ltac:(reflexivity))
    as (st' & entry & Hrun & Hq & Hcls & _).
  exists st', entry. split; [exact Hrun|]. split; [exact Hq|exact Hcls].
Defined.

(** X20, at handler 8, which sits in the bucket of "ping" only: the
    bucket goes with its last member. *)
Lemma removeHandler_of_one_name_keeps_the_others_witness :
  ∃ w',
    removeHandler hinfo 0 8 (Some "ping") w_partly_registered = Ret tt w'
    ∧ mgr_get _handlers ∅ 0 (w_state w') !! "pong"
      = mgr_get _handlers ∅ 0 (w_state w_partly_registered) !! "pong".
Proof.
  destruct (removeHandler_of_one_name_keeps_the_others hinfo 0 8 "ping"
              w_partly_registered)
    as (w' & Hrun & _ & Hothers & _).
  - split; [apply NoDup_singleton|].
    intros name ->%list_elem_of_singleton.
    exists {[8]}. split; [vm_compute; reflexivity|].
    apply elem_of_singleton. reflexivity.
  - exists w'. split; [exact Hrun|]. apply Hothers. discriminate.
Defined.

(** X21, at the removal of handler 6, the only one of the root. *)
Lemma no_bucket_is_stored_empty_witness :
  match run_op hinfo (RemoveHandler 0 6 None) (world {[6]} ping) with
  | Ret _ w' | Raise _ w' => buckets_nonempty 0 (w_state w')
  | OutOfFuel => True
  end.
Proof.
  apply (no_bucket_is_stored_empty hinfo (RemoveHandler 0 6 None) 0
           (world {[6]} ping)).
  intros name bucket. unfold world, mgr_get. simpl.
  intros [_ <-]%lookup_singleton_Some. apply non_empty_singleton_L.
Defined.

(** X26, at the running root: Stopped is dispatched by the first tick. *)
Lemma stop_on_the_root_delivers_Stopped_witness :
  let w' := world_of w_running (run_stop 5 0 w_running) in
  ∃ more, dispatched (w_log w') = [(0, [CStr "*"])] ++ more.
Proof.
  destruct (stop_on_the_root_delivers_Stopped hinfo event_name call_handler
              call_tick gen_next
              (@ascending nat _ _) (@ascending nat _ _) (@ascending _ _ _)
              ltac:(intros X; reflexivity) ltac:(intros X; reflexivity)
              5 0 w_running (world_of w_running (run_stop 5 0 w_running))
              ltac:(reflexivity) ltac:(by eexists) ltac:(reflexivity)
              ltac:(reflexivity) ltac:(reflexivity)
              ltac:(vm_compute; reflexivity))
    as [_ [more Hlog]].
  exists more. exact Hlog.
Defined.

End Demo.
